(** * Ordonnancement: a shallow embedding of [function.py]

    The scheduling core of the repository (graph construction, validation,
    rank assignment, forward/backward date computation, slack computation)
    is transcribed function by function.

    - Python integers are [Z]; lengths and counters of loop passes are [nat].
    - A task record [(t_id, dur, preds)] is a triple [Z * Z * list Z].
    - A [dict] with integer keys is a [gmap Z Z]; a Python [set] of integers
      is a [gset Z].  No claim below depends on the iteration order of a dict
      or of a set (only on maxima, minima, sums and membership).
    - An uncaught Python exception is a value [Raise e] of the error monad
      [res]; the [while] loops take a fuel argument counting loop passes. *)

From Stdlib Require Import ZArith Lia.
From stdpp Require Import gmap list sets fin_maps sorting finite.

Open Scope Z_scope.

(** ** Exceptions and the error monad *)

Inductive exn : Type := KeyError | IndexError | ValueError.

Inductive res (A : Type) : Type :=
| Ok (a : A)
| Raise (e : exn).
Arguments Ok {A} a.
Arguments Raise {A} e.

Global Instance res_bind : MBind res := λ A B f m,
  match m with
  | Ok a => f a
  | Raise e => Raise e
  end.
Global Instance res_ret : MRet res := λ A a, Ok a.

(** [for x in l: s = f(s, x)] where the body may raise. *)
Fixpoint foldM {A S : Type} (f : S → A → res S) (s : S) (l : list A) : res S :=
  match l with
  | [] => Ok s
  | x :: l' => s' ← f s x; foldM f s' l'
  end.

(** [[f(x) for x in l]] where [f] may raise. *)
Fixpoint mapR {A B : Type} (f : A → res B) (l : list A) : res (list B) :=
  match l with
  | [] => Ok []
  | x :: l' => y ← f x; ys ← mapR f l'; Ok (y :: ys)
  end.

(** [max(...)] and [min(...)] of a sequence: [ValueError] when it is empty. *)
Definition py_max (l : list Z) : res Z :=
  match l with
  | [] => Raise ValueError
  | x :: l' => Ok (foldl Z.max x l')
  end.

Definition py_min (l : list Z) : res Z :=
  match l with
  | [] => Raise ValueError
  | x :: l' => Ok (foldl Z.min x l')
  end.

(** [d[k]] on a dict. *)
Definition dict_get (d : gmap Z Z) (k : Z) : res Z :=
  match d !! k with
  | Some v => Ok v
  | None => Raise KeyError
  end.

(** [d.keys()], in the order of the model's map (never relied upon). *)
Definition dict_keys (d : gmap Z Z) : list Z := (map_to_list d).*1.

(** ** Task records *)

Definition task : Type := Z * Z * list Z.

Definition task_id (t : task) : Z := t.1.1.
Definition task_dur (t : task) : Z := t.1.2.
Definition task_preds (t : task) : list Z := t.2.

Definition task_ids (tasks : list task) : list Z := task_id <$> tasks.

(** ** GraphBuilder *)

Definition count_vertices (tasks : list task) : nat :=
  (length tasks + 2)%nat.




(** *** The adjacency matrix

    A cell is either the string ["*"] (no arc) or an integer weight.
    Indexing a Python list accepts an index in [-len, len); a negative index
    counts from the end, anything else raises [IndexError]. *)

Inductive cell : Type :=
| Star
| W (w : Z).

Global Instance cell_eq_dec : EqDecision cell.
Proof. solve_decision. Defined.

Definition py_index {A : Type} (l : list A) (i : Z) : res nat :=
  let n := Z.of_nat (length l) in
  if bool_decide (0 ≤ i < n) then Ok (Z.to_nat i)
  else if bool_decide (- n ≤ i < 0) then Ok (Z.to_nat (n + i))
  else Raise IndexError.

Definition py_getitem {A : Type} (l : list A) (i : Z) : res A :=
  k ← py_index l i;
  match l !! k with
  | Some x => Ok x
  | None => Raise IndexError
  end.

Definition py_setitem {A : Type} (l : list A) (i : Z) (v : A) : res (list A) :=
  k ← py_index l i; Ok (<[k:=v]> l).

(** [matrix[i][j] = v] *)
Definition matrix_set (matrix : list (list cell)) (i j : Z) (v : cell)
  : res (list (list cell)) :=
  row ← py_getitem matrix i;
  row' ← py_setitem row j v;
  py_setitem matrix i row'.

(** [next((d for (tid, d, _) in tasks if tid == p), None)] *)
Definition pred_duration (p : Z) (tasks : list task) : option Z :=
  task_dur <$> List.find (λ t, bool_decide (task_id t = p)) tasks.

(** Body of the first loop of [build_adjacency_matrix]. *)
Definition place_arcs (tasks : list task) (matrix : list (list cell)) (t : task)
  : res (list (list cell)) :=
  let '(t_id, _, preds) := t in
  match preds with
  | [] => matrix_set matrix 0 t_id (W 0)
  | _ :: _ =>
      foldM (λ matrix p,
               match pred_duration p tasks with
               | Some d => matrix_set matrix p t_id (W d)
               | None => Ok matrix
               end) matrix preds
  end.

(** [no_succ = set(ids) - set(all predecessors)] *)
Definition no_succ (tasks : list task) : gset Z :=
  let all_tasks : gset Z := list_to_set (task_ids tasks) in
  let tasks_with_preds := foldl (λ s t, s ∪ list_to_set (task_preds t)) ∅ tasks in
  all_tasks ∖ tasks_with_preds.

(** [omega = nb_sommets - 1] with [nb_sommets = len(tasks) + 2]. *)
Definition matrix_omega (tasks : list task) : Z :=
  Z.of_nat (length tasks + 2) - 1.

Definition build_adjacency_matrix (tasks : list task) : res (list (list cell)) :=
  let nb_sommets := (length tasks + 2)%nat in
  let omega := matrix_omega tasks in
  let matrix := replicate nb_sommets (replicate nb_sommets Star) in
  matrix ← foldM (place_arcs tasks) matrix tasks;
  let no_succ := no_succ tasks in
  foldM (λ matrix t,
           let '(t_id, dur, _) := t in
           if bool_decide (t_id ∈ no_succ) then matrix_set matrix t_id omega (W dur)
           else Ok matrix) matrix tasks.

(** ** Validator *)

Definition has_negative_arcs (tasks : list task) : bool :=
  existsb (λ t, bool_decide (task_dur t < 0)) tasks.

(** [matrix[i][j] != "*"] for indices inside the matrix. *)
Definition has_arc (matrix : list (list cell)) (i j : nat) : bool :=
  match matrix !! i with
  | Some row =>
      match row !! j with
      | Some (W _) => true
      | _ => false
      end
  | None => false
  end.

(** The in-degree loops: [in_degree[j] += 1] for every arc [i -> j]. *)
Definition in_degrees (matrix : list (list cell)) (n : nat) : list Z :=
  foldl (λ in_degree i,
           foldl (λ in_degree j,
                    if has_arc matrix i j then alter (λ d, d + 1) j in_degree
                    else in_degree) in_degree (seq 0 n))
        (replicate n 0) (seq 0 n).

(** Body of the inner [for v in range(n)] loop, after vertex [u] was
    popped; the state is [(in_degree, queue)]. *)
Definition kahn_visit_step (matrix : list (list cell)) (u : nat)
    (st : list Z * list nat) (v : nat) : list Z * list nat :=
  let '(in_degree, queue) := st in
  if has_arc matrix u v then
    let in_degree := alter (λ d, d - 1) v in_degree in
    if bool_decide (in_degree !! v = Some 0) then (in_degree, queue ++ [v])
    else (in_degree, queue)
  else (in_degree, queue).

Definition kahn_visit (matrix : list (list cell)) (n u : nat)
    (st : list Z * list nat) : list Z * list nat :=
  foldl (kahn_visit_step matrix u) st (seq 0 n).

(** The [while queue] loop; [fuel] bounds the number of pops.  It returns
    [count_visited], or [None] when the fuel runs out. *)
Fixpoint kahn_loop (fuel : nat) (matrix : list (list cell)) (n : nat)
    (in_degree : list Z) (queue : list nat) (count_visited : nat) : option nat :=
  match fuel with
  | O => None
  | S fuel =>
      match queue with
      | [] => Some count_visited
      | u :: queue =>
          let '(in_degree, queue) := kahn_visit matrix n u (in_degree, queue) in
          kahn_loop fuel matrix n in_degree queue (S count_visited)
      end
  end.

(** [detect_cycle].  The in-degree loops read [matrix[i][j]] for all
    [i, j < n]: they raise [IndexError] exactly when some row is shorter
    than [n]; after them every read is in range. *)
Definition detect_cycle (fuel : nat) (matrix : list (list cell)) : option (res bool) :=
  let n := length matrix in
  if forallb (λ row, (n <=? length row)%nat) matrix then
    let in_degree := in_degrees matrix n in
    let queue := filter (λ i, in_degree !! i = Some 0) (seq 0 n) in
    count_visited ← kahn_loop fuel matrix n in_degree queue 0%nat;
    Some (Ok (bool_decide (count_visited < n)%nat))
  else Some (Raise IndexError).

(** ** RankAssigner *)

(** Body of the [for] loop of one relaxation pass; the state is
    [(ranks, changed)]. *)
Definition relax_task (st : gmap Z Z * bool) (t : task) : res (gmap Z Z * bool) :=
  let '(ranks, changed) := st in
  let '(t_id, _, preds) := t in
  match preds with
  | _ :: _ =>
      pred_ranks ← mapR (dict_get ranks) preds;
      max_pred_rank ← py_max pred_ranks;
      let new_rank := max_pred_rank + 1 in
      r ← dict_get ranks t_id;
      if bool_decide (new_rank > r) then Ok (<[t_id := new_rank]> ranks, true)
      else Ok (ranks, changed)
  | [] =>
      if bool_decide (t_id ≠ 0) then
        r ← dict_get ranks t_id;
        if bool_decide (r = 0) then Ok (<[t_id := 1]> ranks, true)
        else Ok (ranks, changed)
      else Ok (ranks, changed)
  end.

(** [max(ranks[t] for t in ranks if t != omega) + 1] *)
Definition omega_rank (omega : Z) (ranks : gmap Z Z) : res Z :=
  m ← py_max ((filter (λ kv, kv.1 ≠ omega) (map_to_list ranks)).*2);
  Ok (m + 1).

(** One pass of the [while changed] loop, started with [changed = False]. *)
Definition relax_pass (tasks : list task) (omega : Z) (ranks : gmap Z Z)
  : res (gmap Z Z * bool) :=
  '(ranks, changed) ← foldM relax_task (ranks, false) tasks;
  current_omega_rank ← omega_rank omega ranks;
  r ← dict_get ranks omega;
  if bool_decide (current_omega_rank ≠ r)
  then Ok (<[omega := current_omega_rank]> ranks, true)
  else Ok (ranks, changed).

(** The [while changed] loop; [fuel] bounds the number of passes. *)
Fixpoint relax_loop (fuel : nat) (tasks : list task) (omega : Z) (ranks : gmap Z Z)
  : option (res (gmap Z Z)) :=
  match fuel with
  | O => None
  | S fuel =>
      match relax_pass tasks omega ranks with
      | Raise e => Some (Raise e)
      | Ok (ranks, true) => relax_loop fuel tasks omega ranks
      | Ok (ranks, false) => Some (Ok ranks)
      end
  end.

(** The dict before [omega] is added: key [0], then every task id. *)
Definition init_ranks (tasks : list task) : gmap Z Z :=
  foldl (λ ranks t, <[task_id t := 0]> ranks) {[0 := 0]} tasks.

(** [omega = max(ranks.keys()) + 1] as [assign_ranks] computes it. *)
Definition rank_omega (tasks : list task) : res Z :=
  m ← py_max (dict_keys (init_ranks tasks)); Ok (m + 1).

(** [assign_ranks]; the final [OrderedDict(sorted(...))] only fixes the
    iteration order, which a [gmap] does not record. *)
Definition assign_ranks (fuel : nat) (tasks : list task) : option (res (gmap Z Z)) :=
  match rank_omega tasks with
  | Raise e => Some (Raise e)
  | Ok omega => relax_loop fuel tasks omega (<[omega := 0]> (init_ranks tasks))
  end.

(** ** ScheduleComputer *)

Fixpoint get_duration (task_id : Z) (tasks : list task) : Z :=
  match tasks with
  | [] => 0
  | (tid, dur, _) :: tasks => if bool_decide (tid = task_id) then dur else get_duration task_id tasks
  end.

(** [sorted(l, key=...)] is stable: among equal keys the original order is
    kept.  Keys are computed first (they may raise), then the keyed records
    are sorted by insertion from the right. *)
Fixpoint insert_by_key {A : Type} (x : Z * A) (l : list (Z * A)) : list (Z * A) :=
  match l with
  | [] => [x]
  | y :: l' => if bool_decide (x.1 ≤ y.1) then x :: y :: l' else y :: insert_by_key x l'
  end.

Definition sort_by_key {A : Type} (l : list (Z * A)) : list (Z * A) :=
  foldr insert_by_key [] l.

Definition sorted_by_rank (tasks : list task) (ranks : gmap Z Z) : res (list task) :=
  keyed ← mapR (λ t, k ← dict_get ranks (task_id t); Ok (k, t)) tasks;
  Ok ((sort_by_key keyed).*2).

(** Body of the forward loop. *)
Definition forward_task (tasks : list task) (earliest : gmap Z Z) (t : task)
  : res (gmap Z Z) :=
  let '(t_id, _, preds) := t in
  match preds with
  | _ :: _ =>
      dates ← mapR (λ p, e ← dict_get earliest p; Ok (e + get_duration p tasks)) preds;
      m ← py_max dates;
      Ok (<[t_id := m]> earliest)
  | [] =>
      if bool_decide (t_id ≠ 0) then
        e0 ← dict_get earliest 0; Ok (<[t_id := e0]> earliest)
      else Ok earliest
  end.

(** [[tid for (tid, _, pds) in tasks if t_id in pds]] *)
Definition successors (t_id : Z) (tasks : list task) : list Z :=
  task_id <$> filter (λ t, t_id ∈ task_preds t) tasks.

(** Body of the backward loop. *)
Definition backward_task (tasks : list task) (omega : Z) (latest : gmap Z Z) (t : task)
  : res (gmap Z Z) :=
  let '(t_id, dur, _) := t in
  match successors t_id tasks with
  | [] =>
      if bool_decide (t_id ≠ omega) then
        lo ← dict_get latest omega; Ok (<[t_id := lo - dur]> latest)
      else Ok latest
  | succs =>
      ls ← mapR (dict_get latest) succs;
      m ← py_min ls;
      Ok (<[t_id := m - dur]> latest)
  end.

(** [omega = max(ranks.keys())] *)
Definition schedule_omega (ranks : gmap Z Z) : res Z := py_max (dict_keys ranks).

Definition compute_schedules (tasks : list task) (ranks : gmap Z Z)
  : res (gmap Z Z * gmap Z Z) :=
  let earliest : gmap Z Z := {[0 := 0]} in
  omega ← schedule_omega ranks;
  sorted ← sorted_by_rank tasks ranks;
  earliest ← foldM (forward_task tasks) earliest sorted;
  let no_succ := no_succ tasks in
  e_omega ← (if bool_decide (no_succ ≠ ∅) then
               dates ← mapR (λ t, e ← dict_get earliest t; Ok (e + get_duration t tasks))
                            (elements no_succ);
               py_max dates
             else Ok 0);
  let earliest := <[omega := e_omega]> earliest in
  let latest : gmap Z Z := {[omega := e_omega]} in
  latest ← foldM (backward_task tasks omega) latest (reverse sorted);
  Ok (earliest, latest).

(** ** SlackAnalyzer *)

Definition calculate_slacks (earliest latest : gmap Z Z) : res (gmap Z Z) :=
  let all_nodes : gset Z := dom earliest ∪ dom latest in
  foldM (λ slacks node,
           l ← dict_get latest node;
           e ← dict_get earliest node;
           Ok (<[node := l - e]> slacks)) ∅ (elements all_nodes).

(** ** Specification-side notions *)

(** *** The arc count as the specification words it *)

Definition never_predecessor (tasks : list task) (i : Z) : Prop :=
  Forall (λ t, i ∉ task_preds t) tasks.

(** *** The graph of a TaskSet

    Vertices are integers: [0] is the start vertex, task ids are the tasks,
    [omega_of tasks] is the end vertex. *)

(** The end vertex as [assign_ranks] computes it, in closed form: one more
    than the largest key among [0] and the task ids. *)
Definition omega_of (tasks : list task) : Z :=
  foldr Z.max 0 (task_ids tasks) + 1.

(** The edges are those of the specification: start → predecessor-free
    task, predecessor → task, terminal task → end. *)
Inductive edge (tasks : list task) : Z → Z → Prop :=
| edge_alpha (t_id dur : Z) :
    (t_id, dur, []) ∈ tasks → edge tasks 0 t_id
| edge_pred (p t_id dur : Z) (preds : list Z) :
    (t_id, dur, preds) ∈ tasks → p ∈ preds → edge tasks p t_id
| edge_omega (t_id : Z) :
    t_id ∈ task_ids tasks → never_predecessor tasks t_id →
    edge tasks t_id (omega_of tasks).

(** No vertex reaches itself along one or more edges. *)
Definition acyclic (tasks : list task) : Prop :=
  ∀ v, ¬ tc (edge tasks) v v.

(** Every predecessor id is the id of a task of the TaskSet. *)
Definition resolved (tasks : list task) : Prop :=
  Forall (λ t, Forall (λ p, p ∈ task_ids tasks) (task_preds t)) tasks.

(** Task ids are exactly row indices of real tasks: [1 .. len(tasks)]. *)
Definition dense_ids (tasks : list task) : Prop :=
  Forall (λ t, 1 ≤ task_id t ≤ Z.of_nat (length tasks)) tasks.

(** [ranks[v]], read as [0] outside the dict (only used where the key is
    known to be present). *)
Definition rank_of (ranks : gmap Z Z) (v : Z) : Z := default 0 (ranks !! v).

(** Strict monotonicity of a rank map along an edge, with both ranks read
    from the dict. *)
Definition rank_lt (ranks : gmap Z Z) (u v : Z) : Prop :=
  ∃ ru rv, ranks !! u = Some ru ∧ ranks !! v = Some rv ∧ ru < rv.


(** *** The graph of an adjacency matrix

    There is an arc [i -> j] when the cell [(i, j)] is not ["*"]; a cycle is
    a vertex that reaches itself along one or more arcs. *)

(** An [n × n] matrix. *)
Definition square (n : nat) (matrix : list (list cell)) : Prop :=
  length matrix = n ∧ Forall (λ row, length row = n) matrix.

Definition arc (matrix : list (list cell)) (i j : nat) : Prop :=
  has_arc matrix i j = true.

Definition has_cycle (matrix : list (list cell)) : Prop :=
  ∃ v, tc (arc matrix) v v.

(** *** TaskSets used as examples *)

(** The running example of the specification. *)
Definition example_tasks : list task :=
  [(1, 3, []); (2, 2, [1]); (3, 4, [1]); (4, 1, [2; 3])].

(** The maps the code computes on the running example. *)
Definition example_ranks : gmap Z Z :=
  list_to_map [(0, 0); (1, 1); (2, 2); (3, 2); (4, 3); (5, 4)].
Definition example_earliest : gmap Z Z :=
  list_to_map [(0, 0); (1, 0); (2, 3); (3, 3); (4, 7); (5, 8)].
Definition example_latest : gmap Z Z :=
  list_to_map [(5, 8); (4, 7); (2, 5); (3, 3); (1, 0)].

(** Task 1 depends on task 2 and task 2 on task 1, with any durations. *)
Definition cyclic_pair (d1 d2 : Z) : list task := [(1, d1, [2]); (2, d2, [1])].

(** A TaskSet with sparse ids, one with an unresolved predecessor, and one
    with a repeated id (which the loader contract excludes). *)
Definition sparse_tasks : list task := [(1, 0, []); (3, 0, [1])].
Definition unresolved_tasks : list task := [(1, 3, [7])].

(** *** Invariants of the matrix construction *)

(** Rows that belong neither to the start vertex nor to a task are never
    written: the matrix invariant of both loops, for dense ids. *)
Definition untouched_rows (tasks : list task) (matrix : list (list cell)) : Prop :=
  square (length tasks + 2) matrix ∧
  ∀ i : nat, (0 < i)%nat → Z.of_nat i ∉ task_ids tasks →
    ∀ row, matrix !! i = Some row → row = replicate (length tasks + 2) Star.

(** *** Invariants of the relaxation loop *)

(** The record [t] asks for no update in the state [ranks]. *)
Definition stable (ranks : gmap Z Z) (t : task) : Prop :=
  (∀ p, p ∈ task_preds t → rank_of ranks p + 1 ≤ rank_of ranks (task_id t)) ∧
  (task_preds t = [] → task_id t = 0 ∨ rank_of ranks (task_id t) ≠ 0).

(** What one execution of the loop body does to the dict, and whether it
    sets [changed]. *)
Inductive relaxed (ranks : gmap Z Z) (t : task) : gmap Z Z → bool → Prop :=
| relaxed_keep :
    stable ranks t → relaxed ranks t ranks false
| relaxed_pred (p : Z) :
    p ∈ task_preds t →
    (∀ q, q ∈ task_preds t → rank_of ranks q ≤ rank_of ranks p) →
    rank_of ranks (task_id t) < rank_of ranks p + 1 →
    relaxed ranks t (<[task_id t := rank_of ranks p + 1]> ranks) true
| relaxed_root :
    task_preds t = [] → task_id t ≠ 0 → rank_of ranks (task_id t) = 0 →
    relaxed ranks t (<[task_id t := 1]> ranks) true.

(** The value [omega_rank] computes: one more than the largest rank of a
    key other than [omega]. *)
Definition is_omega_rank (omega : Z) (ranks : gmap Z Z) (m : Z) : Prop :=
  (∃ v, v ∈ dom ranks ∧ v ≠ omega ∧ m = rank_of ranks v + 1) ∧
  (∀ v, v ∈ dom ranks → v ≠ omega → rank_of ranks v + 1 ≤ m).

(** Facts that hold of the dict all along a run of [assign_ranks]. *)
Definition ranks_ok (tasks : list task) (ranks : gmap Z Z) : Prop :=
  dom ranks = {[0]} ∪ list_to_set (task_ids tasks) ∪ {[omega_of tasks]} ∧
  (∀ v, 0 ≤ rank_of ranks v) ∧
  (0 ∉ task_ids tasks → rank_of ranks 0 = 0).

(** A rank [r] of [v] is supported by [r] distinct task ids that all reach
    [v]: on an acyclic graph this bounds every rank by the number of tasks. *)
Definition supported (tasks : list task) (v r : Z) : Prop :=
  ∃ S : gset Z, Z.of_nat (size S) = r ∧ S ⊆ list_to_set (task_ids tasks) ∧
    ∀ x, x ∈ S → rtc (edge tasks) x v.

(** The dict after [k] full passes: a record may still be unstable only
    because of a predecessor whose rank is at least [k]. *)
Record pass_inv (tasks : list task) (k : nat) (ranks : gmap Z Z) : Prop := {
  pi_ok : ranks_ok tasks ranks;
  pi_pred : ∀ t p, t ∈ tasks → p ∈ task_preds t →
    rank_of ranks p + 1 ≤ rank_of ranks (task_id t) ∨ Z.of_nat k ≤ rank_of ranks p;
  pi_root : ∀ t, t ∈ tasks → task_preds t = [] →
    task_id t = 0 ∨ 1 ≤ rank_of ranks (task_id t) ∨ k = 0%nat;
  pi_supp : ∀ v, v ≠ omega_of tasks → supported tasks v (rank_of ranks v);
  pi_omega : (0 < k)%nat →
    is_omega_rank (omega_of tasks) ranks (rank_of ranks (omega_of tasks));
  pi_omega0 : k = 0%nat → rank_of ranks (omega_of tasks) = 0
}.

(** The state inside pass [k + 1], started from [ranks0], once the records
    [done] have been processed: every value written in this pass is at
    least [k + 1]. *)
Record in_pass (tasks : list task) (k : nat) (ranks0 : gmap Z Z)
    (done : list task) (st : gmap Z Z * bool) : Prop := {
  ip_dom : dom st.1 = dom ranks0;
  ip_high : ∀ v, rank_of st.1 v = rank_of ranks0 v ∨ Z.of_nat k + 1 ≤ rank_of st.1 v;
  ip_mono : ∀ v, rank_of ranks0 v ≤ rank_of st.1 v;
  ip_pred : ∀ t p, t ∈ done → p ∈ task_preds t →
    rank_of st.1 p + 1 ≤ rank_of st.1 (task_id t) ∨ Z.of_nat k + 1 ≤ rank_of st.1 p;
  ip_root : ∀ t, t ∈ done → task_preds t = [] →
    task_id t = 0 ∨ 1 ≤ rank_of st.1 (task_id t);
  ip_same : st.2 = false → st.1 = ranks0;
  ip_incr : st.2 = true → ∃ v, rank_of ranks0 v < rank_of st.1 v;
  ip_supp : ∀ v, v ≠ omega_of tasks → supported tasks v (rank_of st.1 v);
  ip_omega : rank_of st.1 (omega_of tasks) = rank_of ranks0 (omega_of tasks)
}.

(** The dicts at the head of the [while] loop: [reached tasks k ranks] when
    [ranks] is the state after [k] passes that all reported a change. *)
Inductive reached (tasks : list task) : nat → gmap Z Z → Prop :=
| reached_init :
    reached tasks 0 (<[omega_of tasks := 0]> (init_ranks tasks))
| reached_pass (k : nat) (ranks ranks' : gmap Z Z) :
    reached tasks k ranks →
    relax_pass tasks (omega_of tasks) ranks = Ok (ranks', true) →
    reached tasks (S k) ranks'.

(** *** Invariants of the schedule passes *)



(** *** Invariant of Kahn's loop *)

(** Number of arcs into [v] that come from a vertex outside [visited]. *)
Definition indeg (matrix : list (list cell)) (n : nat) (visited : list nat) (v : nat) : Z :=
  Z.of_nat (length (filter (λ u, has_arc matrix u v = true ∧ u ∉ visited) (seq 0 n))).

(** State of Kahn's loop at its head: [visited] lists the popped vertices in
    the order of their removal. *)
Record kahn_inv (matrix : list (list cell)) (n : nat) (visited : list nat)
    (in_degree : list Z) (queue : list nat) : Prop := {
  ki_deg : ∀ v, (v < n)%nat → in_degree !! v = Some (indeg matrix n visited v);
  ki_nodup : NoDup (visited ++ queue);
  ki_range : ∀ v, v ∈ visited ++ queue → (v < n)%nat;
  ki_zero : ∀ v, (v < n)%nat → v ∈ visited ++ queue ↔ indeg matrix n visited v = 0;
  ki_order : ∀ i v u, visited !! i = Some v → has_arc matrix u v = true →
    ∃ j, (j < i)%nat ∧ visited !! j = Some u
}.

(** *** Indices the matrix accepts

    [matrix[i][j] = v] succeeds on the built matrix, of side
    [len(tasks) + 2], exactly for indices in [-side, side): Python lets a
    negative index count from the end. *)
Definition index_ok (tasks : list task) (i : Z) : Prop :=
  - Z.of_nat (length tasks + 2) ≤ i < Z.of_nat (length tasks + 2).

(** *** The arcs a TaskSet asks for

    [matrix_cell matrix i j] is [matrix[i][j]] for indices inside the matrix.
    [arc_weight tasks i j d] lists the arcs of the scheduling graph with
    their weights: start → task without predecessor (weight 0),
    predecessor → task (the duration of the predecessor), terminal task →
    end (the duration of the task). *)
Definition matrix_cell (matrix : list (list cell)) (i j : nat) : option cell :=
  row ← matrix !! i; row !! j.

Inductive arc_weight (tasks : list task) : Z → Z → Z → Prop :=
| aw_alpha (t_id dur : Z) :
    (t_id, dur, []) ∈ tasks → arc_weight tasks 0 t_id 0
| aw_pred (p dp : Z) (predsp : list Z) (t_id dur : Z) (preds : list Z) :
    (t_id, dur, preds) ∈ tasks → p ∈ preds → (p, dp, predsp) ∈ tasks →
    arc_weight tasks p t_id dp
| aw_omega (t_id dur : Z) (preds : list Z) :
    (t_id, dur, preds) ∈ tasks → never_predecessor tasks t_id →
    arc_weight tasks t_id (matrix_omega tasks) dur.

(** Invariants of the construction: every weight in the matrix is the
    weight of an arc of the TaskSet, and a cell that holds a weight keeps
    it. *)
Definition sound_cells (tasks : list task) (matrix : list (list cell)) : Prop :=
  square (length tasks + 2) matrix ∧
  ∀ a b d, matrix_cell matrix a b = Some (W d) →
    arc_weight tasks (Z.of_nat a) (Z.of_nat b) d.

Definition keeps_cells (matrix matrix' : list (list cell)) : Prop :=
  ∀ a b d, matrix_cell matrix a b = Some (W d) → matrix_cell matrix' a b = Some (W d).

(** *** Upper bounds kept by the relaxation loop

    No rank is written above what its record asks for: a task without
    predecessor never gets a rank above 1 (above 0 for the id [0]), and the
    rank of a task with predecessors is 0 or at most one more than the rank
    of one of its predecessors. *)
Definition rank_bounded (tasks : list task) (ranks : gmap Z Z) : Prop :=
  (∀ t, t ∈ tasks → task_preds t = [] →
     rank_of ranks (task_id t) ≤ (if decide (task_id t = 0) then 0 else 1)) ∧
  (∀ t, t ∈ tasks → task_preds t ≠ [] →
     rank_of ranks (task_id t) = 0 ∨
     ∃ p, p ∈ task_preds t ∧ rank_of ranks (task_id t) ≤ rank_of ranks p + 1).

(** *** The recurrences of the critical path method

    [earliest_eq tasks e t]: the earliest date of [t] in [e] is 0 when [t]
    has no predecessor, and otherwise the largest finish date
    [e[p] + duration(p)] of its predecessors, all of which have a date.
    [latest_eq tasks omega l t]: the latest date of [t] in [l] is
    [l[omega] - duration(t)] when no task names [t] as a predecessor, and
    otherwise the smallest latest date of its successors minus its
    duration. *)
Definition earliest_eq (tasks : list task) (e : gmap Z Z) (t : task) : Prop :=
  match task_preds t with
  | [] => e !! task_id t = Some 0
  | _ :: _ =>
      ∃ p ep, p ∈ task_preds t ∧ e !! p = Some ep ∧
        e !! task_id t = Some (ep + get_duration p tasks) ∧
        ∀ q, q ∈ task_preds t →
          ∃ eq, e !! q = Some eq ∧ eq + get_duration q tasks ≤ ep + get_duration p tasks
  end.

Definition latest_eq (tasks : list task) (omega : Z) (l : gmap Z Z) (t : task) : Prop :=
  match successors (task_id t) tasks with
  | [] => ∃ lo, l !! omega = Some lo ∧ l !! task_id t = Some (lo - task_dur t)
  | _ :: _ =>
      ∃ s ls, s ∈ successors (task_id t) tasks ∧ l !! s = Some ls ∧
        l !! task_id t = Some (ls - task_dur t) ∧
        ∀ s', s' ∈ successors (task_id t) tasks → ∃ ls', l !! s' = Some ls' ∧ ls ≤ ls'
  end.

(** The date of the end vertex: 0 when no task is terminal, and otherwise
    the largest finish date of the terminal tasks. *)
Definition makespan_eq (tasks : list task) (e : gmap Z Z) (m : Z) : Prop :=
  (no_succ tasks = ∅ ∧ m = 0) ∨
  ∃ t et, t ∈ no_succ tasks ∧ e !! t = Some et ∧ m = et + get_duration t tasks ∧
    ∀ t', t' ∈ no_succ tasks →
      ∃ et', e !! t' = Some et' ∧ et' + get_duration t' tasks ≤ m.

(** * Properties *)

(** ** GraphBuilder: vertex and arc counts *)






(** ** Generic facts about the error monad and the Python primitives *)

Lemma bind_Ok {A B : Type} (m : res A) (f : A → res B) (b : B) :
  (m ≫= f) = Ok b ↔ ∃ a, m = Ok a ∧ f a = Ok b.
Proof.
  destruct m as [a|e]; simpl; split.
  - eauto.
  - intros (a' & [= ->] & H). done.
  - done.
  - intros (a' & [=] & _).
Qed.

(** Invariant rule for a loop that may raise: the invariant may mention the
    records already processed. *)
Lemma foldM_ind {A S : Type} (f : S → A → res S) (P : list A → S → Prop)
    (l : list A) (s s' : S) :
  P [] s →
  (∀ done x s1 s2, x ∈ l → P done s1 → f s1 x = Ok s2 → P (done ++ [x]) s2) →
  foldM f s l = Ok s' → P l s'.
Proof.
  intros H0 Hstep.
  assert (Hgen : ∀ rest done s1, done ++ rest = l → P done s1 →
                 foldM f s1 rest = Ok s' → P l s').
  { induction rest as [|x rest IH]; intros done s1 Heq HP Hrun; simpl in Hrun.
    - rewrite app_nil_r in Heq. subst. by injection Hrun as ->.
    - apply bind_Ok in Hrun as (s2 & Hf & Hrun).
      apply (IH (done ++ [x]) s2); [by rewrite <- app_assoc | | done].
      apply (Hstep done x s1 s2); [|done|done].
      rewrite <- Heq. set_solver. }
  by apply (Hgen l [] s).
Qed.

(** A loop whose body cannot raise under the invariant does not raise. *)
Lemma foldM_total {A S : Type} (f : S → A → res S) (P : S → Prop)
    (l : list A) (s : S) :
  P s →
  (∀ x s1, x ∈ l → P s1 → ∃ s2, f s1 x = Ok s2 ∧ P s2) →
  ∃ s', foldM f s l = Ok s' ∧ P s'.
Proof.
  revert s. induction l as [|x l IH]; intros s HP Hstep; simpl.
  - eauto.
  - destruct (Hstep x s) as (s2 & -> & HP2); [set_solver|done|]. simpl.
    apply IH; [done|]. intros y s1 Hy. apply Hstep. set_solver.
Qed.

Lemma mapR_Ok {A B : Type} (f : A → res B) (l : list A) (ys : list B) :
  mapR f l = Ok ys ↔ Forall2 (λ x y, f x = Ok y) l ys.
Proof.
  revert ys. induction l as [|x l IH]; intros ys; simpl.
  - split; [intros [= <-]; constructor | by inversion 1].
  - split.
    + intros H. apply bind_Ok in H as (y & Hy & H).
      apply bind_Ok in H as (ys' & Hys & [= <-]).
      constructor; [done | by apply IH].
    + inversion 1 as [|? y ? ys' Hy Hys]; subst. rewrite Hy. simpl.
      apply IH in Hys. rewrite Hys. done.
Qed.

Lemma mapR_total {A B : Type} (f : A → res B) (l : list A) :
  (∀ x, x ∈ l → ∃ y, f x = Ok y) → ∃ ys, mapR f l = Ok ys.
Proof.
  induction l as [|x l IH]; intros H; simpl; [eauto|].
  destruct (H x) as [y ->]; [set_solver|]. simpl.
  destruct IH as [ys ->]; [intros; apply H; set_solver|]. simpl. eauto.
Qed.

Lemma foldl_max_spec (a : Z) (l : list Z) :
  foldl Z.max a l ∈ a :: l ∧ ∀ x, x ∈ a :: l → x ≤ foldl Z.max a l.
Proof.
  revert a. induction l as [|y l IH]; intros a; simpl.
  - split; [set_solver|]. intros x Hx. apply list_elem_of_singleton in Hx. lia.
  - destruct (IH (Z.max a y)) as [Hin Hle]. split.
    + apply elem_of_cons in Hin as [Heq|Hin]; [|set_solver].
      rewrite Heq. destruct (Z.max_spec a y) as [[_ ->]|[_ ->]]; set_solver.
    + intros x Hx.
      assert (Hxa : x ≤ Z.max a y ∨ x ∈ l).
      { apply elem_of_cons in Hx as [->|Hx]; [left; lia|].
        apply elem_of_cons in Hx as [->|Hx]; [left; lia | by right]. }
      destruct Hxa as [Hxa|Hxl].
      * etrans; [exact Hxa|]. apply Hle. set_solver.
      * apply Hle. set_solver.
Qed.

Lemma foldl_min_spec (a : Z) (l : list Z) :
  foldl Z.min a l ∈ a :: l ∧ ∀ x, x ∈ a :: l → foldl Z.min a l ≤ x.
Proof.
  revert a. induction l as [|y l IH]; intros a; simpl.
  - split; [set_solver|]. intros x Hx. apply list_elem_of_singleton in Hx. lia.
  - destruct (IH (Z.min a y)) as [Hin Hle]. split.
    + apply elem_of_cons in Hin as [Heq|Hin]; [|set_solver].
      rewrite Heq. destruct (Z.min_spec a y) as [[_ ->]|[_ ->]]; set_solver.
    + intros x Hx.
      assert (Hxa : Z.min a y ≤ x ∨ x ∈ l).
      { apply elem_of_cons in Hx as [->|Hx]; [left; lia|].
        apply elem_of_cons in Hx as [->|Hx]; [left; lia | by right]. }
      destruct Hxa as [Hxa|Hxl].
      * etrans; [|exact Hxa]. apply Hle. set_solver.
      * apply Hle. set_solver.
Qed.

Lemma py_max_Ok (l : list Z) (m : Z) :
  py_max l = Ok m → m ∈ l ∧ ∀ x, x ∈ l → x ≤ m.
Proof.
  destruct l as [|a l]; simpl; [done|]. intros [= <-]. apply foldl_max_spec.
Qed.

Lemma py_min_Ok (l : list Z) (m : Z) :
  py_min l = Ok m → m ∈ l ∧ ∀ x, x ∈ l → m ≤ x.
Proof.
  destruct l as [|a l]; simpl; [done|]. intros [= <-]. apply foldl_min_spec.
Qed.

Lemma py_max_total (l : list Z) : l ≠ [] → ∃ m, py_max l = Ok m.
Proof. destruct l; [done|]. simpl. eauto. Qed.


Lemma dict_get_Ok (d : gmap Z Z) (k v : Z) : dict_get d k = Ok v ↔ d !! k = Some v.
Proof. unfold dict_get. destruct (d !! k); split; congruence. Qed.

Lemma elem_of_dict_keys (d : gmap Z Z) (k : Z) : k ∈ dict_keys d ↔ k ∈ dom d.
Proof.
  unfold dict_keys. rewrite elem_of_dom, list_elem_of_fmap. split.
  - intros ([k' v] & -> & H). apply elem_of_map_to_list in H. eauto.
  - intros [v H]. exists (k, v). split; [done|]. by apply elem_of_map_to_list.
Qed.

(** ** RankAssigner: keys of the rank map *)

Lemma init_ranks_acc_dom (tasks : list task) (ranks : gmap Z Z) :
  dom (foldl (λ ranks t, <[task_id t := 0]> ranks) ranks tasks)
  = dom ranks ∪ list_to_set (task_ids tasks).
Proof.
  revert ranks. induction tasks as [|t tasks IH]; intros ranks; simpl.
  - set_solver.
  - rewrite IH, dom_insert_L. set_solver.
Qed.

Lemma init_ranks_dom (tasks : list task) :
  dom (init_ranks tasks) = {[0]} ∪ list_to_set (task_ids tasks).
Proof. unfold init_ranks. rewrite init_ranks_acc_dom, dom_singleton_L. done. Qed.

Lemma init_ranks_acc_lookup (tasks : list task) (ranks : gmap Z Z) (k v : Z) :
  foldl (λ ranks t, <[task_id t := 0]> ranks) ranks tasks !! k = Some v →
  v = 0 ∨ ranks !! k = Some v.
Proof.
  revert ranks. induction tasks as [|t tasks IH]; intros ranks; simpl; [auto|].
  intros [->|H]%IH; [by left|].
  rewrite lookup_insert in H. case_decide; [left; congruence | by right].
Qed.

Lemma init_ranks_lookup (tasks : list task) (k v : Z) :
  init_ranks tasks !! k = Some v → v = 0.
Proof.
  intros [->|H]%init_ranks_acc_lookup; [done|].
  apply lookup_singleton_Some in H as [_ <-]. done.
Qed.

Lemma foldr_max_spec (l : list Z) :
  foldr Z.max 0 l ∈ 0 :: l ∧ ∀ x, x ∈ 0 :: l → x ≤ foldr Z.max 0 l.
Proof.
  induction l as [|y l [Hin Hle]]; simpl.
  - split; [set_solver|]. intros x Hx. apply list_elem_of_singleton in Hx. lia.
  - split.
    + destruct (Z.max_spec y (foldr Z.max 0 l)) as [[_ ->]|[_ ->]]; set_solver.
    + intros x Hx. apply elem_of_cons in Hx as [->|Hx].
      * specialize (Hle 0). etrans; [apply Hle; set_solver | lia].
      * apply elem_of_cons in Hx as [->|Hx]; [lia|].
        etrans; [apply Hle; set_solver | lia].
Qed.

Lemma omega_of_pos (tasks : list task) : 0 < omega_of tasks.
Proof.
  unfold omega_of. destruct (foldr_max_spec (task_ids tasks)) as [_ H].
  specialize (H 0). assert (0 ≤ foldr Z.max 0 (task_ids tasks)) by (apply H; set_solver).
  lia.
Qed.

Lemma omega_of_gt (tasks : list task) (i : Z) :
  i ∈ task_ids tasks → i < omega_of tasks.
Proof.
  intros Hi. unfold omega_of. destruct (foldr_max_spec (task_ids tasks)) as [_ H].
  specialize (H i). assert (i ≤ foldr Z.max 0 (task_ids tasks)) by (apply H; set_solver).
  lia.
Qed.

(** The [omega] key of [assign_ranks] is [omega_of]. *)
Lemma rank_omega_eq (tasks : list task) : rank_omega tasks = Ok (omega_of tasks).
Proof.
  unfold rank_omega.
  destruct (py_max_total (dict_keys (init_ranks tasks))) as [m Hm].
  { intros Hnil. assert (H0 : 0 ∈ dict_keys (init_ranks tasks)).
    { rewrite elem_of_dict_keys, init_ranks_dom. set_solver. }
    rewrite Hnil in H0. by apply not_elem_of_nil in H0. }
  rewrite Hm. simpl. f_equal. unfold omega_of. f_equal.
  apply py_max_Ok in Hm as [Hin Hle].
  destruct (foldr_max_spec (task_ids tasks)) as [Hin' Hle'].
  apply Z.le_antisymm.
  - apply Hle'. rewrite elem_of_dict_keys, init_ranks_dom in Hin. set_solver.
  - apply Hle. rewrite elem_of_dict_keys, init_ranks_dom. set_solver.
Qed.

Lemma relax_task_dom (ranks ranks' : gmap Z Z) (c c' : bool) (t : task) :
  relax_task (ranks, c) t = Ok (ranks', c') → dom ranks' = dom ranks.
Proof.
  destruct t as [[t_id dur] preds]. unfold relax_task.
  destruct preds as [|p preds]; intros H.
  - case_bool_decide; [|by injection H as <- _].
    apply bind_Ok in H as (r & Hr & H). apply dict_get_Ok in Hr.
    case_bool_decide; injection H as <- _; [|done].
    rewrite dom_insert_L. apply elem_of_dom_2 in Hr. set_solver.
  - apply bind_Ok in H as (prs & _ & H). apply bind_Ok in H as (m & _ & H).
    apply bind_Ok in H as (r & Hr & H). apply dict_get_Ok in Hr.
    case_bool_decide; injection H as <- _; [|done].
    rewrite dom_insert_L. apply elem_of_dom_2 in Hr. set_solver.
Qed.

Lemma relax_tasks_dom (tasks : list task) (ranks ranks' : gmap Z Z) (c c' : bool) :
  foldM relax_task (ranks, c) tasks = Ok (ranks', c') → dom ranks' = dom ranks.
Proof.
  intros H.
  apply (foldM_ind relax_task (λ _ st, dom st.1 = dom ranks)) in H; [done|done|].
  intros _ t [r1 c1] [r2 c2] _ Hd Hstep. simpl in *.
  rewrite <- Hd. by eapply relax_task_dom.
Qed.

Lemma relax_pass_dom (tasks : list task) (omega : Z) (ranks ranks' : gmap Z Z) (c : bool) :
  relax_pass tasks omega ranks = Ok (ranks', c) → dom ranks' = dom ranks.
Proof.
  unfold relax_pass. intros H.
  apply bind_Ok in H as ([r1 c1] & Hfold & H). apply relax_tasks_dom in Hfold.
  apply bind_Ok in H as (cur & _ & H). apply bind_Ok in H as (r & Hr & H).
  apply dict_get_Ok in Hr.
  case_bool_decide; injection H as <- _; [|done].
  rewrite dom_insert_L. apply elem_of_dom_2 in Hr. set_solver.
Qed.

Lemma relax_loop_dom (fuel : nat) (tasks : list task) (omega : Z) (ranks ranks' : gmap Z Z) :
  relax_loop fuel tasks omega ranks = Some (Ok ranks') → dom ranks' = dom ranks.
Proof.
  revert ranks. induction fuel as [|fuel IH]; intros ranks; simpl; [done|].
  destruct (relax_pass tasks omega ranks) as [[r1 [|]]|e] eqn:Hpass; [| |done].
  - intros H. rewrite (IH _ H). by eapply relax_pass_dom.
  - intros [= <-]. by eapply relax_pass_dom.
Qed.

Lemma assign_ranks_dom (fuel : nat) (tasks : list task) (ranks : gmap Z Z) :
  assign_ranks fuel tasks = Some (Ok ranks) →
  dom ranks = {[0]} ∪ list_to_set (task_ids tasks) ∪ {[omega_of tasks]}.
Proof.
  unfold assign_ranks. rewrite rank_omega_eq. intros H.
  apply relax_loop_dom in H. rewrite H, dom_insert_L, init_ranks_dom. set_solver.
Qed.

(** The largest key of a returned rank map is the [omega] key. *)
Lemma assign_ranks_max_key (fuel : nat) (tasks : list task) (ranks : gmap Z Z) :
  assign_ranks fuel tasks = Some (Ok ranks) →
  py_max (dict_keys ranks) = Ok (omega_of tasks).
Proof.
  intros Hdom%assign_ranks_dom.
  destruct (py_max_total (dict_keys ranks)) as [m Hm].
  { intros Hnil. assert (H0 : 0 ∈ dict_keys ranks).
    { rewrite elem_of_dict_keys, Hdom. set_solver. }
    rewrite Hnil in H0. by apply not_elem_of_nil in H0. }
  rewrite Hm. f_equal.
  apply py_max_Ok in Hm as [Hin Hle].
  rewrite elem_of_dict_keys, Hdom in Hin.
  apply Z.le_antisymm.
  - apply elem_of_union in Hin as [Hin|Hin]; [|apply elem_of_singleton in Hin; lia].
    apply elem_of_union in Hin as [Hin|Hin].
    + apply elem_of_singleton in Hin. pose proof (omega_of_pos tasks). lia.
    + apply elem_of_list_to_set, omega_of_gt in Hin. lia.
  - apply Hle. rewrite elem_of_dict_keys, Hdom. set_solver.
Qed.

(** ** ScheduleComputer: the sort, and the start vertex in both maps *)

Lemma insert_by_key_perm {A : Type} (x : Z * A) (l : list (Z * A)) :
  insert_by_key x l ≡ₚ x :: l.
Proof.
  induction l as [|y l IH]; simpl; [done|].
  case_bool_decide; [done|]. rewrite IH. apply Permutation_swap.
Qed.

Lemma sort_by_key_perm {A : Type} (l : list (Z * A)) : sort_by_key l ≡ₚ l.
Proof.
  induction l as [|x l IH]; simpl; [done|].
  rewrite insert_by_key_perm. by constructor.
Qed.

Lemma mapR_keyed (ranks : gmap Z Z) (tasks : list task) (keyed : list (Z * task)) :
  mapR (λ t, k ← dict_get ranks (task_id t); Ok (k, t)) tasks = Ok keyed →
  keyed.*2 = tasks ∧ Forall (λ kt, ranks !! task_id kt.2 = Some kt.1) keyed.
Proof.
  intros H%mapR_Ok. induction H as [|t [k t'] tasks keyed Hx _ [IH1 IH2]]; [done|].
  apply bind_Ok in Hx as (k' & Hk & [= -> ->]). apply dict_get_Ok in Hk.
  split; [simpl; by f_equal | by constructor].
Qed.

Lemma sorted_by_rank_perm (tasks sorted : list task) (ranks : gmap Z Z) :
  sorted_by_rank tasks ranks = Ok sorted → sorted ≡ₚ tasks.
Proof.
  unfold sorted_by_rank. intros H. apply bind_Ok in H as (keyed & Hk & [= <-]).
  apply mapR_keyed in Hk as [<- _]. by rewrite sort_by_key_perm.
Qed.

Lemma forward_task_other (tasks : list task) (e e' : gmap Z Z) (t : task) (k : Z) :
  forward_task tasks e t = Ok e' → k ≠ task_id t → e' !! k = e !! k.
Proof.
  destruct t as [[t_id dur] preds]. unfold forward_task, task_id. simpl.
  intros H Hne. destruct preds as [|p preds].
  - case_bool_decide; [|by injection H as <-].
    apply bind_Ok in H as (e0 & _ & [= <-]). by rewrite lookup_insert_ne.
  - apply bind_Ok in H as (ds & _ & H). apply bind_Ok in H as (m & _ & [= <-]).
    by rewrite lookup_insert_ne.
Qed.

Lemma backward_task_other (tasks : list task) (omega : Z) (l l' : gmap Z Z) (t : task) (k : Z) :
  backward_task tasks omega l t = Ok l' → k ≠ task_id t → l' !! k = l !! k.
Proof.
  destruct t as [[t_id dur] preds]. unfold backward_task, task_id. simpl.
  intros H Hne. destruct (successors t_id tasks) as [|s succs].
  - case_bool_decide; [|by injection H as <-].
    apply bind_Ok in H as (lo & _ & [= <-]). by rewrite lookup_insert_ne.
  - apply bind_Ok in H as (ls & _ & H). apply bind_Ok in H as (m & _ & [= <-]).
    by rewrite lookup_insert_ne.
Qed.

(** A key that is not a task id is left alone by the two passes. *)
Lemma forward_pass_other (tasks sorted : list task) (e e' : gmap Z Z) (k : Z) :
  foldM (forward_task tasks) e sorted = Ok e' → k ∉ task_ids sorted → e' !! k = e !! k.
Proof.
  intros H Hk.
  apply (foldM_ind _ (λ _ e1, e1 !! k = e !! k)) in H; [done|done|].
  intros _ t e1 e2 Ht <- Hstep. eapply forward_task_other; [done|].
  intros ->. apply Hk. unfold task_ids. by apply list_elem_of_fmap_2.
Qed.

Lemma backward_pass_other (tasks sorted : list task) (omega : Z) (l l' : gmap Z Z) (k : Z) :
  foldM (backward_task tasks omega) l sorted = Ok l' → k ∉ task_ids sorted →
  l' !! k = l !! k.
Proof.
  intros H Hk.
  apply (foldM_ind _ (λ _ l1, l1 !! k = l !! k)) in H; [done|done|].
  intros _ t l1 l2 Ht <- Hstep. eapply backward_task_other; [done|].
  intros ->. apply Hk. unfold task_ids. by apply list_elem_of_fmap_2.
Qed.

(** The backward pass never writes [latest[0]] unless [0] is a task id or
    the largest rank key. *)
Lemma compute_schedules_alpha (tasks : list task) (ranks e l : gmap Z Z) (omega : Z) :
  0 ∉ task_ids tasks →
  py_max (dict_keys ranks) = Ok omega → omega ≠ 0 →
  compute_schedules tasks ranks = Ok (e, l) →
  l !! 0 = None ∧ e !! 0 = Some 0.
Proof.
  intros H0 Hmax Homega. unfold compute_schedules, schedule_omega. rewrite Hmax. simpl.
  intros H. apply bind_Ok in H as (sorted & Hsort & H).
  apply sorted_by_rank_perm in Hsort.
  apply bind_Ok in H as (e1 & Hfwd & H). apply bind_Ok in H as (eo & _ & H).
  apply bind_Ok in H as (l1 & Hbwd & [= <- <-]).
  assert (H0s : 0 ∉ task_ids sorted).
  { unfold task_ids. by rewrite Hsort. }
  split.
  - rewrite (backward_pass_other _ _ _ _ _ 0 Hbwd).
    + by rewrite lookup_singleton_ne.
    + unfold task_ids. rewrite fmap_reverse, elem_of_reverse. exact H0s.
  - rewrite lookup_insert_ne by done.
    rewrite (forward_pass_other _ _ _ _ 0 Hfwd H0s). apply lookup_singleton_eq.
Qed.

(** ** SlackAnalyzer *)

Lemma foldM_Raise {A S : Type} (f : S → A → res S) (s : S) (l : list A) (x : exn) :
  foldM f s l = Raise x → ∃ s1 a, a ∈ l ∧ f s1 a = Raise x.
Proof.
  revert s. induction l as [|a l IH]; intros s; simpl; [done|].
  destruct (f s a) as [s2|x'] eqn:Hf; simpl.
  - intros (s1 & b & Hb & H)%IH. exists s1, b. split; [set_solver|done].
  - intros [= ->]. exists s, a. split; [set_solver|done].
Qed.

(** [calculate_slacks] returns exactly when the two maps have the same
    keys; its only failure is the [KeyError] of a lookup. *)
Lemma calculate_slacks_Ok (e l slacks : gmap Z Z) :
  calculate_slacks e l = Ok slacks →
  dom e = dom l ∧
  ∀ v, slacks !! v = (le ← l !! v; ee ← e !! v; Some (le - ee)).
Proof.
  unfold calculate_slacks. intros H.
  apply (foldM_ind _ (λ done s,
           (∀ v, v ∈ done → is_Some (l !! v) ∧ is_Some (e !! v)) ∧
           (∀ v, s !! v = if decide (v ∈ done)
                          then (le ← l !! v; ee ← e !! v; Some (le - ee)) else None))) in H.
  - destruct H as [Hall Hs]. split.
    + apply set_eq. intros v. rewrite !elem_of_dom. split; intros Hv.
      * apply (Hall v). apply elem_of_elements, elem_of_union. left. by apply elem_of_dom.
      * apply (Hall v). apply elem_of_elements, elem_of_union. right. by apply elem_of_dom.
    + intros v. rewrite Hs. case_decide as Hin; [done|].
      rewrite elem_of_elements, elem_of_union, !elem_of_dom in Hin.
      destruct (l !! v) eqn:Hl; simpl; [|done].
      destruct (e !! v) eqn:He; simpl; [|done]. exfalso. apply Hin. eauto.
  - split; [intros v Hv; by apply not_elem_of_nil in Hv|].
    intros v. rewrite lookup_empty. case_decide as Hv; [by apply not_elem_of_nil in Hv|done].
  - intros done node s1 s2 _ [Hall Hs] Hstep.
    apply bind_Ok in Hstep as (lv & Hl & Hstep). apply bind_Ok in Hstep as (ev & He & [= <-]).
    apply dict_get_Ok in Hl, He. split.
    + intros v [Hv|Hv]%elem_of_app; [by apply Hall|].
      apply list_elem_of_singleton in Hv as ->. eauto.
    + intros v. rewrite lookup_insert. repeat case_decide; subst.
      * rewrite Hl, He. done.
      * exfalso. set_solver.
      * rewrite Hs. case_decide; [done|]. exfalso. set_solver.
      * rewrite Hs. case_decide; [|done]. exfalso. set_solver.
Qed.

Lemma calculate_slacks_Raise (e l : gmap Z Z) (x : exn) :
  calculate_slacks e l = Raise x → x = KeyError.
Proof.
  unfold calculate_slacks. intros (s1 & node & _ & H)%foldM_Raise.
  unfold dict_get in H. destruct (l !! node); simpl in H; [|congruence].
  destruct (e !! node); simpl in H; congruence.
Qed.

Lemma calculate_slacks_dom_ne (e l : gmap Z Z) :
  dom e ≠ dom l → calculate_slacks e l = Raise KeyError.
Proof.
  intros Hne. destruct (calculate_slacks e l) as [s|x] eqn:H.
  - apply calculate_slacks_Ok in H as [Hd _]. done.
  - apply calculate_slacks_Raise in H. by subst.
Qed.

(** C1 (what the code does on the running example).  The ranks, the
    earliest dates and the latest dates of the tasks and of the end vertex
    are the expected ones, but [latest] has no entry for the start vertex
    [0], and [calculate_slacks] raises [KeyError] instead of returning a
    slack map. *)
Theorem example_pipeline :
  assign_ranks 2 example_tasks = Some (Ok example_ranks) ∧
  compute_schedules example_tasks example_ranks = Ok (example_earliest, example_latest) ∧
  example_latest !! 0 = None ∧
  calculate_slacks example_earliest example_latest = Raise KeyError.
Proof. repeat split; vm_compute; reflexivity. Qed.

(** C2 (what the code does).  For a TaskSet without a task of id [0], the
    maps returned by [compute_schedules] on the ranks of [assign_ranks]
    never have the same keys: [calculate_slacks] looks up [latest[0]], which
    is out of domain, and raises [KeyError]. *)
Theorem calculate_slacks_raises (tasks : list task) (fuel : nat) (ranks e l : gmap Z Z) :
  0 ∉ task_ids tasks →
  assign_ranks fuel tasks = Some (Ok ranks) →
  compute_schedules tasks ranks = Ok (e, l) →
  0 ∈ dom e ∧ (0 ∉ dom l) ∧ calculate_slacks e l = Raise KeyError.
Proof.
  intros H0 Hr Hs.
  destruct (compute_schedules_alpha tasks ranks e l (omega_of tasks)) as [Hl He];
    [done | by eapply assign_ranks_max_key | pose proof (omega_of_pos tasks); lia | done |].
  assert (0 ∈ dom e) by (by apply elem_of_dom_2 in He).
  assert (0 ∉ dom l) by (by apply not_elem_of_dom).
  split; [done|]. split; [done|].
  apply calculate_slacks_dom_ne. intros Heq. congruence.
Qed.

Lemma calculate_slacks_raises_witness :
  (0 ∉ task_ids example_tasks) ∧
  assign_ranks 2 example_tasks = Some (Ok example_ranks) ∧
  compute_schedules example_tasks example_ranks = Ok (example_earliest, example_latest) ∧
  0 ∈ dom example_earliest ∧ (0 ∉ dom example_latest) ∧
  calculate_slacks example_earliest example_latest = Raise KeyError.
Proof.
  assert (H0 : 0 ∉ task_ids example_tasks).
  { apply (bool_decide_unpack _). vm_compute. exact I. }
  assert (Hr : assign_ranks 2 example_tasks = Some (Ok example_ranks)).
  { vm_compute. reflexivity. }
  assert (Hs : compute_schedules example_tasks example_ranks
               = Ok (example_earliest, example_latest)).
  { vm_compute. reflexivity. }
  split; [exact H0|]. split; [exact Hr|]. split; [exact Hs|].
  exact (calculate_slacks_raises example_tasks 2 example_ranks _ _ H0 Hr Hs).
Defined.

(** C3. For a TaskSet with at least one task and no task of id [0], the
    latest-date map returned by [compute_schedules] (on the rank map of
    [assign_ranks]) has no entry for the start vertex [0], while the
    earliest-date map has one (with date [0]). *)
Theorem latest_has_no_alpha (tasks : list task) (fuel : nat) (ranks e l : gmap Z Z) :
  tasks ≠ [] →
  0 ∉ task_ids tasks →
  assign_ranks fuel tasks = Some (Ok ranks) →
  compute_schedules tasks ranks = Ok (e, l) →
  l !! 0 = None ∧ e !! 0 = Some 0.
Proof.
  intros _ H0 Hr Hs.
  apply (compute_schedules_alpha tasks ranks e l (omega_of tasks));
    [done | by eapply assign_ranks_max_key | pose proof (omega_of_pos tasks); lia | done].
Qed.

Lemma latest_has_no_alpha_witness :
  example_tasks ≠ [] ∧ (0 ∉ task_ids example_tasks) ∧
  assign_ranks 2 example_tasks = Some (Ok example_ranks) ∧
  compute_schedules example_tasks example_ranks = Ok (example_earliest, example_latest) ∧
  example_latest !! 0 = None ∧ example_earliest !! 0 = Some 0.
Proof.
  assert (Hne : example_tasks ≠ []) by discriminate.
  assert (H0 : 0 ∉ task_ids example_tasks).
  { apply (bool_decide_unpack _). vm_compute. exact I. }
  assert (Hr : assign_ranks 2 example_tasks = Some (Ok example_ranks)).
  { vm_compute. reflexivity. }
  assert (Hs : compute_schedules example_tasks example_ranks
               = Ok (example_earliest, example_latest)).
  { vm_compute. reflexivity. }
  split; [exact Hne|]. split; [exact H0|]. split; [exact Hr|]. split; [exact Hs|].
  exact (latest_has_no_alpha example_tasks 2 example_ranks _ _ Hne H0 Hr Hs).
Defined.

(** ** GraphBuilder: the adjacency matrix *)

Lemma py_index_in_range {A : Type} (l : list A) (i : Z) :
  0 ≤ i < Z.of_nat (length l) → py_index l i = Ok (Z.to_nat i).
Proof. intros H. unfold py_index. by rewrite bool_decide_eq_true_2. Qed.

Lemma matrix_set_Ok (matrix matrix' : list (list cell)) (i j : Z) (v : cell) :
  matrix_set matrix i j v = Ok matrix' →
  ∃ (a b : nat) (row : list cell),
    py_index matrix i = Ok a ∧ matrix !! a = Some row ∧ py_index row j = Ok b ∧
    matrix' = <[a := <[b := v]> row]> matrix.
Proof.
  unfold matrix_set, py_getitem, py_setitem. intros H.
  apply bind_Ok in H as (row & Hrow & H).
  apply bind_Ok in Hrow as (a & Ha & Hrow).
  destruct (matrix !! a) as [row'|] eqn:Hl; [|done]. injection Hrow as ->.
  apply bind_Ok in H as (row2 & Hrow2 & H).
  apply bind_Ok in Hrow2 as (b & Hb & [= <-]).
  apply bind_Ok in H as (a' & Ha' & [= <-]).
  rewrite Ha in Ha'. injection Ha' as <-. eauto 10.
Qed.

Lemma matrix_set_square (n : nat) (matrix matrix' : list (list cell)) (i j : Z) (v : cell) :
  matrix_set matrix i j v = Ok matrix' → square n matrix → square n matrix'.
Proof.
  intros (a & b & row & Ha & Hrow & Hb & ->)%matrix_set_Ok [Hlen Hrows].
  split; [by rewrite length_insert|].
  apply Forall_insert; [done|]. rewrite length_insert.
  by eapply Forall_lookup_1 in Hrows.
Qed.

Lemma matrix_set_in_range (n : nat) (matrix : list (list cell)) (i j : Z) (v : cell) :
  square n matrix → 0 ≤ i < Z.of_nat n → 0 ≤ j < Z.of_nat n →
  ∃ row, matrix !! Z.to_nat i = Some row ∧
    matrix_set matrix i j v = Ok (<[Z.to_nat i := <[Z.to_nat j := v]> row]> matrix).
Proof.
  intros [Hlen Hrows] Hi Hj.
  destruct (lookup_lt_is_Some_2 matrix (Z.to_nat i)) as [row Hrow]; [lia|].
  exists row. split; [done|].
  assert (length row = n) by (by eapply Forall_lookup_1 in Hrows).
  unfold matrix_set, py_getitem, py_setitem.
  rewrite py_index_in_range by lia. simpl. rewrite Hrow. simpl.
  rewrite py_index_in_range by lia. simpl. done.
Qed.

Lemma place_arcs_square (n : nat) (tasks : list task) (matrix matrix' : list (list cell)) (t : task) :
  place_arcs tasks matrix t = Ok matrix' → square n matrix → square n matrix'.
Proof.
  destruct t as [[t_id dur] preds]. unfold place_arcs.
  destruct preds as [|p preds]; [apply matrix_set_square|].
  intros H Hsq.
  apply (foldM_ind _ (λ _ m, square n m)) in H; [done|done|].
  intros _ q m1 m2 _ Hm1 Hstep.
  destruct (pred_duration q tasks); [by eapply matrix_set_square | by injection Hstep as <-].
Qed.

Lemma replicate_square (n : nat) : square n (replicate n (replicate n Star)).
Proof.
  split; [by rewrite length_replicate|].
  apply Forall_replicate. by rewrite length_replicate.
Qed.

(** A built matrix is square, of side [len(tasks) + 2]. *)
Lemma build_adjacency_matrix_square (tasks : list task) (matrix : list (list cell)) :
  build_adjacency_matrix tasks = Ok matrix → square (length tasks + 2) matrix.
Proof.
  unfold build_adjacency_matrix. intros H.
  apply bind_Ok in H as (m1 & H1 & H2).
  apply (foldM_ind _ (λ _ m, square (length tasks + 2) m)) in H1.
  - apply (foldM_ind _ (λ _ m, square (length tasks + 2) m)) in H2; [done|done|].
    intros _ [[t_id dur] preds] ma mb _ Hma Hstep.
    case_bool_decide; [by eapply matrix_set_square | by injection Hstep as <-].
  - apply replicate_square.
  - intros _ t ma mb _ Hma Hstep. by eapply place_arcs_square.
Qed.

Lemma pred_duration_Some (p d : Z) (tasks : list task) :
  pred_duration p tasks = Some d → p ∈ task_ids tasks.
Proof.
  unfold pred_duration. destruct (List.find _ tasks) as [t|] eqn:Hf; [|done].
  intros _. apply find_some in Hf as [Hin Hp].
  apply bool_decide_eq_true_1 in Hp as <-.
  unfold task_ids. apply list_elem_of_fmap_2. by apply list_elem_of_In.
Qed.

Lemma matrix_set_untouched (tasks : list task) (matrix : list (list cell)) (i j : Z) (v : cell) :
  untouched_rows tasks matrix →
  i = 0 ∨ i ∈ task_ids tasks →
  0 ≤ i < Z.of_nat (length tasks + 2) → 0 ≤ j < Z.of_nat (length tasks + 2) →
  ∃ matrix', matrix_set matrix i j v = Ok matrix' ∧ untouched_rows tasks matrix'.
Proof.
  intros [Hsq Hrows] Hi Hri Hrj.
  destruct (matrix_set_in_range _ matrix i j v Hsq Hri Hrj) as (row & Hrow & Hset).
  eexists. split; [exact Hset|]. split; [by eapply matrix_set_square|].
  intros k Hk Hnot row' Hrow'.
  rewrite list_lookup_insert_ne in Hrow'; [by eapply Hrows|].
  intros <-. destruct Hi as [->|Hi]; [lia|].
  apply Hnot. by rewrite Z2Nat.id by lia.
Qed.

Lemma dense_ids_range (tasks : list task) (i : Z) :
  dense_ids tasks → i ∈ task_ids tasks → 1 ≤ i ≤ Z.of_nat (length tasks).
Proof.
  intros Hd (t & -> & Ht)%list_elem_of_fmap.
  by eapply Forall_forall in Hd.
Qed.

Lemma place_arcs_untouched (tasks : list task) (matrix : list (list cell)) (t : task) :
  dense_ids tasks → t ∈ tasks → untouched_rows tasks matrix →
  ∃ matrix', place_arcs tasks matrix t = Ok matrix' ∧ untouched_rows tasks matrix'.
Proof.
  intros Hd Ht Hinv. destruct t as [[t_id dur] preds].
  assert (Hid : 1 ≤ t_id ≤ Z.of_nat (length tasks)).
  { apply (dense_ids_range tasks); [done|].
    unfold task_ids. by apply (list_elem_of_fmap_2 task_id) in Ht. }
  unfold place_arcs. destruct preds as [|p preds].
  - apply matrix_set_untouched; [done | by left | lia | lia].
  - apply (foldM_total _ (untouched_rows tasks)); [done|].
    intros q m1 _ Hm1. destruct (pred_duration q tasks) as [d|] eqn:Hq; [|eauto].
    apply pred_duration_Some in Hq. pose proof (dense_ids_range _ _ Hd Hq).
    apply matrix_set_untouched; [done | by right | lia | lia].
Qed.

(** For dense ids the construction never raises, whatever the predecessor
    lists are, and it leaves the rows of non-task vertices empty. *)
Lemma build_adjacency_matrix_dense (tasks : list task) :
  dense_ids tasks →
  ∃ matrix, build_adjacency_matrix tasks = Ok matrix ∧ untouched_rows tasks matrix.
Proof.
  intros Hd. unfold build_adjacency_matrix.
  destruct (foldM_total (place_arcs tasks) (untouched_rows tasks) tasks
              (replicate (length tasks + 2) (replicate (length tasks + 2) Star)))
    as (m1 & -> & Hm1).
  - split; [apply replicate_square|].
    intros i _ _ row Hrow. apply lookup_replicate in Hrow as [-> _]. done.
  - intros t m Ht Hm. by apply place_arcs_untouched.
  - simpl. apply (foldM_total _ (untouched_rows tasks)); [done|].
    intros [[t_id dur] preds] m Ht Hm. case_bool_decide; [|eauto].
    assert (Hid : t_id ∈ task_ids tasks).
    { unfold task_ids. by apply (list_elem_of_fmap_2 task_id) in Ht. }
    pose proof (dense_ids_range _ _ Hd Hid).
    apply matrix_set_untouched; [done | by right | lia | unfold matrix_omega; lia].
Qed.

(** C4 (counterexample).  Task 1 names predecessor 7, which is no task of
    the TaskSet; [build_adjacency_matrix] raises nothing and returns a matrix
    whose only arc is [1 -> omega]. *)
Lemma unresolved_predecessor_not_reported :
  7 ∈ task_preds (1, 3, [7]) ∧ (1, 3, [7]) ∈ unresolved_tasks ∧
  (7 ∉ task_ids unresolved_tasks) ∧
  build_adjacency_matrix unresolved_tasks
  = Ok [[Star; Star; Star]; [Star; Star; W 3]; [Star; Star; Star]].
Proof.
  split; [apply (bool_decide_unpack _); vm_compute; exact I|].
  split; [apply (bool_decide_unpack _); vm_compute; exact I|].
  split; [apply (bool_decide_unpack _); vm_compute; exact I|].
  vm_compute. reflexivity.
Qed.

(** C4 (amended).  For every TaskSet whose task ids lie in [1 .. |tasks|],
    whether or not its predecessor ids resolve, [build_adjacency_matrix]
    raises no error and returns a matrix; no arc leaves a row [p > 0] that is
    not a task id, so the arc of an absent predecessor is silently dropped. *)
Theorem unresolved_predecessor_dropped (tasks : list task) :
  dense_ids tasks →
  ∃ matrix, build_adjacency_matrix tasks = Ok matrix ∧
    ∀ (p : Z) (j : nat), 0 < p → p ∉ task_ids tasks →
      has_arc matrix (Z.to_nat p) j = false.
Proof.
  intros Hd. destruct (build_adjacency_matrix_dense tasks Hd) as (matrix & Hb & Hsq & Hrows).
  exists matrix. split; [done|]. intros p j Hp Hnot.
  unfold has_arc. destruct (matrix !! Z.to_nat p) as [row|] eqn:Hrow; [|done].
  apply Hrows in Hrow; [|lia|by rewrite Z2Nat.id by lia].
  subst row. destruct (replicate _ Star !! j) as [c|] eqn:Hc; [|done].
  apply lookup_replicate in Hc as [-> _]. done.
Qed.

Lemma unresolved_predecessor_dropped_witness :
  dense_ids unresolved_tasks ∧
  ∃ matrix, build_adjacency_matrix unresolved_tasks = Ok matrix ∧
    ∀ (p : Z) (j : nat), 0 < p → p ∉ task_ids unresolved_tasks →
      has_arc matrix (Z.to_nat p) j = false.
Proof.
  assert (Hd : dense_ids unresolved_tasks).
  { apply (bool_decide_unpack _). vm_compute. exact I. }
  split; [exact Hd|]. exact (unresolved_predecessor_dropped unresolved_tasks Hd).
Defined.

(** ** The end vertex in the three components *)




(** ** RankAssigner: one loop body, one pass *)

Lemma rank_of_lookup (ranks : gmap Z Z) (v r : Z) :
  ranks !! v = Some r → rank_of ranks v = r.
Proof. unfold rank_of. by intros ->. Qed.

Lemma lookup_rank_of (ranks : gmap Z Z) (v : Z) :
  v ∈ dom ranks → ranks !! v = Some (rank_of ranks v).
Proof. intros [r Hr]%elem_of_dom. by rewrite (rank_of_lookup _ _ _ Hr). Qed.

Lemma rank_of_insert (ranks : gmap Z Z) (k v x : Z) :
  rank_of (<[k := x]> ranks) v = if decide (k = v) then x else rank_of ranks v.
Proof. unfold rank_of. rewrite lookup_insert. by case_decide. Qed.

Lemma mapR_dict_get (ranks : gmap Z Z) (keys : list Z) (vals : list Z) :
  mapR (dict_get ranks) keys = Ok vals →
  Forall2 (λ k v, k ∈ dom ranks ∧ rank_of ranks k = v) keys vals.
Proof.
  intros H%mapR_Ok. eapply Forall2_impl; [exact H|].
  intros k v Hk%dict_get_Ok. split; [by eapply elem_of_dom_2 | by apply rank_of_lookup].
Qed.

(** The loop body, when it does not raise, acts as [relaxed] says. *)
Lemma relax_task_relaxed (ranks ranks' : gmap Z Z) (c c' : bool) (t : task) :
  relax_task (ranks, c) t = Ok (ranks', c') →
  ∃ b, relaxed ranks t ranks' b ∧ c' = c || b.
Proof.
  destruct t as [[t_id dur] preds]. unfold relax_task. destruct preds as [|p0 preds].
  - case_bool_decide as Hid.
    + intros H. apply bind_Ok in H as (r & Hr & H).
      apply dict_get_Ok, rank_of_lookup in Hr. case_bool_decide as Hr0.
      * injection H as <- <-. exists true. split; [|by rewrite orb_true_r].
        apply (relaxed_root ranks (t_id, dur, [])); [done|done|].
        unfold task_id. simpl. lia.
      * injection H as <- <-. exists false. split; [|by rewrite orb_false_r].
        apply relaxed_keep. split; [intros q Hq; by apply not_elem_of_nil in Hq|].
        intros _. right. unfold task_id. simpl. lia.
    + intros [= <- <-]. exists false. split; [|by rewrite orb_false_r].
      apply relaxed_keep. split; [intros q Hq; by apply not_elem_of_nil in Hq|].
      intros _. left. simpl. by destruct (decide (t_id = 0)).
  - intros H. apply bind_Ok in H as (prs & Hprs & H).
    apply bind_Ok in H as (m & Hm & H). apply bind_Ok in H as (r & Hr & H).
    apply dict_get_Ok, rank_of_lookup in Hr.
    apply mapR_dict_get in Hprs. apply py_max_Ok in Hm as [Hin Hle].
    assert (Hmax : ∃ p, p ∈ p0 :: preds ∧ rank_of ranks p = m).
    { apply list_elem_of_lookup in Hin as [i Hi].
      destruct (Forall2_lookup_r _ _ _ _ _ Hprs Hi) as (p & Hp & _ & Hpr).
      exists p. split; [by eapply list_elem_of_lookup_2 | done]. }
    assert (Hall : ∀ q, q ∈ p0 :: preds → rank_of ranks q ≤ m).
    { intros q [i Hi]%list_elem_of_lookup.
      destruct (Forall2_lookup_l _ _ _ _ _ Hprs Hi) as (x & Hx & _ & Hqx).
      rewrite Hqx. apply Hle. by eapply list_elem_of_lookup_2. }
    destruct Hmax as (p & Hp & Hpm). case_bool_decide as Hgt.
    + injection H as <- <-. exists true. split; [|by rewrite orb_true_r].
      rewrite <- Hpm.
      apply (relaxed_pred ranks (t_id, dur, p0 :: preds) p);
        unfold task_id, task_preds; simpl; [done| |lia].
      intros q Hq. rewrite Hpm. by apply Hall.
    + injection H as <- <-. exists false. split; [|by rewrite orb_false_r].
      apply relaxed_keep. split; [|done].
      intros q Hq. unfold task_id, task_preds in *. simpl in *.
      specialize (Hall q Hq). lia.
Qed.

(** The loop body does not raise when the keys it reads are in the dict. *)
Lemma relax_task_total (ranks : gmap Z Z) (c : bool) (t : task) :
  task_id t ∈ dom ranks →
  (∀ p, p ∈ task_preds t → p ∈ dom ranks) →
  ∃ ranks' c', relax_task (ranks, c) t = Ok (ranks', c').
Proof.
  destruct t as [[t_id dur] preds]. unfold task_id, task_preds. simpl.
  intros Hid Hpreds. unfold relax_task.
  apply lookup_rank_of, dict_get_Ok in Hid. destruct preds as [|p0 preds].
  - case_bool_decide; [|eauto]. rewrite Hid. simpl. case_bool_decide; eauto.
  - destruct (mapR_total (dict_get ranks) (p0 :: preds)) as [prs Hprs].
    { intros p Hp. exists (rank_of ranks p). by apply dict_get_Ok, lookup_rank_of, Hpreds. }
    rewrite Hprs. simpl.
    destruct (py_max_total prs) as [m Hm].
    { intros ->. apply mapR_Ok in Hprs. inversion Hprs. }
    rewrite Hm. simpl. rewrite Hid. simpl. case_bool_decide; eauto.
Qed.

Lemma omega_rank_spec (omega : Z) (ranks : gmap Z Z) (m : Z) :
  omega_rank omega ranks = Ok m ↔ is_omega_rank omega ranks m.
Proof.
  unfold omega_rank, is_omega_rank.
  set (l := (filter (λ kv : Z * Z, kv.1 ≠ omega) (map_to_list ranks)).*2).
  assert (Hl : ∀ x, x ∈ l ↔ ∃ v, v ∈ dom ranks ∧ v ≠ omega ∧ x = rank_of ranks v).
  { intros x. unfold l. rewrite list_elem_of_fmap. split.
    - intros ([k v] & -> & [Hne Hkv%elem_of_map_to_list]%list_elem_of_filter).
      exists k. simpl in *. split; [by eapply elem_of_dom_2|].
      split; [done | by rewrite (rank_of_lookup _ _ _ Hkv)].
    - intros (v & Hv & Hne & ->). exists (v, rank_of ranks v). split; [done|].
      apply list_elem_of_filter. split; [done|].
      by apply elem_of_map_to_list, lookup_rank_of. }
  split.
  - intros H. apply bind_Ok in H as (mx & Hmx & [= <-]).
    apply py_max_Ok in Hmx as [Hin Hle]. split.
    + apply Hl in Hin as (v & ? & ? & ->). eauto.
    + intros v Hv Hne. assert (rank_of ranks v ≤ mx); [|lia].
      apply Hle, Hl. eauto.
  - intros [(v & Hv & Hne & ->) Hle].
    destruct (py_max_total l) as [mx Hmx].
    { intros Hnil. assert (Hin : rank_of ranks v ∈ l) by (apply Hl; eauto).
      rewrite Hnil in Hin. by apply not_elem_of_nil in Hin. }
    rewrite Hmx. simpl. f_equal.
    apply py_max_Ok in Hmx as [Hin Hle'].
    apply Hl in Hin as (w & Hw & Hwne & ->).
    specialize (Hle w Hw Hwne).
    assert (rank_of ranks v ≤ rank_of ranks w); [|lia].
    apply Hle', Hl. eauto.
Qed.

Lemma is_omega_rank_unique (omega : Z) (ranks : gmap Z Z) (m1 m2 : Z) :
  is_omega_rank omega ranks m1 → is_omega_rank omega ranks m2 → m1 = m2.
Proof.
  intros [(v1 & Hv1 & Hn1 & ->) Hle1] [(v2 & Hv2 & Hn2 & ->) Hle2].
  specialize (Hle1 v2 Hv2 Hn2). specialize (Hle2 v1 Hv1 Hn1). lia.
Qed.

(** Writing the [omega] entry does not change the value of [omega_rank]. *)
Lemma is_omega_rank_insert (omega : Z) (ranks : gmap Z Z) (x m : Z) :
  omega ∈ dom ranks →
  is_omega_rank omega ranks m → is_omega_rank omega (<[omega := x]> ranks) m.
Proof.
  intros Hdom [(v & Hv & Hne & ->) Hle]. split.
  - exists v. rewrite dom_insert_L, rank_of_insert. case_decide; [done|].
    split; [set_solver|done].
  - intros w Hw Hwne. rewrite rank_of_insert. case_decide; [done|].
    apply Hle; [|done]. rewrite dom_insert_L in Hw. set_solver.
Qed.

(** When the [for] loop leaves [changed] false, nothing was written and
    every record is stable. *)
Lemma relax_tasks_unchanged (tasks : list task) (ranks ranks' : gmap Z Z) :
  foldM relax_task (ranks, false) tasks = Ok (ranks', false) →
  ranks' = ranks ∧ ∀ t, t ∈ tasks → stable ranks t.
Proof.
  intros H.
  apply (foldM_ind _ (λ done st, st.2 = false →
           st.1 = ranks ∧ ∀ t, t ∈ done → stable ranks t)) in H.
  - done.
  - intros _. split; [done|]. intros t Ht. by apply not_elem_of_nil in Ht.
  - intros done t [r1 c1] [r2 c2] _ IH Hstep. simpl in *. intros ->.
    apply relax_task_relaxed in Hstep as (b & Hrel & Hc).
    symmetry in Hc. apply orb_false_elim in Hc as [-> ->].
    destruct (IH eq_refl) as [-> Hst]. inversion Hrel; subst. split; [done|].
    intros t' [Ht'|Ht']%elem_of_app; [by apply Hst|].
    by apply list_elem_of_singleton in Ht' as ->.
  - done.
Qed.

(** A pass that reports no change is a fixpoint: every record is stable and
    the [omega] entry is one more than the largest other rank. *)
Lemma relax_pass_fixpoint (tasks : list task) (omega : Z) (ranks ranks' : gmap Z Z) :
  relax_pass tasks omega ranks = Ok (ranks', false) →
  ranks' = ranks ∧ (∀ t, t ∈ tasks → stable ranks t) ∧
  omega ∈ dom ranks ∧ is_omega_rank omega ranks (rank_of ranks omega).
Proof.
  unfold relax_pass. intros H.
  apply bind_Ok in H as ([r1 c1] & Hfold & H).
  apply bind_Ok in H as (cur & Hcur & H). apply bind_Ok in H as (r & Hr & H).
  apply dict_get_Ok in Hr. case_bool_decide as Hne; [done|].
  injection H as <- ->.
  apply relax_tasks_unchanged in Hfold as [-> Hst].
  split; [done|]. split; [done|]. split; [by eapply elem_of_dom_2|].
  apply omega_rank_spec. rewrite (rank_of_lookup _ _ _ Hr).
  by rewrite <- Hne.
Qed.

(** Invariant rule for the [while] loop: what every pass preserves holds of
    the returned dict, which is the fixpoint of a last pass. *)
Lemma relax_loop_inv (P : gmap Z Z → Prop) (fuel : nat) (tasks : list task)
    (omega : Z) (ranks ranks' : gmap Z Z) :
  (∀ r r' c, P r → relax_pass tasks omega r = Ok (r', c) → P r') →
  P ranks →
  relax_loop fuel tasks omega ranks = Some (Ok ranks') →
  P ranks' ∧ relax_pass tasks omega ranks' = Ok (ranks', false).
Proof.
  intros Hpres. revert ranks. induction fuel as [|fuel IH]; intros ranks HP; simpl; [done|].
  destruct (relax_pass tasks omega ranks) as [[r1 [|]]|e] eqn:Hpass; [| |done].
  - apply IH. by eapply Hpres.
  - intros [= <-]. split; [by eapply Hpres|].
    destruct (relax_pass_fixpoint _ _ _ _ Hpass) as [-> _]. done.
Qed.

Lemma relax_loop_fuel_mono (fuel fuel' : nat) (tasks : list task) (omega : Z)
    (ranks : gmap Z Z) (out : res (gmap Z Z)) :
  relax_loop fuel tasks omega ranks = Some out → (fuel ≤ fuel')%nat →
  relax_loop fuel' tasks omega ranks = Some out.
Proof.
  revert fuel' ranks. induction fuel as [|fuel IH]; intros fuel' ranks; simpl; [done|].
  intros H Hle. destruct fuel' as [|fuel']; [lia|]. simpl.
  destruct (relax_pass tasks omega ranks) as [[r1 [|]]|e]; [|done|done].
  apply IH; [done|lia].
Qed.

(** ** RankAssigner: what holds along every run *)

Lemma relaxed_other (ranks ranks' : gmap Z Z) (t : task) (b : bool) (v : Z) :
  relaxed ranks t ranks' b → v ≠ task_id t → rank_of ranks' v = rank_of ranks v.
Proof.
  intros Hrel Hne. inversion Hrel; subst; [done| |];
    rewrite rank_of_insert; by case_decide.
Qed.

Lemma relaxed_mono (ranks ranks' : gmap Z Z) (t : task) (b : bool) (v : Z) :
  relaxed ranks t ranks' b → rank_of ranks v ≤ rank_of ranks' v.
Proof.
  intros Hrel. inversion Hrel; subst; [done| |];
    rewrite rank_of_insert; case_decide; subst; lia.
Qed.

Lemma relaxed_nonneg (ranks ranks' : gmap Z Z) (t : task) (b : bool) :
  relaxed ranks t ranks' b → (∀ v, 0 ≤ rank_of ranks v) → ∀ v, 0 ≤ rank_of ranks' v.
Proof.
  intros Hrel Hnn v. etrans; [apply Hnn|]. by eapply relaxed_mono.
Qed.

Lemma task_id_elem (tasks : list task) (t : task) :
  t ∈ tasks → task_id t ∈ task_ids tasks.
Proof. intros Ht. unfold task_ids. by apply list_elem_of_fmap_2. Qed.

Lemma relax_tasks_inv (tasks : list task) (P : gmap Z Z → Prop)
    (ranks ranks' : gmap Z Z) (c c' : bool) :
  (∀ r r' t b, t ∈ tasks → P r → relaxed r t r' b → P r') →
  P ranks → foldM relax_task (ranks, c) tasks = Ok (ranks', c') → P ranks'.
Proof.
  intros Hstep HP H.
  apply (foldM_ind _ (λ _ st, P st.1)) in H; [done|done|].
  intros _ t [r1 c1] [r2 c2] Ht HP1 Hrun. simpl in *.
  apply relax_task_relaxed in Hrun as (b & Hrel & _). by eapply Hstep.
Qed.

Lemma relax_pass_ranks_ok (tasks : list task) (ranks ranks' : gmap Z Z) (c : bool) :
  ranks_ok tasks ranks →
  relax_pass tasks (omega_of tasks) ranks = Ok (ranks', c) →
  ranks_ok tasks ranks'.
Proof.
  intros (Hdom & Hnn & H0) Hpass.
  split; [by rewrite (relax_pass_dom _ _ _ _ _ Hpass)|].
  unfold relax_pass in Hpass.
  apply bind_Ok in Hpass as ([r1 c1] & Hfold & H).
  apply bind_Ok in H as (cur & Hcur & H). apply bind_Ok in H as (r & Hr & H).
  apply omega_rank_spec in Hcur as [(w & _ & _ & ->) _].
  assert (H1 : (∀ v, 0 ≤ rank_of r1 v) ∧ (0 ∉ task_ids tasks → rank_of r1 0 = 0)).
  { apply (relax_tasks_inv tasks
             (λ r, (∀ v, 0 ≤ rank_of r v) ∧ (0 ∉ task_ids tasks → rank_of r 0 = 0)))
      in Hfold; [done| |done].
    intros ra rb t b Ht [Hnna H0a] Hrel. split; [by eapply relaxed_nonneg|].
    intros Hnot. rewrite (relaxed_other _ _ _ _ _ Hrel); [by apply H0a|].
    intros Heq. apply Hnot. rewrite Heq. by apply task_id_elem. }
  destruct H1 as [Hnn1 H01].
  case_bool_decide; injection H as <- _; [|done]. split.
  - intros v. rewrite rank_of_insert. case_decide; [|done]. specialize (Hnn1 w). lia.
  - intros Hnot. rewrite rank_of_insert. case_decide as Heq; [|by apply H01].
    pose proof (omega_of_pos tasks). lia.
Qed.

Lemma init_ranks_ok (tasks : list task) :
  ranks_ok tasks (<[omega_of tasks := 0]> (init_ranks tasks)).
Proof.
  assert (Hz : ∀ v, rank_of (<[omega_of tasks := 0]> (init_ranks tasks)) v = 0).
  { intros v. rewrite rank_of_insert. case_decide; [done|].
    unfold rank_of. destruct (init_ranks tasks !! v) eqn:Hv; [|done].
    by apply init_ranks_lookup in Hv. }
  split; [rewrite dom_insert_L, init_ranks_dom; set_solver|].
  split; [intros v; by rewrite Hz | by rewrite Hz].
Qed.

(** The keys a successful pass has read. *)
Lemma relax_task_reads (ranks ranks' : gmap Z Z) (c c' : bool) (t : task) :
  relax_task (ranks, c) t = Ok (ranks', c') →
  ∀ p, p ∈ task_preds t → p ∈ dom ranks.
Proof.
  destruct t as [[t_id dur] preds]. unfold relax_task, task_preds. simpl.
  destruct preds as [|p0 preds]; [intros _ p Hp; by apply not_elem_of_nil in Hp|].
  intros H. apply bind_Ok in H as (prs & Hprs & _). apply mapR_dict_get in Hprs.
  intros p [i Hi]%list_elem_of_lookup.
  by destruct (Forall2_lookup_l _ _ _ _ _ Hprs Hi) as (x & _ & ? & _).
Qed.

Lemma relax_pass_reads (tasks : list task) (omega : Z) (ranks ranks' : gmap Z Z) (c : bool) :
  relax_pass tasks omega ranks = Ok (ranks', c) →
  ∀ t p, t ∈ tasks → p ∈ task_preds t → p ∈ dom ranks.
Proof.
  unfold relax_pass. intros H.
  apply bind_Ok in H as ([r1 c1] & Hfold & _).
  apply (foldM_ind _ (λ done st, dom st.1 = dom ranks ∧
           ∀ t p, t ∈ done → p ∈ task_preds t → p ∈ dom ranks)) in Hfold.
  - by apply Hfold.
  - split; [done|]. intros t p Ht. by apply not_elem_of_nil in Ht.
  - intros done t [ra ca] [rb cb] _ [Hd IH] Hstep. simpl in *. split.
    + rewrite <- Hd. by eapply relax_task_dom.
    + intros t' p [Ht'|Ht']%elem_of_app; [by apply IH|].
      apply list_elem_of_singleton in Ht' as ->. rewrite <- Hd.
      by eapply relax_task_reads.
Qed.

(** What [assign_ranks] returns is a fixpoint of the pass. *)
Lemma assign_ranks_fixpoint (fuel : nat) (tasks : list task) (ranks : gmap Z Z) :
  assign_ranks fuel tasks = Some (Ok ranks) →
  ranks_ok tasks ranks ∧
  relax_pass tasks (omega_of tasks) ranks = Ok (ranks, false).
Proof.
  unfold assign_ranks. rewrite rank_omega_eq. intros H.
  apply (relax_loop_inv (ranks_ok tasks)) in H; [done| |apply init_ranks_ok].
  intros r r' c Hr Hpass. by eapply relax_pass_ranks_ok.
Qed.

Section fixpoint.
Variables (tasks : list task) (ranks : gmap Z Z).
Hypothesis Hok : ranks_ok tasks ranks.
Hypothesis Hfix : relax_pass tasks (omega_of tasks) ranks = Ok (ranks, false).

Lemma fixpoint_stable (t : task) : t ∈ tasks → stable ranks t.
Proof. intros Ht. by apply (relax_pass_fixpoint _ _ _ _ Hfix). Qed.

Lemma fixpoint_omega (v : Z) :
  v ∈ dom ranks → v ≠ omega_of tasks →
  rank_of ranks v + 1 ≤ rank_of ranks (omega_of tasks).
Proof.
  intros Hv Hne.
  destruct (relax_pass_fixpoint _ _ _ _ Hfix) as (_ & _ & _ & [_ Hle]). by apply Hle.
Qed.

Lemma fixpoint_dom (v : Z) :
  v ∈ dom ranks ↔ v = 0 ∨ v ∈ task_ids tasks ∨ v = omega_of tasks.
Proof. destruct Hok as [-> _]. set_solver. Qed.

Lemma fixpoint_pred (t : task) (p : Z) :
  t ∈ tasks → p ∈ task_preds t →
  p ∈ dom ranks ∧ rank_of ranks p + 1 ≤ rank_of ranks (task_id t).
Proof.
  intros Ht Hp. split; [by eapply (relax_pass_reads _ _ _ _ _ Hfix)|].
  by apply (fixpoint_stable t Ht).
Qed.

(** A predecessor in a fixpoint is the start vertex or a task: the end
    vertex ranks above every task. *)
Lemma fixpoint_pred_cases (t : task) (p : Z) :
  t ∈ tasks → p ∈ task_preds t → p = 0 ∨ p ∈ task_ids tasks.
Proof.
  intros Ht Hp. destruct (fixpoint_pred t p Ht Hp) as [Hdom Hle].
  apply fixpoint_dom in Hdom as [?|[?|Heq]]; [by left|by right|]. subst p.
  assert (Hid : task_id t ∈ task_ids tasks) by (by apply task_id_elem).
  pose proof (omega_of_gt _ _ Hid).
  assert (rank_of ranks (task_id t) + 1 ≤ rank_of ranks (omega_of tasks)); [|lia].
  apply fixpoint_omega; [|lia]. apply fixpoint_dom. auto.
Qed.

(** Every task is reachable from the start vertex. *)
Lemma fixpoint_reach (n : nat) (t : task) :
  t ∈ tasks → rank_of ranks (task_id t) < Z.of_nat n → tc (edge tasks) 0 (task_id t).
Proof.
  revert t. induction n as [|n IH]; intros t Ht Hlt.
  { destruct Hok as (_ & Hnn & _). specialize (Hnn (task_id t)). lia. }
  destruct t as [[t_id dur] preds]. destruct preds as [|p preds].
  { apply tc_once. by eapply edge_alpha. }
  assert (Hp : p ∈ task_preds (t_id, dur, p :: preds)) by (simpl; set_solver).
  assert (He : edge tasks p t_id) by (eapply edge_pred; [done | set_solver]).
  destruct (fixpoint_pred _ _ Ht Hp) as [_ Hle].
  destruct (fixpoint_pred_cases _ _ Ht Hp) as [->|Hid]; [by apply tc_once|].
  apply list_elem_of_fmap in Hid as (t' & -> & Ht').
  eapply tc_r; [|exact He]. apply IH; [done|]. unfold task_id in *. simpl in *. lia.
Qed.

(** Ranks strictly increase along every edge, provided no task has the
    id of the start vertex. *)
Lemma fixpoint_monotone (u v : Z) :
  0 ∉ task_ids tasks → edge tasks u v → rank_lt ranks u v.
Proof.
  intros H0 He.
  assert (Hlt : u ∈ dom ranks ∧ v ∈ dom ranks ∧ rank_of ranks u < rank_of ranks v).
  { destruct He as [t_id dur Ht|p t_id dur preds Ht Hp|t_id Hid Hterm].
    - assert (Hid : t_id ∈ task_ids tasks) by (by apply (task_id_elem _ _ Ht)).
      split; [apply fixpoint_dom; auto|]. split; [apply fixpoint_dom; auto|].
      destruct Hok as (_ & Hnn & Hz). rewrite (Hz H0).
      destruct (fixpoint_stable _ Ht) as [_ Hroot].
      destruct (Hroot eq_refl) as [Heq|Hne].
      + exfalso. apply H0. unfold task_id in Heq. simpl in Heq. by subst.
      + specialize (Hnn t_id). unfold task_id in Hne. simpl in Hne. lia.
    - destruct (fixpoint_pred _ p Ht Hp) as [Hdom Hle].
      split; [done|]. split; [|unfold task_id in Hle; simpl in Hle; lia].
      apply fixpoint_dom. right. left. by apply (task_id_elem _ _ Ht).
    - pose proof (omega_of_gt _ _ Hid).
      assert (Hd : t_id ∈ dom ranks) by (apply fixpoint_dom; auto).
      split; [done|]. split; [apply fixpoint_dom; auto|].
      assert (rank_of ranks t_id + 1 ≤ rank_of ranks (omega_of tasks)); [|lia].
      apply fixpoint_omega; [done|lia]. }
  destruct Hlt as (Hu & Hv & Hlt). exists (rank_of ranks u), (rank_of ranks v).
  split; [by apply lookup_rank_of|]. split; [by apply lookup_rank_of | done].
Qed.

(** On an acyclic graph no task can have the id of the start vertex. *)
Lemma fixpoint_no_task_zero : acyclic tasks → 0 ∉ task_ids tasks.
Proof.
  intros Hacyclic (t & H0 & Ht)%list_elem_of_fmap.
  apply (Hacyclic 0). rewrite H0 at 2.
  apply (fixpoint_reach (S (Z.to_nat (rank_of ranks (task_id t))))); [done|lia].
Qed.
End fixpoint.

(** ** RankAssigner: termination of the relaxation loop *)

Lemma size_list_to_set_le (l : list Z) : (size (list_to_set l : gset Z) ≤ length l)%nat.
Proof.
  induction l as [|x l IH].
  - rewrite list_to_set_nil, size_empty. done.
  - rewrite list_to_set_cons, size_union_alt, size_singleton. simpl.
    assert (size (list_to_set l ∖ {[x]} : gset Z) ≤ size (list_to_set l : gset Z))%nat
      by (apply subseteq_size; set_solver).
    lia.
Qed.

Lemma supported_bound (tasks : list task) (v r : Z) :
  supported tasks v r → 0 ≤ r ≤ Z.of_nat (length tasks).
Proof.
  intros (S & <- & Hsub & _). split; [lia|].
  apply subseteq_size in Hsub. pose proof (size_list_to_set_le (task_ids tasks)) as Hle.
  unfold task_ids in *. rewrite length_fmap in Hle. lia.
Qed.

Lemma supported_zero (tasks : list task) (v : Z) : supported tasks v 0.
Proof. exists ∅. rewrite size_empty. split; [done|]. split; set_solver. Qed.

Lemma supported_one (tasks : list task) (v : Z) :
  v ∈ task_ids tasks → supported tasks v 1.
Proof.
  intros Hv. exists {[v]}. rewrite size_singleton. split; [done|].
  split; [set_solver|]. intros x ->%elem_of_singleton. done.
Qed.

(** Extending the support along an edge; the target is new by acyclicity. *)
Lemma supported_succ (tasks : list task) (p v r : Z) :
  acyclic tasks → v ∈ task_ids tasks → edge tasks p v →
  supported tasks p r → supported tasks v (r + 1).
Proof.
  intros Hac Hv He (S & <- & Hsub & Hreach).
  exists (S ∪ {[v]}). split; [|split].
  - rewrite size_union, size_singleton; [lia|].
    intros x Hx ->%elem_of_singleton. apply (Hac v).
    eapply tc_rtc_l; [by apply Hreach | by apply tc_once].
  - set_solver.
  - intros x [Hx | ->%elem_of_singleton]%elem_of_union; [|done].
    eapply rtc_r; [by apply Hreach | done].
Qed.

Lemma resolved_pred (tasks : list task) (t : task) (p : Z) :
  resolved tasks → t ∈ tasks → p ∈ task_preds t → p ∈ task_ids tasks.
Proof.
  intros Hres Ht Hp. eapply Forall_forall in Hres; [|exact Ht].
  by eapply Forall_forall in Hres.
Qed.

Lemma edge_of_pred (tasks : list task) (t : task) (p : Z) :
  t ∈ tasks → p ∈ task_preds t → edge tasks p (task_id t).
Proof. destruct t as [[t_id dur] preds]. intros Ht Hp. by eapply edge_pred. Qed.

Section pass.
Variables (tasks : list task) (k : nat) (ranks0 : gmap Z Z).
Hypothesis Hacyclic : acyclic tasks.
Hypothesis Hresolved : resolved tasks.
Hypothesis Hinv : pass_inv tasks k ranks0.

Lemma in_pass_start : in_pass tasks k ranks0 [] (ranks0, false).
Proof.
  split; simpl; try done.
  - by left.
  - intros t p Ht. by apply not_elem_of_nil in Ht.
  - intros t Ht. by apply not_elem_of_nil in Ht.
  - apply (pi_supp _ _ _ Hinv).
Qed.

(** An update of a record that has predecessors writes at least [k + 1]. *)
Lemma in_pass_pred_high (done : list task) (r : gmap Z Z) (c : bool) (t : task) (p : Z) :
  in_pass tasks k ranks0 done (r, c) → t ∈ tasks → p ∈ task_preds t →
  rank_of r (task_id t) < rank_of r p + 1 →
  Z.of_nat k + 1 ≤ rank_of r p + 1.
Proof.
  intros Hip Ht Hp Hlt.
  destruct (ip_high _ _ _ _ _ Hip p) as [Heq|Hhigh]; simpl in *; [|lia].
  pose proof (ip_mono _ _ _ _ _ Hip (task_id t)) as Hmono. simpl in Hmono.
  destruct (pi_pred _ _ _ Hinv t p Ht Hp); lia.
Qed.

(** An update of a predecessor-free record can only happen in pass 1. *)
Lemma in_pass_root_first (done : list task) (r : gmap Z Z) (c : bool) (t : task) :
  in_pass tasks k ranks0 done (r, c) → t ∈ tasks → task_preds t = [] →
  task_id t ≠ 0 → rank_of r (task_id t) = 0 → k = 0%nat.
Proof.
  intros Hip Ht Hnil Hne Hz.
  pose proof (ip_mono _ _ _ _ _ Hip (task_id t)) as Hmono. simpl in Hmono.
  destruct (pi_root _ _ _ Hinv t Ht Hnil) as [?|[?|?]]; [done|lia|done].
Qed.

(** Writing a value at least [k + 1], above the current one, at a task id
    keeps the part of the invariant that does not concern the new record. *)
Lemma in_pass_write (done : list task) (r : gmap Z Z) (c : bool) (x new : Z) :
  in_pass tasks k ranks0 done (r, c) →
  x ∈ task_ids tasks → rank_of r x < new → Z.of_nat k + 1 ≤ new →
  supported tasks x new →
  in_pass tasks k ranks0 done (<[x := new]> r, true).
Proof.
  intros [Hdom Hhi Hmono Hpred Hroot Hsame Hincr Hsup Hom] Hx Hlt Hhigh Hsupp.
  simpl in *. pose proof (omega_of_gt _ _ Hx) as Hxo.
  split; simpl.
  - rewrite dom_insert_L, Hdom.
    destruct (pi_ok _ _ _ Hinv) as [-> _]. set_solver.
  - intros v. rewrite rank_of_insert. case_decide; [by right|]. apply Hhi.
  - intros v. rewrite rank_of_insert. specialize (Hmono v).
    case_decide; subst; lia.
  - intros t p Ht Hp. rewrite !rank_of_insert.
    destruct (Hpred t p Ht Hp) as [Hle|Hge]; repeat case_decide; subst; lia.
  - intros t Ht Hnil. rewrite rank_of_insert.
    destruct (Hroot t Ht Hnil) as [?|Hge]; [by left|].
    right. case_decide; subst; lia.
  - done.
  - intros _. exists x. rewrite rank_of_insert. case_decide; [|done].
    specialize (Hmono x). lia.
  - intros v Hv. rewrite rank_of_insert. case_decide; subst; [done|].
    by apply Hsup.
  - rewrite rank_of_insert. case_decide; [lia|]. apply Hom.
Qed.

Lemma in_pass_step (done : list task) (r r' : gmap Z Z) (c b : bool) (t : task) :
  t ∈ tasks → in_pass tasks k ranks0 done (r, c) → relaxed r t r' b →
  in_pass tasks k ranks0 (done ++ [t]) (r', c || b).
Proof.
  intros Ht Hip Hrel.
  assert (Hx : task_id t ∈ task_ids tasks) by (by apply task_id_elem).
  assert (Hself : ∀ p, p ∈ task_preds t → p ≠ task_id t).
  { intros p Hp ->. apply (Hacyclic (task_id t)), tc_once. by apply edge_of_pred. }
  destruct Hrel as [Hst|p Hp Hmax Hlt|Hnil Hne Hz].
  - rewrite orb_false_r.
    destruct Hip as [Hdom Hhi Hmono Hpred Hroot Hsame Hincr Hsup Hom].
    split; simpl in *; try done.
    + intros t' q [Ht'|Ht']%elem_of_app Hq; [by apply Hpred|].
      apply list_elem_of_singleton in Ht' as ->. left. by apply Hst.
    + intros t' [Ht'|Ht']%elem_of_app Hnil; [by apply Hroot|].
      apply list_elem_of_singleton in Ht' as ->.
      destruct (proj2 Hst Hnil) as [?|Hnz]; [by left|right].
      destruct (pi_ok _ _ _ Hinv) as (_ & Hnn & _).
      specialize (Hnn (task_id t)). specialize (Hmono (task_id t)). lia.
  - rewrite orb_true_r.
    pose proof (in_pass_pred_high _ _ _ _ _ Hip Ht Hp Hlt) as Hhigh.
    assert (Hpid : p ∈ task_ids tasks) by (by eapply resolved_pred).
    assert (Hsupp : supported tasks (task_id t) (rank_of r p + 1)).
    { apply (supported_succ tasks p); [done|done|by apply edge_of_pred|].
      apply (ip_supp _ _ _ _ _ Hip). pose proof (omega_of_gt _ _ Hpid). lia. }
    destruct (in_pass_write done r c _ _ Hip Hx Hlt Hhigh Hsupp)
      as [Hdom Hhi Hmono Hpred Hroot Hsame Hincr Hsup Hom].
    split; simpl in *; try done.
    + intros t' q [Ht'|Ht']%elem_of_app Hq; [by apply Hpred|].
      apply list_elem_of_singleton in Ht' as ->. left.
      rewrite !rank_of_insert.
      rewrite (decide_False (P := task_id t = q)) by (intros Heq; by apply (Hself q)).
      rewrite decide_True by done. specialize (Hmax q Hq). lia.
    + intros t' [Ht'|Ht']%elem_of_app Hnil; [by apply Hroot|].
      apply list_elem_of_singleton in Ht' as ->.
      rewrite Hnil in Hp. by apply not_elem_of_nil in Hp.
  - rewrite orb_true_r.
    pose proof (in_pass_root_first _ _ _ _ Hip Ht Hnil Hne Hz) as Hk.
    assert (Hw : in_pass tasks k ranks0 done (<[task_id t := 1]> r, true)).
    { apply (in_pass_write done r c); [done|done|lia|lia|by apply supported_one]. }
    destruct Hw as [Hdom Hhi Hmono Hpred Hroot Hsame Hincr Hsup Hom].
    split; simpl in *; try done.
    + intros t' q [Ht'|Ht']%elem_of_app Hq; [by apply Hpred|].
      apply list_elem_of_singleton in Ht' as ->.
      rewrite Hnil in Hq. by apply not_elem_of_nil in Hq.
    + intros t' [Ht'|Ht']%elem_of_app Hn; [by apply Hroot|].
      apply list_elem_of_singleton in Ht' as ->. right.
      rewrite rank_of_insert, decide_True by done. lia.
Qed.
End pass.

Lemma foldM_total_ind {A S : Type} (f : S → A → res S) (P : list A → S → Prop)
    (l : list A) (s : S) :
  P [] s →
  (∀ done x s1, x ∈ l → P done s1 → ∃ s2, f s1 x = Ok s2 ∧ P (done ++ [x]) s2) →
  ∃ s', foldM f s l = Ok s' ∧ P l s'.
Proof.
  intros H0 Hstep.
  assert (Hgen : ∀ rest done s1, done ++ rest = l → P done s1 →
                 ∃ s', foldM f s1 rest = Ok s' ∧ P l s').
  { induction rest as [|x rest IH]; intros done s1 Heq HP; simpl.
    - rewrite app_nil_r in Heq. subst. eauto.
    - destruct (Hstep done x s1) as (s2 & -> & HP2); [rewrite <- Heq; set_solver|done|].
      simpl. apply (IH (done ++ [x])); [by rewrite <- app_assoc | done]. }
  by apply (Hgen l [] s).
Qed.

Lemma omega_rank_total (omega : Z) (ranks : gmap Z Z) (v : Z) :
  v ∈ dom ranks → v ≠ omega → ∃ m, omega_rank omega ranks = Ok m.
Proof.
  intros Hv Hne. unfold omega_rank.
  destruct (py_max_total ((filter (λ kv : Z * Z, kv.1 ≠ omega) (map_to_list ranks)).*2))
    as [m ->]; [|simpl; eauto].
  intros Hnil. apply fmap_nil_inv in Hnil.
  assert (Hin : (v, rank_of ranks v) ∈ filter (λ kv : Z * Z, kv.1 ≠ omega) (map_to_list ranks)).
  { apply list_elem_of_filter. split; [done|]. by apply elem_of_map_to_list, lookup_rank_of. }
  rewrite Hnil in Hin. by apply not_elem_of_nil in Hin.
Qed.

Section pass_total.
Variables (tasks : list task) (k : nat) (ranks0 : gmap Z Z).
Hypothesis Hacyclic : acyclic tasks.
Hypothesis Hresolved : resolved tasks.
Hypothesis Hinv : pass_inv tasks k ranks0.

Lemma pass_dom (v : Z) :
  v ∈ dom ranks0 ↔ v = 0 ∨ v ∈ task_ids tasks ∨ v = omega_of tasks.
Proof. destruct (pi_ok _ _ _ Hinv) as [-> _]. set_solver. Qed.

(** The [for] loop of a pass does not raise and establishes [in_pass]. *)
Lemma relax_tasks_in_pass :
  ∃ r c, foldM relax_task (ranks0, false) tasks = Ok (r, c) ∧
    in_pass tasks k ranks0 tasks (r, c).
Proof.
  destruct (foldM_total_ind relax_task (in_pass tasks k ranks0) tasks (ranks0, false))
    as ([r c] & Hrun & Hip).
  - by apply in_pass_start.
  - intros done t [r1 c1] Ht Hip.
    pose proof (ip_dom _ _ _ _ _ Hip) as Hd. simpl in Hd.
    destruct (relax_task_total r1 c1 t) as (r2 & c2 & Hstep).
    + rewrite Hd. apply pass_dom. right. left. by apply task_id_elem.
    + intros p Hp. rewrite Hd. apply pass_dom. right. left.
      by eapply resolved_pred.
    + exists (r2, c2). split; [done|].
      apply relax_task_relaxed in Hstep as (b & Hrel & ->).
      by apply (in_pass_step tasks k ranks0 Hacyclic Hresolved Hinv done r1 r2 c1 b t).
  - eauto.
Qed.

(** After the records, nothing was written if [k] passes already reached
    the bound. *)
Lemma in_pass_quiet (r : gmap Z Z) (c : bool) :
  in_pass tasks k ranks0 tasks (r, c) → (length tasks ≤ k)%nat → c = false.
Proof.
  intros Hip Hk. destruct c; [|done].
  destruct (ip_incr _ _ _ _ _ Hip eq_refl) as [v Hv]. simpl in Hv.
  assert (Hne : v ≠ omega_of tasks).
  { intros ->. pose proof (ip_omega _ _ _ _ _ Hip) as Ho. simpl in Ho. lia. }
  pose proof (supported_bound _ _ _ (ip_supp _ _ _ _ _ Hip v Hne)) as Hb. simpl in Hb.
  destruct (ip_high _ _ _ _ _ Hip v) as [Heq|Hhigh]; simpl in *; lia.
Qed.

(** One pass from a state satisfying [pass_inv k]: it does not raise, it
    re-establishes the invariant for [k + 1], an update strictly
    increases a rank, and there is no update once [k] reaches the number
    of tasks (and at least one pass was made). *)
Lemma relax_pass_inv :
  ∃ r' c, relax_pass tasks (omega_of tasks) ranks0 = Ok (r', c) ∧
    pass_inv tasks (S k) r' ∧
    (c = true → ∃ v, rank_of ranks0 v < rank_of r' v) ∧
    ((length tasks ≤ k)%nat → (0 < k)%nat → c = false).
Proof.
  destruct relax_tasks_in_pass as (r & c1 & Hfold & Hip).
  pose proof (ip_dom _ _ _ _ _ Hip) as Hd. simpl in Hd.
  assert (H0dom : 0 ∈ dom r).
  { rewrite Hd. apply pass_dom. auto. }
  assert (Hodom : omega_of tasks ∈ dom r).
  { rewrite Hd. apply pass_dom. auto. }
  pose proof (omega_of_pos tasks) as Hopos.
  destruct (omega_rank_total (omega_of tasks) r 0) as [cur Hcur]; [done|lia|].
  pose proof (proj1 (omega_rank_spec _ _ _) Hcur) as Hspec.
  assert (Hpass : ∃ r' c, relax_pass tasks (omega_of tasks) ranks0 = Ok (r', c) ∧
            ((cur ≠ rank_of r (omega_of tasks) ∧ r' = <[omega_of tasks := cur]> r ∧ c = true)
             ∨ (cur = rank_of r (omega_of tasks) ∧ r' = r ∧ c = c1))).
  { unfold relax_pass. rewrite Hfold. simpl. rewrite Hcur. simpl.
    rewrite (proj2 (dict_get_Ok _ _ _) (lookup_rank_of _ _ Hodom)). simpl.
    case_bool_decide; eauto 10. }
  destruct Hpass as (r' & c & Hpass & Hcase). exists r', c. split; [done|].
  destruct Hip as [Hdom Hhi Hmono Hpred Hroot Hsame Hincr Hsup Hom]. simpl in *.
  assert (Hsame_tasks : ∀ v, v ≠ omega_of tasks → rank_of r' v = rank_of r v).
  { intros v Hv. destruct Hcase as [(_ & -> & _)|(_ & -> & _)]; [|done].
    rewrite rank_of_insert. by case_decide. }
  assert (Hne_id : ∀ v, v ∈ task_ids tasks → v ≠ omega_of tasks).
  { intros v Hv. pose proof (omega_of_gt _ _ Hv). lia. }
  assert (Homega' : is_omega_rank (omega_of tasks) r' (rank_of r' (omega_of tasks))).
  { destruct Hcase as [(_ & -> & _)|(Heq & -> & _)].
    - rewrite rank_of_insert, decide_True by done. by apply is_omega_rank_insert.
    - by rewrite <- Heq. }
  assert (Hquiet : (length tasks ≤ k)%nat → (0 < k)%nat →
            cur = rank_of r (omega_of tasks) ∧ c1 = false).
  { intros Hk Hk0.
    assert (c1 = false) as ->.
    { apply (in_pass_quiet r); [|done]. by split. }
    split; [|done]. rewrite (Hsame eq_refl) in Hspec |- *.
    eapply is_omega_rank_unique; [exact Hspec|]. by apply (pi_omega _ _ _ Hinv). }
  split; [|split].
  - split.
    + eapply relax_pass_ranks_ok; [apply (pi_ok _ _ _ Hinv) | exact Hpass].
    + intros t p Ht Hp.
      rewrite !Hsame_tasks
        by (apply Hne_id; first [by eapply resolved_pred | by apply task_id_elem]).
      destruct (Hpred t p Ht Hp); [by left | right; lia].
    + intros t Ht Hnil. rewrite Hsame_tasks by (by apply Hne_id, task_id_elem).
      destruct (Hroot t Ht Hnil); auto.
    + intros v Hv. rewrite Hsame_tasks by done. by apply Hsup.
    + intros _. exact Homega'.
    + done.
  - intros Hc. destruct Hcase as [(Hne & -> & _)|(_ & -> & Hcc)].
    + exists (omega_of tasks). rewrite rank_of_insert, decide_True by done.
      rewrite <- Hom.
      assert (rank_of r (omega_of tasks) ≤ cur); [|lia].
      destruct (decide (k = 0%nat)) as [Hk|Hk].
      * rewrite Hom, (pi_omega0 _ _ _ Hinv Hk).
        destruct Hspec as [(w & _ & _ & ->) _].
        destruct (pi_ok _ _ _ Hinv) as (_ & Hnn & _).
        specialize (Hnn w). specialize (Hmono w). lia.
      * destruct (pi_omega _ _ _ Hinv) as [(w & Hw & Hwne & Hweq) _]; [lia|].
        rewrite Hom, Hweq. destruct Hspec as [_ Hle].
        specialize (Hle w). rewrite Hdom in Hle. specialize (Hle Hw Hwne).
        specialize (Hmono w). lia.
    + apply Hincr. congruence.
  - intros Hk Hk0. destruct (Hquiet Hk Hk0) as [Heq Hc1].
    destruct Hcase as [(Hne & _)|(_ & _ & Hcc)]; [done | congruence].
Qed.
End pass_total.

Lemma pass_inv_init (tasks : list task) :
  pass_inv tasks 0 (<[omega_of tasks := 0]> (init_ranks tasks)).
Proof.
  assert (Hz : ∀ v, rank_of (<[omega_of tasks := 0]> (init_ranks tasks)) v = 0).
  { intros v. rewrite rank_of_insert. case_decide; [done|].
    unfold rank_of. destruct (init_ranks tasks !! v) eqn:Hv; [|done].
    by apply init_ranks_lookup in Hv. }
  split.
  - apply init_ranks_ok.
  - intros t p _ _. right. rewrite Hz. done.
  - auto.
  - intros v _. rewrite Hz. apply supported_zero.
  - lia.
  - intros _. apply Hz.
Qed.

Section loop.
Variable tasks : list task.
Hypothesis Hacyclic : acyclic tasks.
Hypothesis Hresolved : resolved tasks.

Lemma reached_inv (k : nat) (ranks : gmap Z Z) :
  reached tasks k ranks →
  pass_inv tasks k ranks ∧ (k ≤ Nat.max (length tasks) 1)%nat.
Proof.
  induction 1 as [|k r r' _ [IH Hk] Hpass].
  - split; [apply pass_inv_init | lia].
  - destruct (relax_pass_inv tasks k r Hacyclic Hresolved IH)
      as (r2 & c & Hpass2 & Hinv & _ & Hquiet).
    rewrite Hpass in Hpass2. injection Hpass2 as <- <-. split; [done|].
    destruct (decide (length tasks ≤ k ∧ 0 < k)%nat) as [[H1 H2]|Hn]; [|lia].
    by specialize (Hquiet H1 H2).
Qed.

(** The loop stops within [max(n, 1) + 1 - k] more passes. *)
Lemma relax_loop_terminates (j k : nat) (ranks : gmap Z Z) :
  pass_inv tasks k ranks → (Nat.max (length tasks) 1 ≤ k + j)%nat →
  ∃ r k', relax_loop (S j) tasks (omega_of tasks) ranks = Some (Ok r) ∧
    pass_inv tasks (S k') r.
Proof.
  revert k ranks. induction j as [|j IH]; intros k ranks Hinv Hk.
  - destruct (relax_pass_inv tasks k ranks Hacyclic Hresolved Hinv)
      as (r' & c & Hpass & Hinv' & _ & Hquiet).
    rewrite Hquiet in Hpass by lia. exists r', k. simpl. by rewrite Hpass.
  - destruct (relax_pass_inv tasks k ranks Hacyclic Hresolved Hinv)
      as (r' & c & Hpass & Hinv' & _ & _).
    destruct c.
    + destruct (IH (S k) r' Hinv') as (r & k' & Hloop & Hr); [lia|].
      exists r, k'. split; [|done].
      change (relax_loop (S (S j)) tasks (omega_of tasks) ranks)
        with (match relax_pass tasks (omega_of tasks) ranks with
              | Raise e => Some (Raise e)
              | Ok (ranks, true) => relax_loop (S j) tasks (omega_of tasks) ranks
              | Ok (ranks, false) => Some (Ok ranks)
              end).
      by rewrite Hpass.
    + exists r', k. simpl. by rewrite Hpass.
Qed.

(** [assign_ranks] returns within [count_vertices] passes, with ranks
    bounded by the number of vertices. *)
Lemma assign_ranks_terminates :
  ∃ ranks, assign_ranks (count_vertices tasks) tasks = Some (Ok ranks) ∧
    ∀ v, 0 ≤ rank_of ranks v ≤ Z.of_nat (count_vertices tasks).
Proof.
  destruct (relax_loop_terminates (Nat.max (length tasks) 1) 0 _ (pass_inv_init tasks))
    as (r & k' & Hloop & Hinv); [lia|].
  exists r. split.
  - unfold assign_ranks. rewrite rank_omega_eq.
    eapply relax_loop_fuel_mono; [exact Hloop|]. unfold count_vertices. lia.
  - intros v. unfold count_vertices.
    destruct (decide (v = omega_of tasks)) as [->|Hne].
    + destruct (pi_omega _ _ _ Hinv) as [(w & _ & Hw & ->) _]; [lia|].
      pose proof (supported_bound _ _ _ (pi_supp _ _ _ Hinv w Hw)). lia.
    + pose proof (supported_bound _ _ _ (pi_supp _ _ _ Hinv v Hne)). lia.
Qed.
End loop.

(** ** RankAssigner: the claims *)

(** A strictly increasing labelling of the edges rules out cycles. *)
Lemma acyclic_ranking (tasks : list task) (f : Z → Z) :
  (∀ u v, edge tasks u v → f u < f v) → acyclic tasks.
Proof.
  intros Hf v Hv.
  assert (Hlt : ∀ a b, tc (edge tasks) a b → f a < f b).
  { induction 1 as [a b He|a b c He _ IH]; [by apply Hf|].
    specialize (Hf a b He). lia. }
  specialize (Hlt v v Hv). lia.
Qed.

(** When no task has id [0], a returned rank map certifies acyclicity. *)
Lemma acyclic_of_ranks (tasks : list task) (fuel : nat) (ranks : gmap Z Z) :
  0 ∉ task_ids tasks → assign_ranks fuel tasks = Some (Ok ranks) → acyclic tasks.
Proof.
  intros H0 [Hok Hfix]%assign_ranks_fixpoint.
  apply (acyclic_ranking tasks (rank_of ranks)). intros u v He.
  destruct (fixpoint_monotone tasks ranks Hok Hfix u v H0 He) as (ru & rv & Hu & Hv & Hlt).
  by rewrite (rank_of_lookup _ _ _ Hu), (rank_of_lookup _ _ _ Hv).
Qed.

Lemma unresolved_tasks_acyclic : acyclic unresolved_tasks.
Proof.
  apply (acyclic_ranking _ (λ v, if decide (v = 7) then 0 else v)).
  intros u v He. destruct He as [t_id dur Ht|p t_id dur preds Ht Hp|t_id Hid Hterm].
  - apply list_elem_of_singleton in Ht. discriminate.
  - apply list_elem_of_singleton in Ht. injection Ht as -> -> ->.
    apply list_elem_of_singleton in Hp as ->. done.
  - apply list_elem_of_singleton in Hid as ->. done.
Qed.

(** C8 (counterexample).  [unresolved_tasks] is acyclic, but its task names a
    predecessor that is no key of the rank dict: the first pass raises
    [KeyError] instead of reaching a pass without change. *)
Lemma relaxation_raises_on_unresolved :
  acyclic unresolved_tasks ∧
  ∀ fuel, assign_ranks (S fuel) unresolved_tasks = Some (Raise KeyError).
Proof.
  split; [apply unresolved_tasks_acyclic|]. intros fuel. vm_compute. reflexivity.
Qed.

(** C8 (amended).  For every acyclic TaskSet in which every predecessor id
    is a task id, the relaxation loop terminates: within [count_vertices]
    passes it reaches a pass in which no rank changes.  Along the way (in
    any state reached after [k] updating passes) [k] is below the vertex
    count, every rank is bounded by the vertex count, and an updating pass
    strictly increases some rank. *)
Theorem relaxation_terminates (tasks : list task) :
  acyclic tasks → resolved tasks →
  (∃ ranks, assign_ranks (count_vertices tasks) tasks = Some (Ok ranks) ∧
     relax_pass tasks (omega_of tasks) ranks = Ok (ranks, false)) ∧
  ∀ k ranks, reached tasks k ranks →
    (k < count_vertices tasks)%nat ∧
    (∀ v, 0 ≤ rank_of ranks v ≤ Z.of_nat (count_vertices tasks)) ∧
    ∀ ranks', relax_pass tasks (omega_of tasks) ranks = Ok (ranks', true) →
      ∃ v, rank_of ranks v < rank_of ranks' v.
Proof.
  intros Hacyclic Hres. split.
  - destruct (assign_ranks_terminates tasks Hacyclic Hres) as (r & Hr & _).
    exists r. split; [done|]. by apply assign_ranks_fixpoint in Hr as [_ Hfix].
  - intros k ranks Hreach.
    destruct (reached_inv tasks Hacyclic Hres k ranks Hreach) as [Hinv Hk].
    unfold count_vertices. split; [lia|]. split.
    + intros v. destruct (decide (v = omega_of tasks)) as [->|Hne].
      * destruct (decide (k = 0%nat)) as [Hk0|Hk0].
        -- rewrite (pi_omega0 _ _ _ Hinv Hk0). lia.
        -- destruct (pi_omega _ _ _ Hinv) as [(w & _ & Hw & ->) _]; [lia|].
           pose proof (supported_bound _ _ _ (pi_supp _ _ _ Hinv w Hw)). lia.
      * pose proof (supported_bound _ _ _ (pi_supp _ _ _ Hinv v Hne)). lia.
    + intros ranks' Hpass.
      destruct (relax_pass_inv tasks k ranks Hacyclic Hres Hinv)
        as (r2 & c & Hpass2 & _ & Hincr & _).
      rewrite Hpass in Hpass2. injection Hpass2 as <- <-. by apply Hincr.
Qed.

Lemma relaxation_terminates_witness :
  acyclic example_tasks ∧ resolved example_tasks ∧
  (∃ ranks, assign_ranks (count_vertices example_tasks) example_tasks = Some (Ok ranks) ∧
     relax_pass example_tasks (omega_of example_tasks) ranks = Ok (ranks, false)) ∧
  ∀ k ranks, reached example_tasks k ranks →
    (k < count_vertices example_tasks)%nat ∧
    (∀ v, 0 ≤ rank_of ranks v ≤ Z.of_nat (count_vertices example_tasks)) ∧
    ∀ ranks', relax_pass example_tasks (omega_of example_tasks) ranks = Ok (ranks', true) →
      ∃ v, rank_of ranks v < rank_of ranks' v.
Proof.
  assert (Hac : acyclic example_tasks).
  { apply (acyclic_of_ranks example_tasks 2 example_ranks).
    - apply (bool_decide_unpack _). vm_compute. exact I.
    - vm_compute. reflexivity. }
  assert (Hres : resolved example_tasks).
  { apply (bool_decide_unpack _). vm_compute. exact I. }
  split; [exact Hac|]. split; [exact Hres|].
  exact (relaxation_terminates example_tasks Hac Hres).
Defined.

(** ** ScheduleComputer: latest dates are not below earliest dates *)

Lemma foldM_ind_split {A S : Type} (f : S → A → res S) (P : list A → S → Prop)
    (l : list A) (s s' : S) :
  P [] s →
  (∀ done x rest s1 s2, l = done ++ x :: rest → P done s1 → f s1 x = Ok s2 →
     P (done ++ [x]) s2) →
  foldM f s l = Ok s' → P l s'.
Proof.
  intros H0 Hstep.
  assert (Hgen : ∀ rest done s1, done ++ rest = l → P done s1 →
                 foldM f s1 rest = Ok s' → P l s').
  { induction rest as [|x rest IH]; intros done s1 Heq HP Hrun; simpl in Hrun.
    - rewrite app_nil_r in Heq. subst. by injection Hrun as ->.
    - apply bind_Ok in Hrun as (s2 & Hf & Hrun).
      apply (IH (done ++ [x]) s2); [by rewrite <- app_assoc | | done].
      by apply (Hstep done x rest s1 s2). }
  by apply (Hgen l [] s).
Qed.





Lemma get_duration_NoDup (tasks : list task) (t : task) :
  NoDup (task_ids tasks) → t ∈ tasks → get_duration (task_id t) tasks = task_dur t.
Proof.
  induction tasks as [|[[tid dur] preds] tasks IH]; intros Hnd Ht.
  - by apply not_elem_of_nil in Ht.
  - apply NoDup_cons in Hnd as [Hnotin Hnd]. simpl.
    apply elem_of_cons in Ht as [Heq|Ht].
    + subst t. unfold task_id, task_dur. simpl. by case_bool_decide.
    + case_bool_decide as Heq; [|by apply IH].
      exfalso. apply Hnotin. change tid with (task_id (tid, dur, preds)).
      rewrite Heq. change (task_id t ∈ task_ids tasks). by apply task_id_elem.
Qed.

Lemma elem_of_no_succ (tasks : list task) (x : Z) :
  x ∈ no_succ tasks ↔ x ∈ task_ids tasks ∧ never_predecessor tasks x.
Proof.
  unfold no_succ, never_predecessor.
  assert (Hacc : ∀ (s : gset Z),
            x ∈ foldl (λ s t, s ∪ list_to_set (task_preds t)) s tasks
            ↔ x ∈ s ∨ Exists (λ t, x ∈ task_preds t) tasks).
  { induction tasks as [|t tasks IH]; intros s; simpl.
    - rewrite Exists_nil. tauto.
    - rewrite IH, Exists_cons, elem_of_union, elem_of_list_to_set. tauto. }
  rewrite elem_of_difference, elem_of_list_to_set, Hacc, Forall_Exists_neg.
  set_solver.
Qed.


Lemma elem_of_successors (tasks : list task) (x s : Z) :
  s ∈ successors x tasks ↔ ∃ t, t ∈ tasks ∧ task_id t = s ∧ x ∈ task_preds t.
Proof.
  unfold successors. rewrite list_elem_of_fmap. split.
  - intros (t & -> & [Hx Ht]%list_elem_of_filter). eauto.
  - intros (t & Ht & <- & Hx). exists t. split; [done|]. by apply list_elem_of_filter.
Qed.



Section schedule.
Variables (tasks : list task) (ranks : gmap Z Z).
Hypothesis Hnodup : NoDup (task_ids tasks).
Hypothesis H0 : 0 ∉ task_ids tasks.
Hypothesis Hmono : ∀ t p, t ∈ tasks → p ∈ task_preds t →
  rank_of ranks p < rank_of ranks (task_id t).




End schedule.


(** ** ScheduleComputer: no lookup fails on a resolved, ranked TaskSet *)


Lemma mapR_nonempty {A B : Type} (f : A → res B) (l : list A) (ys : list B) :
  mapR f l = Ok ys → l ≠ [] → ys ≠ [].
Proof.
  intros H%mapR_Ok Hl ->. apply Forall2_nil_inv_r in H. done.
Qed.

Section schedule_total.
Variables (tasks : list task) (ranks : gmap Z Z).
Hypothesis Hresolved : resolved tasks.
Hypothesis H0 : 0 ∉ task_ids tasks.
Hypothesis Hkeys : ∀ t, t ∈ tasks → task_id t ∈ dom ranks.
Hypothesis Hmono : ∀ t p, t ∈ tasks → p ∈ task_preds t →
  rank_of ranks p < rank_of ranks (task_id t).




End schedule_total.


(** ** Validator: Kahn's algorithm *)

Lemma has_arc_bounds (n : nat) (matrix : list (list cell)) (i j : nat) :
  square n matrix → has_arc matrix i j = true → (i < n)%nat ∧ (j < n)%nat.
Proof.
  intros [Hlen Hrows] H. unfold has_arc in H.
  destruct (matrix !! i) as [row|] eqn:Hrow; [|done].
  destruct (row !! j) as [c|] eqn:Hc; [|done].
  apply lookup_lt_Some in Hc. eapply Forall_lookup_1 in Hrows; [|done].
  apply lookup_lt_Some in Hrow. lia.
Qed.

(** The inner in-degree loop adds one at every [j] of the range with an arc
    [i -> j]. *)
Lemma in_degree_row (matrix : list (list cell)) (i : nat) (l : list nat)
    (deg : list Z) (v : nat) :
  NoDup l →
  foldl (λ in_degree j,
           if has_arc matrix i j then alter (λ d, d + 1) j in_degree else in_degree)
        deg l !! v
  = (λ d, d + (if bool_decide (v ∈ l ∧ has_arc matrix i v = true) then 1 else 0))
    <$> deg !! v.
Proof.
  revert deg. induction l as [|j l IH]; intros deg Hnd; cbn [foldl].
  - case_bool_decide as H; [destruct H as [H _]; by apply not_elem_of_nil in H|].
    destruct (deg !! v); simpl; f_equal; lia.
  - apply NoDup_cons in Hnd as [Hj Hnd]. rewrite IH by done.
    destruct (has_arc matrix i j) eqn:Harc.
    + destruct (decide (v = j)) as [->|Hne].
      * rewrite list_lookup_alter_eq.
        destruct (deg !! j); simpl; [|done]. f_equal.
        repeat case_bool_decide; try lia; exfalso; set_solver.
      * rewrite list_lookup_alter_ne by done.
        destruct (deg !! v); simpl; [|done]. f_equal.
        repeat case_bool_decide; try lia; exfalso; set_solver.
    + destruct (deg !! v); simpl; [|done]. f_equal.
      repeat case_bool_decide; try lia; exfalso.
      * set_solver.
      * match goal with H : ¬ _ |- _ => apply H end.
        match goal with H : _ ∧ _ |- _ => destruct H as [[->|Hv]%elem_of_cons Ha] end;
          [congruence | done].
Qed.

Lemma filter_ext_elem {A : Type} (P Q : A → Prop) `{∀ x, Decision (P x)}
    `{∀ x, Decision (Q x)} (l : list A) :
  (∀ x, x ∈ l → P x ↔ Q x) → filter P l = filter Q l.
Proof.
  induction l as [|a l IH]; intros Hext; [done|].
  rewrite !filter_cons.
  destruct (decide (P a)) as [HP|HP]; destruct (decide (Q a)) as [HQ|HQ].
  - f_equal. apply IH. intros x Hx. apply Hext. set_solver.
  - exfalso. apply HQ, Hext; [set_solver|done].
  - exfalso. apply HP, Hext; [set_solver|done].
  - apply IH. intros x Hx. apply Hext. set_solver.
Qed.

(** Dropping one element [u] of a duplicate-free list from a filter. *)
Lemma filter_remove_length {A : Type} `{EqDecision A} (P : A → Prop)
    `{∀ x, Decision (P x)} (l : list A) (u : A) :
  NoDup l →
  length (filter P l)
  = (length (filter (λ x, P x ∧ x ≠ u) l)
     + (if bool_decide (u ∈ l ∧ P u) then 1 else 0))%nat.
Proof.
  induction l as [|a l IH]; intros Hnd.
  - rewrite bool_decide_eq_false_2; [done|].
    intros [Hc _]. by apply not_elem_of_nil in Hc.
  - apply NoDup_cons in Hnd as [Ha Hnd]. rewrite !filter_cons. specialize (IH Hnd).
    destruct (decide (P a)) as [HP|HP].
    + destruct (decide (a = u)) as [->|Hne].
      * rewrite decide_False by (intros [_ Hn]; done). simpl. rewrite IH.
        rewrite (bool_decide_eq_false_2 (u ∈ l ∧ P u)) by (intros [Hin _]; done).
        rewrite (bool_decide_eq_true_2 (u ∈ u :: l ∧ P u)) by (split; [set_solver|done]).
        lia.
      * rewrite decide_True by done. simpl. rewrite IH.
        repeat case_bool_decide; try lia; exfalso; set_solver.
    + rewrite decide_False by (intros [Hp _]; done). rewrite IH.
      repeat case_bool_decide; try lia; exfalso.
      * set_solver.
      * match goal with H : ¬ _ |- _ => apply H end.
        match goal with H : _ ∧ _ |- _ => destruct H as [[->|Hv]%elem_of_cons Ha'] end;
          [done | done].
Qed.

Lemma kahn_visit_step_eq (matrix : list (list cell)) (u x : nat) (deg : list Z) (queue : list nat) :
  kahn_visit_step matrix u (deg, queue) x
  = if has_arc matrix u x
    then (alter (λ d, d - 1) x deg,
          if bool_decide (deg !! x = Some 1) then queue ++ [x] else queue)
    else (deg, queue).
Proof.
  unfold kahn_visit_step. destruct (has_arc matrix u x); [|done]. cbn zeta.
  rewrite list_lookup_alter_eq.
  destruct (deg !! x) as [d|] eqn:Hd; simpl.
  - repeat case_bool_decide; try done.
    + match goal with H : Some _ = Some _ |- _ => injection H as H end.
      exfalso. match goal with H : ¬ _ |- _ => apply H end. f_equal. lia.
    + match goal with H : Some _ = Some _ |- _ => injection H as H end.
      exfalso. match goal with H : ¬ _ |- _ => apply H end. f_equal. lia.
  - repeat case_bool_decide; done.
Qed.

(** The inner loop of a pop: every out-neighbour loses one, and those that
    reach zero are appended to the queue in increasing order. *)
Lemma kahn_visit_spec (matrix : list (list cell)) (u : nat) (l : list nat) (deg : list Z) (queue : list nat) :
  NoDup l →
  ∃ deg', foldl (kahn_visit_step matrix u) (deg, queue) l
  = (deg', queue ++ filter (λ v, has_arc matrix u v = true ∧ deg !! v = Some 1) l) ∧
  ∀ v, deg' !! v
    = (λ d, d - (if bool_decide (v ∈ l ∧ has_arc matrix u v = true) then 1 else 0))
      <$> deg !! v.
Proof.
  revert deg queue. induction l as [|x l IH]; intros deg queue Hnd; cbn [foldl].
  - exists deg. rewrite filter_nil, app_nil_r. split; [done|]. intros v.
    rewrite bool_decide_eq_false_2 by (intros [Hc _]; by apply not_elem_of_nil in Hc).
    destruct (deg !! v); simpl; f_equal; lia.
  - apply NoDup_cons in Hnd as [Hx Hnd]. rewrite filter_cons, kahn_visit_step_eq.
    destruct (has_arc matrix u x) eqn:Harc.
    + assert (Hfilter : filter (λ v, has_arc matrix u v = true ∧
                                     alter (λ d, d - 1) x deg !! v = Some 1) l
                        = filter (λ v, has_arc matrix u v = true ∧ deg !! v = Some 1) l).
      { apply filter_ext_elem. intros v Hv.
        rewrite list_lookup_alter_ne by (intros ->; done). done. }
      destruct (IH (alter (λ d, d - 1) x deg)
                   (if bool_decide (deg !! x = Some 1) then queue ++ [x] else queue) Hnd)
        as (deg' & -> & Hd).
      exists deg'. split.
      * rewrite Hfilter. f_equal. case_bool_decide as Hone.
        -- rewrite decide_True by done. by rewrite <- app_assoc.
        -- rewrite decide_False by (intros [_ ?]; done). done.
      * intros v. rewrite Hd. destruct (decide (v = x)) as [->|Hne].
        -- rewrite list_lookup_alter_eq. destruct (deg !! x); simpl; [|done]. f_equal.
           rewrite bool_decide_eq_false_2 by (intros [? _]; done).
           rewrite bool_decide_eq_true_2 by (split; [set_solver|done]). lia.
        -- rewrite list_lookup_alter_ne by done. destruct (deg !! v); simpl; [|done].
           f_equal. repeat case_bool_decide; try lia; exfalso; set_solver.
    + destruct (IH deg queue Hnd) as (deg' & -> & Hd). exists deg'. split.
      * rewrite decide_False by (intros [? _]; congruence). done.
      * intros v. rewrite Hd. destruct (deg !! v); simpl; [|done]. f_equal.
        repeat case_bool_decide; try lia; exfalso.
        -- set_solver.
        -- match goal with H : ¬ _ |- _ => apply H end.
           match goal with H : _ ∧ _ |- _ => destruct H as [[->|Hv]%elem_of_cons Ha] end;
             [congruence | done].
Qed.
Section kahn.
Variables (matrix : list (list cell)) (n : nat).
Hypothesis Hsquare : square n matrix.

Lemma arc_lt (i j : nat) : has_arc matrix i j = true → (i < n)%nat ∧ (j < n)%nat.
Proof. by apply has_arc_bounds. Qed.

(** The outer in-degree loop over the rows [l]. *)
Lemma in_degree_rows (l : list nat) (deg : list Z) (v : nat) :
  foldl (λ in_degree i,
           foldl (λ in_degree j,
                    if has_arc matrix i j then alter (λ d, d + 1) j in_degree
                    else in_degree) in_degree (seq 0 n)) deg l !! v
  = (λ d, d + Z.of_nat (length (filter (λ u, has_arc matrix u v = true) l)))
    <$> deg !! v.
Proof.
  revert deg. induction l as [|i l IH]; intros deg; cbn [foldl].
  - simpl. destruct (deg !! v); simpl; f_equal; lia.
  - rewrite IH, in_degree_row by apply NoDup_seq. rewrite filter_cons.
    destruct (deg !! v) as [d|]; simpl; [|done]. f_equal.
    destruct (decide (has_arc matrix i v = true)) as [Harc|Harc].
    + rewrite bool_decide_eq_true_2; [simpl length; lia|].
      split; [|done]. apply elem_of_seq. destruct (arc_lt _ _ Harc). lia.
    + rewrite bool_decide_eq_false_2 by (intros [_ ?]; done). lia.
Qed.

Lemma in_degrees_spec (v : nat) :
  (v < n)%nat → in_degrees matrix n !! v = Some (indeg matrix n [] v).
Proof.
  intros Hv. unfold in_degrees, indeg. rewrite in_degree_rows.
  rewrite lookup_replicate_2 by done. simpl. f_equal.
  rewrite Z.add_0_l. do 2 f_equal. apply filter_ext_elem.
  intros x _. split; [intros ?; split; [done|apply not_elem_of_nil] | by intros [? _]].
Qed.

(** Marking [u] as visited removes its arc from the in-degree of [v]. *)
Lemma indeg_snoc (visited : list nat) (u v : nat) :
  (u < n)%nat → u ∉ visited →
  indeg matrix n (visited ++ [u]) v
  = indeg matrix n visited v - (if has_arc matrix u v then 1 else 0).
Proof.
  intros Hu Hnot. unfold indeg.
  rewrite (filter_remove_length (λ x, has_arc matrix x v = true ∧ x ∉ visited)
             (seq 0 n) u) by apply NoDup_seq.
  rewrite (filter_ext_elem (λ x, has_arc matrix x v = true ∧ x ∉ visited ++ [u])
             (λ x, (has_arc matrix x v = true ∧ x ∉ visited) ∧ x ≠ u)).
  - destruct (has_arc matrix u v) eqn:Harc.
    + rewrite bool_decide_eq_true_2; [lia|].
      split; [apply elem_of_seq; lia | done].
    + rewrite bool_decide_eq_false_2 by (intros (_ & ? & _); congruence). lia.
  - intros x _. rewrite not_elem_of_app, list_elem_of_singleton. tauto.
Qed.

(** A zero in-degree means that all predecessors are visited. *)
Lemma indeg_zero (visited : list nat) (u v : nat) :
  indeg matrix n visited v = 0 → has_arc matrix u v = true → u ∈ visited.
Proof.
  unfold indeg. intros Hz Harc.
  destruct (decide (u ∈ visited)) as [|Hnot]; [done|]. exfalso.
  assert (Hnil : filter (λ x, has_arc matrix x v = true ∧ x ∉ visited) (seq 0 n) = []).
  { apply length_zero_iff_nil. lia. }
  apply (filter_nil_not_elem_of _ _ u Hnil (conj Harc Hnot)).
  apply elem_of_seq. destruct (arc_lt _ _ Harc). lia.
Qed.

End kahn.

Lemma NoDup_bounded_length (l : list nat) (n : nat) :
  NoDup l → (∀ x, x ∈ l → (x < n)%nat) → (length l ≤ n)%nat.
Proof.
  intros Hnd Hlt. transitivity (length (seq 0 n)); [|by rewrite length_seq].
  apply submseteq_length.
  apply NoDup_submseteq; [done|]. intros x Hx. apply elem_of_seq.
  specialize (Hlt x Hx). lia.
Qed.

Section kahn_loop.
Variables (matrix : list (list cell)) (n : nat).
Hypothesis Hsquare : square n matrix.

Lemma kahn_inv_init :
  kahn_inv matrix n [] (in_degrees matrix n)
    (filter (λ i, in_degrees matrix n !! i = Some 0) (seq 0 n)).
Proof.
  split.
  - intros v Hv. by apply in_degrees_spec.
  - simpl. apply NoDup_filter, NoDup_seq.
  - simpl. intros v [_ Hv%elem_of_seq]%list_elem_of_filter. lia.
  - intros v Hv. simpl. rewrite list_elem_of_filter, (in_degrees_spec _ _ Hsquare v Hv).
    rewrite elem_of_seq. split; [intros [[= ->] _]; done|].
    intros ->. split; [done|lia].
  - intros i v u Hi. by rewrite lookup_nil in Hi.
Qed.

(** One iteration of the [while] loop keeps the invariant. *)
Lemma kahn_pop (visited : list nat) (deg : list Z) (u : nat) (queue : list nat) :
  kahn_inv matrix n visited deg (u :: queue) →
  ∃ deg' queue', kahn_visit matrix n u (deg, queue) = (deg', queue') ∧
    kahn_inv matrix n (visited ++ [u]) deg' queue'.
Proof.
  intros [Hdeg Hnd Hrange Hzero Horder].
  assert (Hun : (u < n)%nat) by (apply Hrange; set_solver).
  assert (HuV : u ∉ visited).
  { apply NoDup_app in Hnd as (_ & Hdisj & _). intros Hin. apply (Hdisj u Hin). set_solver. }
  assert (Huz : indeg matrix n visited u = 0) by (apply Hzero; [done|set_solver]).
  destruct (kahn_visit_spec matrix u (seq 0 n) deg queue (NoDup_seq 0 n))
    as (deg' & Hvisit & Hd).
  set (new := filter (λ v, has_arc matrix u v = true ∧ deg !! v = Some 1) (seq 0 n)) in *.
  exists deg', (queue ++ new). split; [exact Hvisit|].
  assert (Hnew : ∀ v, v ∈ new ↔
            has_arc matrix u v = true ∧ indeg matrix n visited v = 1 ∧ (v < n)%nat).
  { intros v. unfold new. rewrite list_elem_of_filter, elem_of_seq. split.
    - intros [[Harc Hone] Hv]. rewrite Hdeg in Hone by lia.
      injection Hone as Hone. split; [done|]. split; [done|lia].
    - intros (Harc & Hone & Hv). rewrite Hdeg by done. rewrite Hone.
      split; [done|lia]. }
  assert (Hnoarc : ∀ v, indeg matrix n visited v = 0 → has_arc matrix u v = false).
  { intros v Hv. destruct (has_arc matrix u v) eqn:Harc; [|done].
    exfalso. apply HuV. by eapply indeg_zero. }
  assert (Happ : (visited ++ [u]) ++ queue ++ new = (visited ++ u :: queue) ++ new).
  { by rewrite <- !app_assoc. }
  split.
  - intros v Hv. rewrite Hd, (Hdeg v Hv). simpl. f_equal.
    rewrite (indeg_snoc matrix n visited u v Hun HuV).
    destruct (has_arc matrix u v) eqn:Harc.
    + rewrite bool_decide_eq_true_2; [done|]. split; [|done]. apply elem_of_seq. lia.
    + rewrite bool_decide_eq_false_2; [done|]. intros [_ ?]. congruence.
  - rewrite Happ. apply NoDup_app. split; [done|]. split.
    + intros x Hx [Harc [Hone _]]%Hnew.
      assert (indeg matrix n visited x = 0); [|lia].
      apply Hzero; [by apply Hrange | done].
    + apply NoDup_filter, NoDup_seq.
  - rewrite Happ. intros v [Hv|Hv]%elem_of_app; [by apply Hrange|].
    by apply Hnew in Hv as (_ & _ & ?).
  - intros v Hv. rewrite Happ, (indeg_snoc matrix n visited u v Hun HuV).
    rewrite elem_of_app, Hnew, (Hzero v Hv). split.
    + intros [Hz|(Harc & Hone & _)].
      * rewrite (Hnoarc v Hz). lia.
      * rewrite Harc. lia.
    + intros Hz. destruct (has_arc matrix u v) eqn:Harc.
      * right. split; [done|]. split; [lia|done].
      * left. lia.
  - intros i v x Hi Harc.
    destruct (decide (i < length visited)%nat) as [Hlt|Hge].
    + rewrite lookup_app_l in Hi by done.
      destruct (Horder i v x Hi Harc) as (j & Hj & Hjx).
      exists j. split; [done|]. rewrite lookup_app_l by lia. done.
    + rewrite lookup_app_r in Hi by lia.
      apply list_lookup_singleton_Some in Hi as [Hi0 <-].
      assert (Hx : x ∈ visited) by (by eapply indeg_zero).
      apply list_elem_of_lookup in Hx as [j Hj]. exists j.
      pose proof (lookup_lt_Some _ _ _ Hj).
      split; [lia|]. rewrite lookup_app_l by lia. done.
Qed.

Lemma kahn_inv_length (visited : list nat) (deg : list Z) (queue : list nat) :
  kahn_inv matrix n visited deg queue → (length visited + length queue ≤ n)%nat.
Proof.
  intros [_ Hnd Hrange _ _]. rewrite <- length_app.
  by apply NoDup_bounded_length.
Qed.

(** The loop pops at most [n] vertices: [n + 1] units of fuel are enough, and
    it ends with an empty queue in a state satisfying the invariant. *)
Lemma kahn_loop_spec (fuel : nat) (visited : list nat) (deg : list Z) (queue : list nat) :
  kahn_inv matrix n visited deg queue →
  (n - length visited < fuel)%nat →
  ∃ visited' deg',
    kahn_loop fuel matrix n deg queue (length visited) = Some (length visited') ∧
    kahn_inv matrix n visited' deg' [].
Proof.
  revert visited deg queue.
  induction fuel as [|fuel IH]; intros visited deg queue Hinv Hfuel; [lia|].
  destruct queue as [|u queue]; simpl.
  - exists visited, deg. done.
  - destruct (kahn_pop visited deg u queue Hinv) as (deg' & queue' & -> & Hinv').
    pose proof (kahn_inv_length _ _ _ Hinv) as Hlen. simpl in Hlen.
    destruct (IH (visited ++ [u]) deg' queue' Hinv') as (visited' & deg'' & Hloop & Hfinal).
    { rewrite length_app. simpl. lia. }
    rewrite length_app in Hloop. simpl in Hloop.
    rewrite Nat.add_1_r in Hloop. eauto.
Qed.

(** Nothing on a cycle is ever popped: popped vertices come after all their
    predecessors. *)
Lemma kahn_cycle_unvisited (visited : list nat) (deg : list Z) (queue : list nat) (w : nat) :
  kahn_inv matrix n visited deg queue → tc (arc matrix) w w → w ∉ visited.
Proof.
  intros [_ Hnd _ _ Horder] Hcycle Hw.
  assert (Hback : ∀ a b, tc (arc matrix) a b → ∀ i, visited !! i = Some b →
            ∃ j, (j < i)%nat ∧ visited !! j = Some a).
  { induction 1 as [a b Harc|a b c Harc _ IH]; intros i Hi.
    - by eapply Horder.
    - destruct (IH i Hi) as (j & Hj & Hjb).
      destruct (Horder j b a Hjb Harc) as (j' & Hj' & Hja).
      exists j'. split; [lia|done]. }
  apply list_elem_of_lookup in Hw as [i Hi].
  destruct (Hback w w Hcycle i Hi) as (j & Hj & Hjw).
  apply NoDup_app in Hnd as (Hnd & _ & _).
  pose proof (NoDup_lookup _ _ _ _ Hnd Hi Hjw). lia.
Qed.

(** If the loop ends with an unvisited vertex, walking back along unvisited
    predecessors revisits a vertex within [n + 1] steps. *)
Lemma kahn_unvisited_cycle (visited : list nat) (deg : list Z) (w0 : nat) :
  kahn_inv matrix n visited deg [] → (w0 < n)%nat → w0 ∉ visited →
  has_cycle matrix.
Proof.
  intros [_ _ _ Hzero _] Hw0 Hw0V.
  set (step := λ w, default 0%nat
         (head (filter (λ x, has_arc matrix x w = true ∧ x ∉ visited) (seq 0 n)))).
  assert (Hstep : ∀ w, (w < n)%nat → w ∉ visited →
            has_arc matrix (step w) w = true ∧ (step w < n)%nat ∧ step w ∉ visited).
  { intros w Hw HwV.
    assert (Hpos : indeg matrix n visited w ≠ 0).
    { intros Hz. apply HwV. apply Hzero in Hz; [|done]. by rewrite app_nil_r in Hz. }
    unfold indeg in Hpos. unfold step.
    destruct (filter (λ x, has_arc matrix x w = true ∧ x ∉ visited) (seq 0 n))
      as [|x l] eqn:Hf; [done|]. simpl.
    assert (Hx : x ∈ filter (λ x, has_arc matrix x w = true ∧ x ∉ visited) (seq 0 n))
      by (rewrite Hf; set_solver).
    apply list_elem_of_filter in Hx as [[Harc Hnot] Hseq%elem_of_seq].
    split; [done|]. split; [lia|done]. }
  set (f := λ i, Nat.iter i step w0).
  assert (Hf : ∀ i, (f i < n)%nat ∧ f i ∉ visited).
  { induction i as [|i [IH1 IH2]]; [done|]. unfold f. simpl.
    destruct (Hstep (f i) IH1 IH2) as (_ & ? & ?). done. }
  assert (Harc : ∀ i, arc matrix (f (S i)) (f i)).
  { intros i. destruct (Hf i) as [H1 H2]. by destruct (Hstep (f i) H1 H2). }
  assert (Hchain : ∀ d i, tc (arc matrix) (f (i + S d)%nat) (f i)).
  { induction d as [|d IH]; intros i.
    - rewrite Nat.add_1_r. apply tc_once, Harc.
    - replace (i + S (S d))%nat with (S (i + S d)) by lia.
      eapply tc_l; [apply Harc | apply IH]. }
  destruct (nat_pigeonhole f (S n) n) as (i1 & i2 & Hi & Heq); [lia| |].
  { intros i _. apply Hf. }
  exists (f i1). rewrite Heq at 1.
  replace i2 with (i1 + S (i2 - i1 - 1))%nat by lia. apply Hchain.
Qed.

(** Kahn's count is below [n] exactly when the matrix graph has a cycle. *)
Lemma kahn_count_spec (visited : list nat) (deg : list Z) :
  kahn_inv matrix n visited deg [] →
  (length visited < n)%nat ↔ has_cycle matrix.
Proof.
  intros Hinv. split.
  - intros Hlt.
    destruct (decide (Forall (λ v, v ∈ visited) (seq 0 n))) as [Hall|Hex].
    + exfalso. assert (length (seq 0 n) ≤ length visited)%nat; [|rewrite length_seq in *; lia].
      apply submseteq_length, NoDup_submseteq; [apply NoDup_seq|].
      intros x Hx. by eapply Forall_forall in Hall.
    + apply not_Forall_Exists, Exists_exists in Hex as (w & Hw%elem_of_seq & HwV); [|apply _].
      apply (kahn_unvisited_cycle visited deg w); [done|lia|done].
  - intros [w Hw].
    pose proof (kahn_cycle_unvisited _ _ _ w Hinv Hw) as HwV.
    assert (Hwn : (w < n)%nat).
    { assert (∃ y, arc matrix w y) as [y Hy] by (inversion Hw; eauto).
      by destruct (arc_lt matrix n Hsquare _ _ Hy). }
    destruct Hinv as [_ Hnd Hrange _ _]. rewrite app_nil_r in Hnd, Hrange.
    assert (length (w :: visited) ≤ n)%nat; [|simpl in *; lia].
    apply NoDup_bounded_length; [by apply NoDup_cons|].
    intros x [->|Hx]%elem_of_cons; [done | by apply Hrange].
Qed.
End kahn_loop.

Lemma kahn_loop_fuel_mono (fuel fuel' : nat) (matrix : list (list cell)) (n : nat)
    (deg : list Z) (queue : list nat) (count c : nat) :
  kahn_loop fuel matrix n deg queue count = Some c → (fuel ≤ fuel')%nat →
  kahn_loop fuel' matrix n deg queue count = Some c.
Proof.
  revert fuel' deg queue count.
  induction fuel as [|fuel IH]; intros fuel' deg queue count; simpl; [done|].
  intros H Hle. destruct fuel' as [|fuel']; [lia|]. simpl.
  destruct queue as [|u queue]; [done|].
  destruct (kahn_visit matrix n u (deg, queue)) as [deg' queue'].
  apply IH; [done|lia].
Qed.

Lemma detect_cycle_fuel_mono (fuel fuel' : nat) (matrix : list (list cell))
    (out : res bool) :
  detect_cycle fuel matrix = Some out → (fuel ≤ fuel')%nat →
  detect_cycle fuel' matrix = Some out.
Proof.
  unfold detect_cycle. destruct (forallb _ matrix); [|done].
  destruct (kahn_loop fuel _ _ _ _ _) as [c|] eqn:Hloop; [|done].
  intros H Hle. by rewrite (kahn_loop_fuel_mono _ _ _ _ _ _ _ _ Hloop Hle).
Qed.

(** On a square matrix [detect_cycle] returns within [n + 1] pops, and its
    answer is true exactly when the matrix graph has a cycle. *)
Lemma detect_cycle_square (n : nat) (matrix : list (list cell)) :
  square n matrix →
  ∃ b, detect_cycle (S n) matrix = Some (Ok b) ∧ (b = true ↔ has_cycle matrix).
Proof.
  intros Hsq. pose proof Hsq as [Hlen Hrows]. unfold detect_cycle. rewrite Hlen.
  assert (Hcheck : forallb (λ row, (n <=? length row)%nat) matrix = true).
  { apply forallb_forall. intros row Hrow%list_elem_of_In.
    eapply Forall_forall in Hrows; [|done]. rewrite Hrows. apply Nat.leb_refl. }
  rewrite Hcheck.
  destruct (kahn_loop_spec matrix n Hsq (S n) [] _ _ (kahn_inv_init matrix n Hsq))
    as (visited & deg & Hloop & Hfinal); [simpl; lia|].
  simpl length in Hloop. rewrite Hloop. simpl.
  eexists. split; [done|].
  rewrite <- (kahn_count_spec matrix n Hsq visited deg Hfinal).
  by rewrite bool_decide_eq_true.
Qed.

(** ** The built matrix holds edges of the TaskSet graph only *)

Lemma matrix_set_arcs (n : nat) (matrix matrix' : list (list cell)) (i j : Z) (v : cell) :
  square n matrix → 0 ≤ i < Z.of_nat n → 0 ≤ j < Z.of_nat n →
  matrix_set matrix i j v = Ok matrix' →
  ∀ a b, has_arc matrix' a b = true →
    (a = Z.to_nat i ∧ b = Z.to_nat j) ∨ has_arc matrix a b = true.
Proof.
  intros Hsq Hi Hj Hset a b.
  destruct (matrix_set_in_range n matrix i j v Hsq Hi Hj) as (row & Hrow & Heq).
  rewrite Heq in Hset. injection Hset as <-. unfold has_arc.
  destruct (decide (a = Z.to_nat i)) as [->|Ha].
  - rewrite list_lookup_insert_eq by (by eapply lookup_lt_Some). rewrite Hrow.
    destruct (decide (b = Z.to_nat j)) as [->|Hb]; [by left|].
    rewrite list_lookup_insert_ne by done. by right.
  - rewrite list_lookup_insert_ne by done. by right.
Qed.

Section built_arcs.
Variable tasks : list task.
Hypothesis Hdense : dense_ids tasks.
Hypothesis Homega : matrix_omega tasks = omega_of tasks.

(** Loop invariant of both loops of [build_adjacency_matrix]. *)
Lemma place_arcs_edges (matrix matrix' : list (list cell)) (t : task) :
  t ∈ tasks →
  square (length tasks + 2) matrix →
  (∀ a b, has_arc matrix a b = true → edge tasks (Z.of_nat a) (Z.of_nat b)) →
  place_arcs tasks matrix t = Ok matrix' →
  ∀ a b, has_arc matrix' a b = true → edge tasks (Z.of_nat a) (Z.of_nat b).
Proof.
  intros Ht Hsq Hedges Hplace.
  pose proof (dense_ids_range tasks _ Hdense (task_id_elem _ _ Ht)) as Hid.
  destruct t as [[t_id dur] preds]. unfold task_id in Hid. simpl in Hid.
  unfold place_arcs in Hplace. destruct preds as [|p0 preds].
  - intros a b Harc.
    destruct (matrix_set_arcs _ _ _ 0 t_id _ Hsq ltac:(lia) ltac:(lia) Hplace a b Harc)
      as [[-> ->]|Hold]; [|by apply Hedges].
    rewrite !Z2Nat.id by lia.
    exact (edge_alpha tasks t_id dur Ht).
  - apply (foldM_ind _ (λ _ m, square (length tasks + 2) m ∧
             ∀ a b, has_arc m a b = true → edge tasks (Z.of_nat a) (Z.of_nat b)))
      in Hplace; [by apply Hplace|done|].
    intros _ p m1 m2 Hp [Hsq1 Hedges1] Hstep.
    destruct (pred_duration p tasks) as [d|] eqn:Hd; [|by injection Hstep as <-].
    pose proof (dense_ids_range tasks _ Hdense (pred_duration_Some _ _ _ Hd)) as Hpr.
    split; [by eapply matrix_set_square|]. intros a b Harc.
    destruct (matrix_set_arcs _ _ _ p t_id _ Hsq1 ltac:(lia) ltac:(lia) Hstep a b Harc)
      as [[-> ->]|Hold]; [|by apply Hedges1].
    rewrite !Z2Nat.id by lia. exact (edge_pred tasks p t_id dur (p0 :: preds) Ht Hp).
Qed.

(** Every arc of the built matrix is an edge of the TaskSet graph. *)
Lemma build_arcs_are_edges (matrix : list (list cell)) :
  build_adjacency_matrix tasks = Ok matrix →
  ∀ a b, has_arc matrix a b = true → edge tasks (Z.of_nat a) (Z.of_nat b).
Proof.
  unfold build_adjacency_matrix. intros H.
  apply bind_Ok in H as (m1 & H1 & H2).
  set (inv := λ m : list (list cell), square (length tasks + 2) m ∧
         ∀ a b, has_arc m a b = true → edge tasks (Z.of_nat a) (Z.of_nat b)).
  assert (Hm1 : inv m1).
  { apply (foldM_ind _ (λ _ m, inv m)) in H1; [done| |].
    - split; [apply replicate_square|]. intros a b Harc. exfalso. unfold has_arc in Harc.
      destruct (replicate _ _ !! a) as [row|] eqn:Hrow; [|done].
      apply lookup_replicate in Hrow as [-> _].
      destruct (replicate _ Star !! b) as [c|] eqn:Hc; [|done].
      by apply lookup_replicate in Hc as [-> _].
    - intros _ t ma mb Ht [Hsqa Hea] Hstep.
      split; [by eapply place_arcs_square | by eapply place_arcs_edges]. }
  apply (foldM_ind _ (λ _ m, inv m)) in H2; [by apply H2|done|].
  intros _ [[t_id dur] preds] ma mb Ht [Hsqa Hea] Hstep.
  case_bool_decide as Hns; [|by injection Hstep as <-].
  pose proof (dense_ids_range tasks _ Hdense (task_id_elem _ _ Ht)) as Hid.
  unfold task_id in Hid. simpl in Hid.
  split; [by eapply matrix_set_square|]. intros a b Harc.
  assert (Hom : 0 ≤ matrix_omega tasks < Z.of_nat (length tasks + 2))
    by (unfold matrix_omega; lia).
  destruct (matrix_set_arcs _ _ _ t_id (matrix_omega tasks) _ Hsqa ltac:(lia) Hom
              Hstep a b Harc) as [[-> ->]|Hold]; [|by apply Hea].
  rewrite !Z2Nat.id by lia. rewrite Homega.
  apply elem_of_no_succ in Hns as [Hin Hnever]. by apply edge_omega.
Qed.
End built_arcs.

(** ** RankAssigner: ranks along the edges *)

(** C7. On an acyclic TaskSet every rank map returned by [assign_ranks] is
    strictly increasing along every edge of the graph (start → task without
    predecessor, predecessor → task, terminal task → end), hence along every
    arc of the built adjacency matrix when the ids are [1 .. n] and both
    components agree on the end vertex; and a rank map is returned whenever
    every predecessor id is a task id. *)
Theorem ranks_monotone_along_edges (tasks : list task) :
  acyclic tasks →
  (∀ fuel ranks, assign_ranks fuel tasks = Some (Ok ranks) →
     (∀ u v, edge tasks u v → rank_lt ranks u v) ∧
     (dense_ids tasks → matrix_omega tasks = omega_of tasks →
      ∀ matrix, build_adjacency_matrix tasks = Ok matrix →
        ∀ i j, has_arc matrix i j = true → rank_lt ranks (Z.of_nat i) (Z.of_nat j))) ∧
  (resolved tasks →
     ∃ ranks, assign_ranks (count_vertices tasks) tasks = Some (Ok ranks)).
Proof.
  intros Hacyclic. split.
  - intros fuel ranks [Hok Hfix]%assign_ranks_fixpoint.
    assert (Hmono : ∀ u v, edge tasks u v → rank_lt ranks u v).
    { intros u v He. apply (fixpoint_monotone tasks ranks Hok Hfix); [|done].
      by apply (fixpoint_no_task_zero tasks ranks Hok Hfix). }
    split; [exact Hmono|].
    intros Hdense Homega matrix Hbuild i j Harc.
    apply Hmono. by apply (build_arcs_are_edges tasks Hdense Homega matrix).
  - intros Hres. destruct (assign_ranks_terminates tasks Hacyclic Hres) as (r & Hr & _).
    eauto.
Qed.

Lemma ranks_monotone_along_edges_witness :
  acyclic example_tasks ∧
  (∀ fuel ranks, assign_ranks fuel example_tasks = Some (Ok ranks) →
     (∀ u v, edge example_tasks u v → rank_lt ranks u v) ∧
     (dense_ids example_tasks → matrix_omega example_tasks = omega_of example_tasks →
      ∀ matrix, build_adjacency_matrix example_tasks = Ok matrix →
        ∀ i j, has_arc matrix i j = true → rank_lt ranks (Z.of_nat i) (Z.of_nat j))) ∧
  (resolved example_tasks →
     ∃ ranks, assign_ranks (count_vertices example_tasks) example_tasks = Some (Ok ranks)).
Proof.
  assert (Hac : acyclic example_tasks).
  { apply (acyclic_of_ranks example_tasks 2 example_ranks).
    - apply (bool_decide_unpack _). vm_compute. exact I.
    - vm_compute. reflexivity. }
  split; [exact Hac|]. exact (ranks_monotone_along_edges example_tasks Hac).
Defined.

(** ** GraphBuilder: which task ids the matrix construction accepts *)

Lemma py_index_Ok {A : Type} (l : list A) (i : Z) (k : nat) :
  py_index l i = Ok k →
  - Z.of_nat (length l) ≤ i < Z.of_nat (length l) ∧ (k < length l)%nat.
Proof.
  unfold py_index. repeat case_bool_decide; intros [= <-]; lia.
Qed.

Lemma py_index_total {A : Type} (l : list A) (i : Z) :
  - Z.of_nat (length l) ≤ i < Z.of_nat (length l) →
  ∃ k, py_index l i = Ok k ∧ (k < length l)%nat.
Proof.
  intros Hi. unfold py_index. case_bool_decide.
  - eexists. split; [done|lia].
  - rewrite bool_decide_eq_true_2 by lia. eexists. split; [done|lia].
Qed.

Lemma py_index_Raise {A : Type} (l : list A) (i : Z) (x : exn) :
  py_index l i = Raise x → x = IndexError.
Proof. unfold py_index. repeat case_bool_decide; congruence. Qed.

Lemma matrix_set_Raise (matrix : list (list cell)) (i j : Z) (v : cell) (x : exn) :
  matrix_set matrix i j v = Raise x → x = IndexError.
Proof.
  unfold matrix_set, py_getitem, py_setitem.
  destruct (py_index matrix i) as [a|e] eqn:Ha; simpl;
    [|intros [= <-]; by eapply py_index_Raise].
  destruct (matrix !! a) as [row|]; simpl; [|congruence].
  destruct (py_index row j) as [b|e] eqn:Hb; simpl;
    [congruence | intros [= <-]; by eapply py_index_Raise].
Qed.

Lemma matrix_set_total (n : nat) (matrix : list (list cell)) (i j : Z) (v : cell) :
  square n matrix → - Z.of_nat n ≤ i < Z.of_nat n → - Z.of_nat n ≤ j < Z.of_nat n →
  ∃ matrix', matrix_set matrix i j v = Ok matrix' ∧ square n matrix'.
Proof.
  intros Hsq Hi Hj. pose proof Hsq as [Hlen Hrows].
  destruct (py_index_total matrix i) as (a & Ha & Hlt); [lia|].
  destruct (lookup_lt_is_Some_2 matrix a Hlt) as [row Hrow].
  assert (length row = n) by (by eapply Forall_lookup_1 in Hrows).
  destruct (py_index_total row j) as (b & Hb & _); [lia|].
  assert (Hset : matrix_set matrix i j v = Ok (<[a := <[b := v]> row]> matrix)).
  { unfold matrix_set, py_getitem, py_setitem.
    rewrite Ha. simpl. rewrite Hrow. simpl. rewrite Hb. simpl. done. }
  eexists. split; [exact Hset|]. by eapply matrix_set_square.
Qed.

Lemma matrix_set_indices (n : nat) (matrix matrix' : list (list cell)) (i j : Z) (v : cell) :
  square n matrix → matrix_set matrix i j v = Ok matrix' →
  - Z.of_nat n ≤ i < Z.of_nat n ∧ - Z.of_nat n ≤ j < Z.of_nat n.
Proof.
  intros [Hlen Hrows] (a & b & row & Ha & Hrow & Hb & _)%matrix_set_Ok.
  assert (length row = n) by (by eapply Forall_lookup_1 in Hrows).
  apply py_index_Ok in Ha as [Ha _]. apply py_index_Ok in Hb as [Hb _]. lia.
Qed.

Lemma place_arcs_Raise (tasks : list task) (matrix : list (list cell)) (t : task) (x : exn) :
  place_arcs tasks matrix t = Raise x → x = IndexError.
Proof.
  destruct t as [[t_id dur] preds]. unfold place_arcs.
  destruct preds as [|p0 preds]; [apply matrix_set_Raise|].
  intros (m1 & p & _ & H)%foldM_Raise.
  destruct (pred_duration p tasks); [by eapply matrix_set_Raise | done].
Qed.

Lemma build_adjacency_matrix_Raise (tasks : list task) (x : exn) :
  build_adjacency_matrix tasks = Raise x → x = IndexError.
Proof.
  unfold build_adjacency_matrix.
  destruct (foldM (place_arcs tasks) _ tasks) as [m1|e] eqn:H1; simpl.
  - intros (m2 & [[t_id dur] preds] & _ & H)%foldM_Raise.
    case_bool_decide; [by eapply matrix_set_Raise | done].
  - intros [= <-]. apply foldM_Raise in H1 as (m & t & _ & H).
    by eapply place_arcs_Raise.
Qed.

Lemma pred_duration_is_Some (p : Z) (tasks : list task) :
  p ∈ task_ids tasks → is_Some (pred_duration p tasks).
Proof.
  intros (t & -> & Ht)%list_elem_of_fmap. unfold pred_duration.
  destruct (List.find _ tasks) as [t'|] eqn:Hf; [by eexists|].
  exfalso. eapply find_none in Hf; [|by apply list_elem_of_In].
  by rewrite bool_decide_eq_true_2 in Hf.
Qed.

(** What a successful run of the first loop has checked for the record [t]. *)
Lemma place_arcs_indices (tasks : list task) (matrix matrix' : list (list cell)) (t : task) :
  square (length tasks + 2) matrix →
  place_arcs tasks matrix t = Ok matrix' →
  (task_preds t = [] → index_ok tasks (task_id t)) ∧
  (∀ p, p ∈ task_preds t → p ∈ task_ids tasks →
     index_ok tasks p ∧ index_ok tasks (task_id t)).
Proof.
  destruct t as [[t_id dur] preds]. unfold place_arcs, task_preds, task_id. simpl.
  intros Hsq H. destruct preds as [|p0 preds].
  - split; [|intros p Hp; by apply not_elem_of_nil in Hp].
    intros _. by apply (matrix_set_indices _ _ _ _ _ _ Hsq) in H as [_ ?].
  - split; [done|].
    apply (foldM_ind _ (λ done m, square (length tasks + 2) m ∧
             ∀ p, p ∈ done → p ∈ task_ids tasks →
               index_ok tasks p ∧ index_ok tasks t_id)) in H; [by apply H| |].
    + split; [done|]. intros p Hp. by apply not_elem_of_nil in Hp.
    + intros done p m1 m2 _ [Hsq1 IH] Hstep.
      destruct (pred_duration p tasks) as [d|] eqn:Hd.
      * split; [by eapply matrix_set_square|].
        intros q [Hq|Hq]%elem_of_app; [by apply IH|].
        apply list_elem_of_singleton in Hq as ->. intros _.
        by apply (matrix_set_indices _ _ _ _ _ _ Hsq1) in Hstep.
      * injection Hstep as <-. split; [done|].
        intros q [Hq|Hq]%elem_of_app; [by apply IH|].
        apply list_elem_of_singleton in Hq as ->.
        intros [d Hd']%pred_duration_is_Some. congruence.
Qed.

(** X1. [build_adjacency_matrix] returns a matrix exactly when every task
    id lies in [-(len(tasks) + 2), len(tasks) + 2), the index range of a
    Python list of that length (a negative id is accepted and counts from the
    end); otherwise it raises [IndexError].  It raises nothing else, and a
    returned matrix is square, of side [len(tasks) + 2]. *)
Theorem build_adjacency_matrix_index_range (tasks : list task) :
  ((∃ matrix, build_adjacency_matrix tasks = Ok matrix) ↔
   Forall (λ t, index_ok tasks (task_id t)) tasks) ∧
  (∀ matrix, build_adjacency_matrix tasks = Ok matrix → square (length tasks + 2) matrix) ∧
  (∀ x, build_adjacency_matrix tasks = Raise x → x = IndexError).
Proof.
  split; [|split; [apply build_adjacency_matrix_square | apply build_adjacency_matrix_Raise]].
  split.
  - intros [matrix H]. unfold build_adjacency_matrix in H.
    apply bind_Ok in H as (m1 & H1 & H2).
    apply (foldM_ind _ (λ done m, square (length tasks + 2) m ∧
             ∀ t, t ∈ done →
               (task_preds t = [] → index_ok tasks (task_id t)) ∧
               (∀ p, p ∈ task_preds t → p ∈ task_ids tasks →
                  index_ok tasks p ∧ index_ok tasks (task_id t)))) in H1.
    + destruct H1 as [Hsq1 Hfirst].
      apply (foldM_ind _ (λ done m, square (length tasks + 2) m ∧
               ∀ t, t ∈ done → task_id t ∈ no_succ tasks → index_ok tasks (task_id t)))
        in H2.
      * destruct H2 as [_ Hsecond]. apply Forall_forall. intros t Ht.
        destruct (Hfirst t Ht) as [Hroot Hpreds].
        destruct (decide (task_id t ∈ no_succ tasks)) as [Hns|Hns]; [by apply Hsecond|].
        assert (Hsucc : ∃ t', t' ∈ tasks ∧ task_id t ∈ task_preds t').
        { rewrite elem_of_no_succ in Hns.
          destruct (decide (never_predecessor tasks (task_id t))) as [Hnp|Hnp].
          - exfalso. apply Hns. split; [by apply task_id_elem | done].
          - unfold never_predecessor in Hnp. apply not_Forall_Exists in Hnp; [|apply _].
            apply Exists_exists in Hnp as (t' & Ht' & Hin).
            exists t'. split; [done|]. by apply dec_stable. }
        destruct Hsucc as (t' & Ht' & Hin).
        destruct (Hfirst t' Ht') as [_ Hpreds'].
        by apply (Hpreds' _ Hin (task_id_elem _ _ Ht)).
      * split; [done|]. intros t Ht. by apply not_elem_of_nil in Ht.
      * intros done [[t_id dur] preds] ma mb _ [Hsqa IH] Hstep. case_bool_decide as Hns.
        -- split; [by eapply matrix_set_square|].
           intros t [Ht|Ht]%elem_of_app; [by apply IH|].
           apply list_elem_of_singleton in Ht as ->. intros _.
           by apply (matrix_set_indices _ _ _ _ _ _ Hsqa) in Hstep as [? _].
        -- injection Hstep as <-. split; [done|].
           intros t [Ht|Ht]%elem_of_app; [by apply IH|].
           apply list_elem_of_singleton in Ht as ->. done.
    + split; [apply replicate_square|]. intros t Ht. by apply not_elem_of_nil in Ht.
    + intros done t ma mb _ [Hsqa IH] Hstep. split; [by eapply place_arcs_square|].
      intros t' [Ht'|Ht']%elem_of_app; [by apply IH|].
      apply list_elem_of_singleton in Ht' as ->. by eapply place_arcs_indices.
  - intros Hall. unfold build_adjacency_matrix.
    assert (Hid : ∀ i, i ∈ task_ids tasks → index_ok tasks i).
    { intros i (t & -> & Ht)%list_elem_of_fmap. by eapply Forall_forall in Hall. }
    destruct (foldM_total (place_arcs tasks) (square (length tasks + 2)) tasks
                (replicate (length tasks + 2) (replicate (length tasks + 2) Star)))
      as (m1 & -> & Hm1).
    + apply replicate_square.
    + intros [[t_id dur] preds] m Ht Hm.
      pose proof (Hid _ (task_id_elem _ _ Ht)) as Ht_id. unfold task_id in Ht_id.
      simpl in Ht_id. unfold index_ok in *. unfold place_arcs.
      destruct preds as [|p0 preds]; [apply matrix_set_total; [done|lia|done]|].
      apply (foldM_total _ (square (length tasks + 2))); [done|].
      intros p m2 _ Hm2. destruct (pred_duration p tasks) as [d|] eqn:Hd; [|eauto].
      apply pred_duration_Some, Hid in Hd. by apply matrix_set_total.
    + simpl.
      destruct (foldM_total
                  (λ matrix (t : task),
                     let '(t_id, dur, _) := t in
                     if bool_decide (t_id ∈ no_succ tasks)
                     then matrix_set matrix t_id (matrix_omega tasks) (W dur)
                     else Ok matrix)
                  (square (length tasks + 2)) tasks m1) as (m2 & Hm2 & _); [done| |eauto].
      intros [[t_id dur] preds] m Ht Hm. case_bool_decide; [|eauto].
      pose proof (Hid _ (task_id_elem _ _ Ht)) as Ht_id. unfold task_id in Ht_id.
      simpl in Ht_id. apply matrix_set_total; [done|done|].
      unfold matrix_omega. lia.
Qed.

Lemma negative_id_wraps_around :
  build_adjacency_matrix [(-1, 5, [])]
  = Ok [[Star; Star; W 0]; [Star; Star; Star]; [Star; Star; W 5]].
Proof. vm_compute. reflexivity. Qed.

(** ** GraphBuilder: the cells of the built matrix *)

Lemma matrix_set_cell (matrix matrix' : list (list cell)) (i j : Z) (v : cell) :
  matrix_set matrix i j v = Ok matrix' →
  ∃ a b, py_index matrix i = Ok a ∧
    (∀ row, matrix !! a = Some row → py_index row j = Ok b) ∧
    ∀ x y, matrix_cell matrix' x y
           = if decide (x = a ∧ y = b) then Some v else matrix_cell matrix x y.
Proof.
  intros (a & b & row & Ha & Hrow & Hb & ->)%matrix_set_Ok.
  exists a, b. split; [done|]. split; [intros row' Hrow'; congruence|].
  intros x y. unfold matrix_cell.
  pose proof (lookup_lt_Some _ _ _ Hrow) as Hlt.
  apply py_index_Ok in Hb as [_ Hb].
  destruct (decide (x = a)) as [->|Hx].
  - rewrite list_lookup_insert_eq by done. rewrite Hrow. simpl.
    destruct (decide (y = b)) as [->|Hy].
    + rewrite list_lookup_insert_eq by done. by rewrite decide_True.
    + rewrite list_lookup_insert_ne by done. rewrite decide_False; [done|tauto].
  - rewrite list_lookup_insert_ne by done. rewrite decide_False; [done|tauto].
Qed.

Lemma matrix_set_cell_in_range (n : nat) (matrix matrix' : list (list cell)) (i j : Z) (v : cell) :
  square n matrix → 0 ≤ i < Z.of_nat n → 0 ≤ j < Z.of_nat n →
  matrix_set matrix i j v = Ok matrix' →
  ∀ x y, matrix_cell matrix' x y
         = if decide (x = Z.to_nat i ∧ y = Z.to_nat j) then Some v else matrix_cell matrix x y.
Proof.
  intros Hsq Hi Hj Hset.
  destruct (matrix_set_in_range n matrix i j v Hsq Hi Hj) as (row & Hrow & Heq).
  destruct (matrix_set_cell _ _ _ _ _ Hset) as (a & b & Ha & Hb & Hcell).
  pose proof Hsq as [Hlen Hrows].
  rewrite py_index_in_range in Ha by lia. injection Ha as <-.
  specialize (Hb row Hrow).
  assert (length row = n) by (by eapply Forall_lookup_1 in Hrows).
  rewrite py_index_in_range in Hb by lia. injection Hb as <-. done.
Qed.

Lemma matrix_cell_replicate (n : nat) (i j : nat) (c : cell) :
  matrix_cell (replicate n (replicate n Star)) i j = Some c → c = Star.
Proof.
  unfold matrix_cell. destruct (replicate n _ !! i) as [row|] eqn:Hrow; [|done].
  apply lookup_replicate in Hrow as [-> _]. simpl.
  by intros [-> _]%lookup_replicate.
Qed.

Lemma task_unique (tasks : list task) (t t' : task) :
  NoDup (task_ids tasks) → t ∈ tasks → t' ∈ tasks → task_id t = task_id t' → t = t'.
Proof.
  induction tasks as [|t0 tasks IH]; intros Hnd Ht Ht' Heq.
  - by apply not_elem_of_nil in Ht.
  - unfold task_ids in Hnd. rewrite fmap_cons in Hnd.
    apply NoDup_cons in Hnd as [Hnotin Hnd].
    apply elem_of_cons in Ht as [->|Ht]; apply elem_of_cons in Ht' as [->|Ht'].
    + done.
    + exfalso. apply Hnotin. rewrite Heq. by apply list_elem_of_fmap_2.
    + exfalso. apply Hnotin. rewrite <- Heq. by apply list_elem_of_fmap_2.
    + by apply IH.
Qed.

Lemma pred_duration_elem (p d : Z) (tasks : list task) :
  pred_duration p tasks = Some d → ∃ preds, (p, d, preds) ∈ tasks.
Proof.
  unfold pred_duration. destruct (List.find _ tasks) as [[[tid dur] preds]|] eqn:Hf; [|done].
  intros [= <-]. apply find_some in Hf as [Hin Hp%bool_decide_eq_true_1].
  unfold task_id in Hp. simpl in Hp. subst tid.
  exists preds. by apply list_elem_of_In.
Qed.

Lemma pred_duration_NoDup (p d : Z) (preds : list Z) (tasks : list task) :
  NoDup (task_ids tasks) → (p, d, preds) ∈ tasks → pred_duration p tasks = Some d.
Proof.
  intros Hnd Hin.
  destruct (pred_duration_is_Some p tasks) as [d' Hd'].
  { by apply (task_id_elem _ _ Hin). }
  rewrite Hd'. apply pred_duration_elem in Hd' as [preds' Hin'].
  by injection (task_unique tasks _ _ Hnd Hin Hin' eq_refl) as ->.
Qed.

Section built_cells.
Variable tasks : list task.
Hypothesis Hdense : dense_ids tasks.
Hypothesis Hnodup : NoDup (task_ids tasks).

Lemma dense_task_range (t_id dur : Z) (preds : list Z) :
  (t_id, dur, preds) ∈ tasks → 1 ≤ t_id ≤ Z.of_nat (length tasks).
Proof.
  intros Ht. apply (dense_ids_range tasks _ Hdense). by apply (task_id_elem _ _ Ht).
Qed.

(** An arc has one weight. *)
Lemma arc_weight_functional (i j d d' : Z) :
  arc_weight tasks i j d → arc_weight tasks i j d' → d = d'.
Proof.
  intros H H'.
  destruct H as [t_id dur Ht|p dp predsp t_id dur preds Ht Hp Htp|t_id dur preds Ht Hnp].
  - inversion H' as [? ? Ht'|? ? ? ? ? ? Ht' Hp' Htp'|? ? ? Ht' Hnp']; subst.
    + done.
    + apply dense_task_range in Htp'. lia.
    + apply dense_task_range in Ht'. lia.
  - pose proof (dense_task_range _ _ _ Ht) as Hr. pose proof (dense_task_range _ _ _ Htp) as Hrp.
    inversion H' as [? ? Ht'|? ? ? ? ? ? Ht' Hp' Htp'|? ? ? Ht' Hnp']; subst.
    + lia.
    + by injection (task_unique tasks _ _ Hnodup Htp Htp' eq_refl) as ->.
    + unfold matrix_omega in *. lia.
  - pose proof (dense_task_range _ _ _ Ht) as Hr.
    inversion H' as [? ? Ht'|? ? ? ? ? ? Ht' Hp' Htp'|? ? ? Ht' Hnp']; subst.
    + lia.
    + apply dense_task_range in Ht'. unfold matrix_omega in *. lia.
    + by injection (task_unique tasks _ _ Hnodup Ht Ht' eq_refl) as ->.
Qed.

Lemma arc_weight_range (i j d : Z) :
  arc_weight tasks i j d →
  0 ≤ i < Z.of_nat (length tasks + 2) ∧ 0 ≤ j < Z.of_nat (length tasks + 2).
Proof.
  intros [t_id dur Ht|p dp predsp t_id dur preds Ht Hp Htp|t_id dur preds Ht Hnp].
  - apply dense_task_range in Ht. lia.
  - apply dense_task_range in Ht, Htp. lia.
  - apply dense_task_range in Ht. unfold matrix_omega. lia.
Qed.

Lemma write_arc (matrix matrix' : list (list cell)) (i j d : Z) :
  sound_cells tasks matrix → arc_weight tasks i j d →
  matrix_set matrix i j (W d) = Ok matrix' →
  sound_cells tasks matrix' ∧ keeps_cells matrix matrix' ∧
  matrix_cell matrix' (Z.to_nat i) (Z.to_nat j) = Some (W d).
Proof.
  intros [Hsq Hs] Harc Hset.
  destruct (arc_weight_range _ _ _ Harc) as [Hi Hj].
  pose proof (matrix_set_cell_in_range _ _ _ _ _ _ Hsq Hi Hj Hset) as Hcell.
  split; [split; [by eapply matrix_set_square|]|split].
  - intros a b d'. rewrite Hcell. case_decide as Hab; [|by apply Hs].
    destruct Hab as [-> ->]. intros [= <-]. by rewrite !Z2Nat.id by lia.
  - intros a b d' Hold. rewrite Hcell. case_decide as Hab; [|done].
    destruct Hab as [-> ->]. apply Hs in Hold. rewrite !Z2Nat.id in Hold by lia.
    by rewrite (arc_weight_functional _ _ _ _ Hold Harc).
  - rewrite Hcell. by rewrite decide_True.
Qed.

(** The first loop, on the record [t]: the arcs into [t] are in place. *)
Lemma place_arcs_cells (matrix matrix' : list (list cell)) (t : task) :
  t ∈ tasks → sound_cells tasks matrix →
  place_arcs tasks matrix t = Ok matrix' →
  sound_cells tasks matrix' ∧ keeps_cells matrix matrix' ∧
  ∀ i d, arc_weight tasks i (task_id t) d →
    (task_preds t = [] ∧ i = 0 ∨ i ∈ task_preds t) →
    matrix_cell matrix' (Z.to_nat i) (Z.to_nat (task_id t)) = Some (W d).
Proof.
  intros Ht Hs Hplace. destruct t as [[t_id dur] preds].
  unfold place_arcs in Hplace. unfold task_id, task_preds. simpl.
  destruct preds as [|p0 preds].
  - assert (Harc : arc_weight tasks 0 t_id 0) by (by eapply aw_alpha).
    destruct (write_arc _ _ _ _ _ Hs Harc Hplace) as (Hs' & Hk & Hc).
    split; [done|]. split; [done|].
    intros i d Hi [[_ ->]|Hin]; [|by apply not_elem_of_nil in Hin].
    by rewrite (arc_weight_functional _ _ _ _ Hi Harc).
  - apply (foldM_ind _ (λ done m, sound_cells tasks m ∧ keeps_cells matrix m ∧
             ∀ i d, arc_weight tasks i t_id d → i ∈ done →
               matrix_cell m (Z.to_nat i) (Z.to_nat t_id) = Some (W d))) in Hplace.
    + destruct Hplace as (Hs' & Hk & Hc). split; [done|]. split; [done|].
      intros i d Hi [[? _]|Hin]; [done|]. by apply Hc.
    + split; [done|]. split; [by intros a b d|].
      intros i d _ Hin. by apply not_elem_of_nil in Hin.
    + intros done p m1 m2 Hp (Hs1 & Hk1 & Hc1) Hstep.
      destruct (pred_duration p tasks) as [dp|] eqn:Hdp.
      * destruct (pred_duration_elem _ _ _ Hdp) as [predsp Htp].
        assert (Harc : arc_weight tasks p t_id dp) by (by eapply aw_pred).
        destruct (write_arc _ _ _ _ _ Hs1 Harc Hstep) as (Hs2 & Hk2 & Hc2).
        split; [done|]. split; [intros a b d Hab; by apply Hk2, Hk1|].
        intros i d Hi [Hin|Hin]%elem_of_app; [by apply Hk2, Hc1|].
        apply list_elem_of_singleton in Hin as ->.
        by rewrite (arc_weight_functional _ _ _ _ Hi Harc).
      * injection Hstep as <-. split; [done|]. split; [done|].
        intros i d Hi [Hin|Hin]%elem_of_app; [by apply Hc1|].
        apply list_elem_of_singleton in Hin as ->. exfalso.
        pose proof (dense_task_range _ _ _ Ht) as Hr.
        inversion Hi as [? ? Ht'|? ? ? ? ? ? Ht' Hp' Htp'|? ? ? Ht' Hnp']; subst.
        -- injection (task_unique tasks _ _ Hnodup Ht Ht' eq_refl). done.
        -- rewrite (pred_duration_NoDup _ _ _ _ Hnodup Htp') in Hdp. done.
        -- unfold matrix_omega in *. lia.
Qed.

Lemma build_adjacency_matrix_cells_of (matrix : list (list cell)) :
  build_adjacency_matrix tasks = Ok matrix →
  ∀ (i j : nat) (d : Z),
    matrix_cell matrix i j = Some (W d) ↔ arc_weight tasks (Z.of_nat i) (Z.of_nat j) d.
Proof.
  unfold build_adjacency_matrix. intros H.
  apply bind_Ok in H as (m1 & H1 & H2).
  apply (foldM_ind _ (λ done m, sound_cells tasks m ∧
           ∀ t, t ∈ done → ∀ i d, arc_weight tasks i (task_id t) d →
             (task_preds t = [] ∧ i = 0 ∨ i ∈ task_preds t) →
             matrix_cell m (Z.to_nat i) (Z.to_nat (task_id t)) = Some (W d))) in H1.
  - destruct H1 as [Hs1 Hc1].
    apply (foldM_ind _ (λ done m, sound_cells tasks m ∧ keeps_cells m1 m ∧
             ∀ t, t ∈ done → task_id t ∈ no_succ tasks →
               matrix_cell m (Z.to_nat (task_id t)) (Z.to_nat (matrix_omega tasks))
               = Some (W (task_dur t)))) in H2.
    + destruct H2 as ([_ Hs2] & Hk2 & Hc2). intros i j d. split; [apply Hs2|].
      assert (Hall : ∀ a b : Z, arc_weight tasks a b d →
                matrix_cell matrix (Z.to_nat a) (Z.to_nat b) = Some (W d)).
      { intros a b Harc. pose proof Harc as Harc'.
        destruct Harc' as [t_id dur Ht|p dp predsp t_id dur preds Ht Hp Htp
                           |t_id dur preds Ht Hnp].
        - apply Hk2. apply (Hc1 _ Ht 0 0); [done|]. by left.
        - apply Hk2. apply (Hc1 _ Ht p dp); [done|]. by right.
        - apply (Hc2 _ Ht). apply elem_of_no_succ.
          split; [by apply (task_id_elem _ _ Ht) | done]. }
      intros Harc. apply Hall in Harc. by rewrite !Nat2Z.id in Harc.
    + split; [done|]. split; [by intros a b d|].
      intros t Ht. by apply not_elem_of_nil in Ht.
    + intros done [[t_id dur] preds] ma mb Ht (Hsa & Hka & Hca) Hstep.
      case_bool_decide as Hns.
      * apply elem_of_no_succ in Hns as [_ Hnp].
        assert (Harc : arc_weight tasks t_id (matrix_omega tasks) dur) by (by eapply aw_omega).
        destruct (write_arc _ _ _ _ _ Hsa Harc Hstep) as (Hsb & Hkb & Hcb).
        split; [done|]. split; [intros a b d Hab; by apply Hkb, Hka|].
        intros t [Hin|Hin]%elem_of_app Htns; [by apply Hkb, Hca|].
        by apply list_elem_of_singleton in Hin as ->.
      * injection Hstep as <-. split; [done|]. split; [done|].
        intros t [Hin|Hin]%elem_of_app Htns; [by apply Hca|].
        by apply list_elem_of_singleton in Hin as ->.
  - split.
    + split; [apply replicate_square|]. intros a b d Hc.
      by apply matrix_cell_replicate in Hc.
    + intros t Ht. by apply not_elem_of_nil in Ht.
  - intros done t ma mb Ht [Hsa Hca] Hstep.
    destruct (place_arcs_cells _ _ _ Ht Hsa Hstep) as (Hsb & Hkb & Hcb).
    split; [done|].
    intros t' [Hin|Hin]%elem_of_app i d Harc Hcase.
    + by apply Hkb, Hca.
    + apply list_elem_of_singleton in Hin as ->. by apply Hcb.
Qed.
End built_cells.

(** X2. When the task ids are pairwise distinct and lie in [1 .. n],
    [build_adjacency_matrix] returns a matrix whose cell [(i, j)] holds the
    weight [d] exactly when the TaskSet has the arc [i -> j] of weight [d]:
    [0 -> t] of weight 0 for a task without predecessor, [p -> t] weighted by
    the duration of the predecessor [p] when [p] is a task, [t -> omega]
    weighted by the duration of [t] when [t] is in no predecessor list.
    Every other cell is ["*"]. *)
Theorem build_adjacency_matrix_cells (tasks : list task) :
  dense_ids tasks → NoDup (task_ids tasks) →
  ∃ matrix, build_adjacency_matrix tasks = Ok matrix ∧
    (∀ (i j : nat) (d : Z),
       matrix_cell matrix i j = Some (W d) ↔
       arc_weight tasks (Z.of_nat i) (Z.of_nat j) d) ∧
    (∀ i j : nat, (i < length tasks + 2)%nat → (j < length tasks + 2)%nat →
       (∀ d, ¬ arc_weight tasks (Z.of_nat i) (Z.of_nat j) d) →
       matrix_cell matrix i j = Some Star).
Proof.
  intros Hdense Hnodup.
  destruct (build_adjacency_matrix_dense tasks Hdense) as (matrix & Hb & _).
  pose proof (build_adjacency_matrix_cells_of tasks Hdense Hnodup matrix Hb) as Hcells.
  exists matrix. split; [done|]. split; [done|].
  intros i j Hi Hj Hnone.
  destruct (build_adjacency_matrix_square _ _ Hb) as [Hlen Hrows].
  unfold matrix_cell.
  destruct (lookup_lt_is_Some_2 matrix i) as [row Hrow]; [lia|]. rewrite Hrow. simpl.
  assert (length row = (length tasks + 2)%nat) by (by eapply Forall_lookup_1 in Hrows).
  destruct (lookup_lt_is_Some_2 row j) as [c Hc]; [lia|]. rewrite Hc.
  destruct c as [|d]; [done|]. exfalso. apply (Hnone d), Hcells.
  unfold matrix_cell. rewrite Hrow. simpl. done.
Qed.

Lemma build_adjacency_matrix_cells_witness :
  dense_ids example_tasks ∧ NoDup (task_ids example_tasks) ∧
  ∃ matrix, build_adjacency_matrix example_tasks = Ok matrix ∧
    (∀ (i j : nat) (d : Z),
       matrix_cell matrix i j = Some (W d) ↔
       arc_weight example_tasks (Z.of_nat i) (Z.of_nat j) d) ∧
    (∀ i j : nat, (i < length example_tasks + 2)%nat → (j < length example_tasks + 2)%nat →
       (∀ d, ¬ arc_weight example_tasks (Z.of_nat i) (Z.of_nat j) d) →
       matrix_cell matrix i j = Some Star).
Proof.
  assert (Hd : dense_ids example_tasks).
  { apply (bool_decide_unpack _). vm_compute. exact I. }
  assert (Hn : NoDup (task_ids example_tasks)).
  { apply (bool_decide_unpack _). vm_compute. exact I. }
  split; [exact Hd|]. split; [exact Hn|].
  exact (build_adjacency_matrix_cells example_tasks Hd Hn).
Defined.

(** ** Validator and GraphBuilder: negative durations and negative weights *)

Lemma has_negative_arcs_false (tasks : list task) :
  has_negative_arcs tasks = false ↔ ∀ t, t ∈ tasks → 0 ≤ task_dur t.
Proof.
  unfold has_negative_arcs. rewrite <- not_true_iff_false, existsb_exists. split.
  - intros Hno t Ht. destruct (decide (0 ≤ task_dur t)) as [|Hneg]; [done|].
    exfalso. apply Hno. exists t. split; [by apply list_elem_of_In|].
    apply bool_decide_eq_true_2. lia.
  - intros Hall (t & Ht%list_elem_of_In & Hneg%bool_decide_eq_true_1).
    specialize (Hall t Ht). lia.
Qed.

Lemma has_negative_arcs_true (tasks : list task) :
  has_negative_arcs tasks = true ↔ ∃ t, t ∈ tasks ∧ task_dur t < 0.
Proof.
  unfold has_negative_arcs. rewrite existsb_exists. split.
  - intros (t & Ht%list_elem_of_In & Hneg%bool_decide_eq_true_1). eauto.
  - intros (t & Ht & Hneg). exists t. split; [by apply list_elem_of_In|].
    by apply bool_decide_eq_true_2.
Qed.

Lemma matrix_set_weights (matrix matrix' : list (list cell)) (i j w : Z) :
  0 ≤ w →
  matrix_set matrix i j (W w) = Ok matrix' →
  (∀ a b d, matrix_cell matrix a b = Some (W d) → 0 ≤ d) →
  ∀ a b d, matrix_cell matrix' a b = Some (W d) → 0 ≤ d.
Proof.
  intros Hw (x & y & _ & _ & Hcell)%matrix_set_cell Hold a b d.
  rewrite Hcell. case_decide; [by intros [= <-] | apply Hold].
Qed.

(** X3. The validator and the matrix agree on negative arcs.  When no task
    has a negative duration ([has_negative_arcs] returns false), every weight
    of a built matrix is non-negative, whatever the ids and predecessor lists
    are; and when the ids are pairwise distinct and lie in [1 .. n], a
    negative duration (on which [has_negative_arcs] returns true) does show
    up as a negative weight of the matrix. *)
Theorem has_negative_arcs_matrix (tasks : list task) (matrix : list (list cell)) :
  build_adjacency_matrix tasks = Ok matrix →
  (has_negative_arcs tasks = false →
   ∀ i j d, matrix_cell matrix i j = Some (W d) → 0 ≤ d) ∧
  (dense_ids tasks → NoDup (task_ids tasks) → has_negative_arcs tasks = true →
   ∃ i j d, matrix_cell matrix i j = Some (W d) ∧ d < 0).
Proof.
  intros Hb. split.
  - intros Hpos. pose proof (proj1 (has_negative_arcs_false tasks) Hpos) as Hall.
    clear Hpos. rename Hall into Hpos. unfold build_adjacency_matrix in Hb.
    apply bind_Ok in Hb as (m1 & H1 & H2).
    set (nonneg := λ m : list (list cell),
           ∀ a b d, matrix_cell m a b = Some (W d) → 0 ≤ d).
    assert (Hm1 : nonneg m1).
    { apply (foldM_ind _ (λ _ m, nonneg m)) in H1; [done| |].
      - intros a b d Hc. by apply matrix_cell_replicate in Hc.
      - intros _ [[t_id dur] preds] ma mb Ht Hma Hstep. unfold place_arcs in Hstep.
        destruct preds as [|p0 preds];
          [exact (matrix_set_weights _ _ _ _ 0 ltac:(done) Hstep Hma)|].
        apply (foldM_ind _ (λ _ m, nonneg m)) in Hstep; [done|done|].
        intros _ p m2 m3 _ Hm2 Hset.
        destruct (pred_duration p tasks) as [dp|] eqn:Hdp; [|by injection Hset as <-].
        apply pred_duration_elem in Hdp as [predsp Htp].
        exact (matrix_set_weights _ _ _ _ _ (Hpos _ Htp) Hset Hm2). }
    apply (foldM_ind _ (λ _ m, nonneg m)) in H2; [done|done|].
    intros _ [[t_id dur] preds] ma mb Ht Hma Hstep.
    case_bool_decide; [|by injection Hstep as <-].
    exact (matrix_set_weights _ _ _ _ _ (Hpos _ Ht) Hstep Hma).
  - intros Hdense Hnodup (t & Ht & Hneg)%has_negative_arcs_true.
    pose proof (build_adjacency_matrix_cells_of tasks Hdense Hnodup matrix Hb) as Hcells.
    destruct t as [[t_id dur] preds]. unfold task_dur in Hneg. simpl in Hneg.
    pose proof (dense_ids_range tasks _ Hdense (task_id_elem _ _ Ht)) as Hr.
    unfold task_id in Hr. simpl in Hr.
    destruct (decide (never_predecessor tasks t_id)) as [Hnp|Hnp].
    + exists (Z.to_nat t_id), (Z.to_nat (matrix_omega tasks)), dur. split; [|done].
      apply Hcells. rewrite !Z2Nat.id by (unfold matrix_omega; lia).
      by eapply aw_omega.
    + unfold never_predecessor in Hnp. apply not_Forall_Exists in Hnp; [|apply _].
      apply Exists_exists in Hnp as ([[s_id sdur] spreds] & Hs & Hin).
      apply dec_stable in Hin. unfold task_preds in Hin. simpl in Hin.
      pose proof (dense_ids_range tasks _ Hdense (task_id_elem _ _ Hs)) as Hrs.
      unfold task_id in Hrs. simpl in Hrs.
      exists (Z.to_nat t_id), (Z.to_nat s_id), dur. split; [|done].
      apply Hcells. rewrite !Z2Nat.id by lia. by eapply aw_pred.
Qed.

Lemma has_negative_arcs_matrix_witness :
  build_adjacency_matrix [(1, -3, []); (2, 2, [1])]
  = Ok [[Star; W 0; Star; Star]; [Star; Star; W (-3); Star];
        [Star; Star; Star; W 2]; [Star; Star; Star; Star]] ∧
  ∃ i j d, matrix_cell [[Star; W 0; Star; Star]; [Star; Star; W (-3); Star];
                         [Star; Star; Star; W 2]; [Star; Star; Star; Star]] i j
           = Some (W d) ∧ d < 0.
Proof.
  assert (Hb : build_adjacency_matrix [(1, -3, []); (2, 2, [1])]
               = Ok [[Star; W 0; Star; Star]; [Star; Star; W (-3); Star];
                     [Star; Star; Star; W 2]; [Star; Star; Star; Star]]).
  { vm_compute. reflexivity. }
  split; [exact Hb|].
  apply (proj2 (has_negative_arcs_matrix _ _ Hb)).
  - apply (bool_decide_unpack _). vm_compute. exact I.
  - apply (bool_decide_unpack _). vm_compute. exact I.
  - vm_compute. reflexivity.
Defined.

(** ** Validator: the cycle check decides acyclicity of the TaskSet *)

Lemma has_arc_cell (matrix : list (list cell)) (i j : nat) :
  has_arc matrix i j = true ↔ ∃ d, matrix_cell matrix i j = Some (W d).
Proof.
  unfold has_arc, matrix_cell. destruct (matrix !! i) as [row|]; simpl.
  - destruct (row !! j) as [[|d]|]; split; (eauto || intros [? [=]] || done).
  - split; [done | intros [? [=]]].
Qed.

(** Distinct ids in [1 .. n] are exactly [1 .. n]: both components then
    place the end vertex at [n + 1]. *)
Lemma dense_NoDup_omega (tasks : list task) :
  dense_ids tasks → NoDup (task_ids tasks) → matrix_omega tasks = omega_of tasks.
Proof.
  intros Hdense Hnodup. unfold matrix_omega, omega_of.
  destruct (foldr_max_spec (task_ids tasks)) as [Hin Hle].
  assert (Hmax : foldr Z.max 0 (task_ids tasks) = Z.of_nat (length tasks)); [|lia].
  apply Z.le_antisymm.
  - apply elem_of_cons in Hin as [->|Hin]; [lia|].
    by apply (dense_ids_range tasks _ Hdense) in Hin as [_ ?].
  - destruct (decide (length tasks = 0%nat)) as [->|Hne]; [apply Hle; set_solver|].
    apply Hle. right.
    assert (Hperm : task_ids tasks ≡ₚ seqZ 1 (Z.of_nat (length tasks))).
    { apply submseteq_length_Permutation.
      - apply NoDup_submseteq; [done|]. intros x Hx.
        apply (dense_ids_range tasks _ Hdense) in Hx. apply elem_of_seqZ. lia.
      - rewrite length_seqZ. unfold task_ids. rewrite length_fmap. lia. }
    rewrite Hperm. apply elem_of_seqZ. lia.
Qed.

Section graph_of_matrix.
Variable tasks : list task.
Hypothesis Hdense : dense_ids tasks.
Hypothesis Hnodup : NoDup (task_ids tasks).
Hypothesis Hresolved : resolved tasks.

Lemma edge_arc_weight (u v : Z) :
  edge tasks u v ↔ ∃ d, arc_weight tasks u v d.
Proof.
  pose proof (dense_NoDup_omega tasks Hdense Hnodup) as Homega. split.
  - intros [t_id dur Ht|p t_id dur preds Ht Hp|t_id Hid Hterm].
    + exists 0. by eapply aw_alpha.
    + pose proof (resolved_pred _ _ _ Hresolved Ht Hp) as Hpid.
      apply list_elem_of_fmap in Hpid as ([[p' dp] predsp] & Heq & Htp).
      unfold task_id in Heq. simpl in Heq. subst p'.
      exists dp. by eapply aw_pred.
    + apply list_elem_of_fmap in Hid as ([[t' dur] preds] & Heq & Ht).
      unfold task_id in Heq. simpl in Heq. subst t'.
      exists dur. rewrite <- Homega. by eapply aw_omega.
  - intros [d [t_id dur Ht|p dp predsp t_id dur preds Ht Hp Htp|t_id dur preds Ht Hnp]].
    + by eapply edge_alpha.
    + by eapply edge_pred.
    + rewrite Homega. apply edge_omega; [|done]. by apply (task_id_elem _ _ Ht).
Qed.

Lemma built_arc_edge (matrix : list (list cell)) (i j : nat) :
  build_adjacency_matrix tasks = Ok matrix →
  arc matrix i j ↔ edge tasks (Z.of_nat i) (Z.of_nat j).
Proof.
  intros Hb. unfold arc. rewrite has_arc_cell, edge_arc_weight.
  split; intros [d Hd]; exists d;
    by apply (build_adjacency_matrix_cells_of tasks Hdense Hnodup matrix Hb).
Qed.

Lemma edge_nonneg (u v : Z) : edge tasks u v → 0 ≤ u ∧ 0 ≤ v.
Proof.
  intros [d Hd]%edge_arc_weight.
  apply (arc_weight_range tasks Hdense) in Hd. lia.
Qed.

Lemma built_cycle_iff (matrix : list (list cell)) :
  build_adjacency_matrix tasks = Ok matrix →
  has_cycle matrix ↔ ∃ v, tc (edge tasks) v v.
Proof.
  intros Hb.
  assert (Hto : ∀ a b, tc (arc matrix) a b → tc (edge tasks) (Z.of_nat a) (Z.of_nat b)).
  { induction 1 as [a b Hab|a b c Hab _ IH].
    - apply tc_once. by apply (built_arc_edge matrix).
    - eapply tc_l; [|exact IH]. by apply (built_arc_edge matrix). }
  assert (Hfrom : ∀ u v, tc (edge tasks) u v → tc (arc matrix) (Z.to_nat u) (Z.to_nat v)).
  { induction 1 as [u v Huv|u v w Huv _ IH].
    - apply tc_once. destruct (edge_nonneg _ _ Huv).
      apply (built_arc_edge matrix _ _ Hb). by rewrite !Z2Nat.id by lia.
    - eapply tc_l; [|exact IH]. destruct (edge_nonneg _ _ Huv).
      apply (built_arc_edge matrix _ _ Hb). by rewrite !Z2Nat.id by lia. }
  unfold has_cycle. split.
  - intros [v Hv]. exists (Z.of_nat v). by apply Hto.
  - intros [v Hv]. exists (Z.to_nat v). by apply Hfrom.
Qed.
End graph_of_matrix.

(** C5 (counterexample).  With the ids [1] and [3] the scheduling graph
    [0 -> 1 -> 3 -> 4] of the TaskSet has no cycle, the ids are pairwise
    distinct and every predecessor is a task, but the matrix has 4 rows and
    its end column is 3: the arc of the terminal task 3 is written on the
    diagonal cell [(3, 3)], and [detect_cycle] answers [True]. *)
Lemma detect_cycle_true_on_sparse_ids :
  acyclic sparse_tasks ∧
  NoDup (task_ids sparse_tasks) ∧ resolved sparse_tasks ∧
  build_adjacency_matrix sparse_tasks
  = Ok [[Star; W 0; Star; Star]; [Star; Star; Star; W 0];
        [Star; Star; Star; Star]; [Star; Star; Star; W 0]] ∧
  detect_cycle (S (count_vertices sparse_tasks))
    [[Star; W 0; Star; Star]; [Star; Star; Star; W 0];
     [Star; Star; Star; Star]; [Star; Star; Star; W 0]] = Some (Ok true).
Proof.
  split.
  { eapply (acyclic_of_ranks sparse_tasks 3).
    - apply (bool_decide_unpack _). vm_compute. exact I.
    - vm_compute. reflexivity. }
  split; [apply (bool_decide_unpack _); vm_compute; exact I|].
  split; [apply (bool_decide_unpack _); vm_compute; exact I|].
  split; vm_compute; reflexivity.
Qed.

(** C5 (amended).  For every TaskSet whose ids are pairwise distinct and lie
    in [1 .. n] and whose predecessor ids are all task ids, the matrix is
    built and [detect_cycle] returns on it (within [n + 3] pops, and with the
    same answer for any fuel that lets it return) true if and only if the
    scheduling graph of the TaskSet (start → task without predecessor,
    predecessor → task, terminal task → end) contains a cycle.  For any
    TaskSet at all, the answer is true exactly when the arcs of the built
    matrix contain a cycle.  It is true for two tasks that depend on each
    other and false for the empty TaskSet. *)
Theorem detect_cycle_correct :
  (∀ tasks, dense_ids tasks → NoDup (task_ids tasks) → resolved tasks →
     ∃ matrix b,
       build_adjacency_matrix tasks = Ok matrix ∧
       detect_cycle (S (count_vertices tasks)) matrix = Some (Ok b) ∧
       (b = true ↔ ∃ v, tc (edge tasks) v v) ∧
       ∀ fuel out, detect_cycle fuel matrix = Some out → out = Ok b) ∧
  (∀ tasks matrix, build_adjacency_matrix tasks = Ok matrix →
     ∃ b, detect_cycle (S (count_vertices tasks)) matrix = Some (Ok b) ∧
       (b = true ↔ has_cycle matrix)) ∧
  (∀ d1 d2, ∃ matrix,
     build_adjacency_matrix (cyclic_pair d1 d2) = Ok matrix ∧
     detect_cycle (S (count_vertices (cyclic_pair d1 d2))) matrix = Some (Ok true)) ∧
  (∃ matrix,
     build_adjacency_matrix [] = Ok matrix ∧
     detect_cycle (S (count_vertices [])) matrix = Some (Ok false)).
Proof.
  split; [|split; [|split]].
  - intros tasks Hdense Hnodup Hres.
    destruct (build_adjacency_matrix_dense tasks Hdense) as (matrix & Hb & _).
    destruct (detect_cycle_square _ _ (build_adjacency_matrix_square _ _ Hb))
      as (b & Hrun & Hcyc).
    exists matrix, b. split; [exact Hb|]. split; [exact Hrun|]. split.
    + rewrite Hcyc. by apply built_cycle_iff.
    + intros fuel out Hout.
      pose proof (detect_cycle_fuel_mono _ (Nat.max fuel (S (count_vertices tasks))) _ _
                    Hout (Nat.le_max_l _ _)) as H1.
      pose proof (detect_cycle_fuel_mono _ (Nat.max fuel (S (count_vertices tasks))) _ _
                    Hrun (Nat.le_max_r _ _)) as H2.
      congruence.
  - intros tasks matrix Hsq%build_adjacency_matrix_square.
    by apply detect_cycle_square.
  - intros d1 d2. eexists. split; vm_compute; reflexivity.
  - eexists. split; vm_compute; reflexivity.
Qed.

Lemma detect_cycle_correct_witness :
  dense_ids example_tasks ∧ NoDup (task_ids example_tasks) ∧ resolved example_tasks ∧
  ∃ matrix b,
    build_adjacency_matrix example_tasks = Ok matrix ∧
    detect_cycle (S (count_vertices example_tasks)) matrix = Some (Ok b) ∧
    (b = true ↔ ∃ v, tc (edge example_tasks) v v) ∧
    ∀ fuel out, detect_cycle fuel matrix = Some out → out = Ok b.
Proof.
  assert (Hd : dense_ids example_tasks).
  { apply (bool_decide_unpack _). vm_compute. exact I. }
  assert (Hn : NoDup (task_ids example_tasks)).
  { apply (bool_decide_unpack _). vm_compute. exact I. }
  assert (Hr : resolved example_tasks).
  { apply (bool_decide_unpack _). vm_compute. exact I. }
  split; [exact Hd|]. split; [exact Hn|]. split; [exact Hr|].
  exact (proj1 detect_cycle_correct example_tasks Hd Hn Hr).
Defined.

(** X4. For a TaskSet whose ids are pairwise distinct and lie in [1 .. n]
    and whose predecessor ids are all task ids, [detect_cycle] on the built
    matrix returns (within [n + 3] pops) false exactly when the scheduling
    graph of the TaskSet is acyclic, and true exactly when it has a cycle. *)
Theorem detect_cycle_decides_acyclic (tasks : list task) :
  dense_ids tasks → NoDup (task_ids tasks) → resolved tasks →
  ∃ matrix b,
    build_adjacency_matrix tasks = Ok matrix ∧
    detect_cycle (S (count_vertices tasks)) matrix = Some (Ok b) ∧
    (b = false ↔ acyclic tasks) ∧
    (b = true ↔ ∃ v, tc (edge tasks) v v).
Proof.
  intros Hdense Hnodup Hres.
  destruct (build_adjacency_matrix_dense tasks Hdense) as (matrix & Hb & _).
  destruct (detect_cycle_square _ _ (build_adjacency_matrix_square _ _ Hb))
    as (b & Hrun & Hcyc).
  pose proof (built_cycle_iff tasks Hdense Hnodup Hres matrix Hb) as Hiff.
  exists matrix, b. split; [done|]. split; [exact Hrun|]. split.
  - split.
    + intros -> v Hv.
      assert (false = true); [|done]. apply Hcyc, Hiff. eauto.
    + intros Hac. destruct b; [|done].
      destruct (proj1 Hiff (proj1 Hcyc eq_refl)) as [v Hv]. by apply Hac in Hv.
  - by rewrite Hcyc, Hiff.
Qed.

Lemma detect_cycle_decides_acyclic_witness :
  dense_ids example_tasks ∧ NoDup (task_ids example_tasks) ∧ resolved example_tasks ∧
  ∃ matrix b,
    build_adjacency_matrix example_tasks = Ok matrix ∧
    detect_cycle (S (count_vertices example_tasks)) matrix = Some (Ok b) ∧
    (b = false ↔ acyclic example_tasks) ∧
    (b = true ↔ ∃ v, tc (edge example_tasks) v v).
Proof.
  assert (Hd : dense_ids example_tasks).
  { apply (bool_decide_unpack _). vm_compute. exact I. }
  assert (Hn : NoDup (task_ids example_tasks)).
  { apply (bool_decide_unpack _). vm_compute. exact I. }
  assert (Hr : resolved example_tasks).
  { apply (bool_decide_unpack _). vm_compute. exact I. }
  split; [exact Hd|]. split; [exact Hn|]. split; [exact Hr|].
  exact (detect_cycle_decides_acyclic example_tasks Hd Hn Hr).
Defined.

(** ** RankAssigner: the returned ranks are the longest-path ranks *)

Lemma relaxed_rank_bounded (tasks : list task) (ranks ranks' : gmap Z Z) (t : task) (b : bool) :
  NoDup (task_ids tasks) → t ∈ tasks →
  rank_bounded tasks ranks → relaxed ranks t ranks' b → rank_bounded tasks ranks'.
Proof.
  intros Hnodup Ht [Hroot Hpred] Hrel.
  assert (Hmono : ∀ v, rank_of ranks v ≤ rank_of ranks' v).
  { intros v. by eapply relaxed_mono. }
  assert (Hother : ∀ t', t' ∈ tasks → t' ≠ t →
            rank_of ranks' (task_id t') = rank_of ranks (task_id t')).
  { intros t' Ht' Hne. eapply relaxed_other; [done|].
    intros Heq. apply Hne. by eapply task_unique. }
  split.
  - intros t' Ht' Hnil. destruct (decide (t' = t)) as [->|Hne].
    + inversion Hrel as [Hst|p Hp _ _|Hnil' Hid Hr0]; subst.
      * by apply Hroot.
      * rewrite Hnil in Hp. by apply not_elem_of_nil in Hp.
      * rewrite rank_of_insert. rewrite decide_True by done. by rewrite decide_False.
    + rewrite (Hother t' Ht' Hne). by apply Hroot.
  - intros t' Ht' Hne'. destruct (decide (t' = t)) as [->|Hne].
    + inversion Hrel as [Hst|p Hp Hmax Hlt|Hnil' Hid Hr0]; subst.
      * by apply Hpred.
      * right. exists p. split; [done|]. rewrite rank_of_insert.
        rewrite decide_True by done. rewrite rank_of_insert.
        case_decide; lia.
      * done.
    + rewrite (Hother t' Ht' Hne).
      destruct (Hpred t' Ht' Hne') as [?|(p & Hp & Hle)]; [by left|].
      right. exists p. split; [done|]. specialize (Hmono p). lia.
Qed.

Lemma relax_pass_rank_bounded (tasks : list task) (ranks ranks' : gmap Z Z) (c : bool) :
  NoDup (task_ids tasks) → ranks_ok tasks ranks →
  rank_bounded tasks ranks →
  relax_pass tasks (omega_of tasks) ranks = Ok (ranks', c) →
  rank_bounded tasks ranks'.
Proof.
  intros Hnodup [Hdom _] Hb Hpass. unfold relax_pass in Hpass.
  apply bind_Ok in Hpass as ([r1 c1] & Hfold & H).
  apply bind_Ok in H as (cur & Hcur & H). apply bind_Ok in H as (r & Hr & H).
  pose proof (relax_tasks_dom _ _ _ _ _ Hfold) as Hdom1.
  apply (relax_tasks_inv tasks (rank_bounded tasks)) in Hfold;
    [|by intros; eapply relaxed_rank_bounded|done].
  case_bool_decide; injection H as <- _; [|done].
  apply omega_rank_spec in Hcur as [_ Hle].
  destruct Hfold as [Hroot Hpred].
  assert (Hid : ∀ t, t ∈ tasks →
            rank_of (<[omega_of tasks := cur]> r1) (task_id t) = rank_of r1 (task_id t)).
  { intros t Ht. rewrite rank_of_insert. case_decide as Heq; [|done].
    pose proof (omega_of_gt _ _ (task_id_elem _ _ Ht)). lia. }
  split.
  - intros t Ht Hnil. rewrite (Hid t Ht). by apply Hroot.
  - intros t Ht Hne. rewrite (Hid t Ht).
    destruct (Hpred t Ht Hne) as [?|(p & Hp & Hlep)]; [by left|].
    right. exists p. split; [done|]. rewrite rank_of_insert. case_decide as Heq; [|done].
    assert (rank_of r1 (task_id t) + 1 ≤ cur); [|lia].
    pose proof (omega_of_gt _ _ (task_id_elem _ _ Ht)).
    apply Hle; [|lia]. rewrite Hdom1, Hdom.
    apply elem_of_union_l, elem_of_union_r, elem_of_list_to_set. by apply task_id_elem.
Qed.

Lemma init_rank_bounded (tasks : list task) :
  rank_bounded tasks (<[omega_of tasks := 0]> (init_ranks tasks)).
Proof.
  assert (Hz : ∀ v, rank_of (<[omega_of tasks := 0]> (init_ranks tasks)) v = 0).
  { intros v. rewrite rank_of_insert. case_decide; [done|].
    unfold rank_of. destruct (init_ranks tasks !! v) eqn:Hv; [|done].
    by apply init_ranks_lookup in Hv. }
  split.
  - intros t _ _. rewrite Hz. case_decide; lia.
  - intros t _ _. left. apply Hz.
Qed.

Lemma assign_ranks_rank_bounded (fuel : nat) (tasks : list task) (ranks : gmap Z Z) :
  NoDup (task_ids tasks) →
  assign_ranks fuel tasks = Some (Ok ranks) → rank_bounded tasks ranks.
Proof.
  intros Hnodup. unfold assign_ranks. rewrite rank_omega_eq. intros H.
  apply (relax_loop_inv (λ r, ranks_ok tasks r ∧ rank_bounded tasks r)) in H.
  - by destruct H as [[_ ?] _].
  - intros r r' c [Hok Hb] Hpass.
    split; [by eapply relax_pass_ranks_ok | by eapply relax_pass_rank_bounded].
  - split; [apply init_ranks_ok | apply init_rank_bounded].
Qed.

(** X5. When the task ids are pairwise distinct, the rank map returned by
    [assign_ranks] is the longest-path ranking, with equalities: its keys
    are [0], the task ids and the end vertex; a task without predecessor has
    rank 1 (rank 0 when its id is [0]); a task with predecessors has rank
    exactly one more than the largest rank of its predecessors, all of which
    are keys; and the end vertex has rank exactly one more than the largest
    rank of the other keys. *)
Theorem assign_ranks_longest_path (tasks : list task) (fuel : nat) (ranks : gmap Z Z) :
  NoDup (task_ids tasks) →
  assign_ranks fuel tasks = Some (Ok ranks) →
  dom ranks = {[0]} ∪ list_to_set (task_ids tasks) ∪ {[omega_of tasks]} ∧
  (0 ∉ task_ids tasks → ranks !! 0 = Some 0) ∧
  (∀ t, t ∈ tasks → task_preds t = [] →
     ranks !! task_id t = Some (if decide (task_id t = 0) then 0 else 1)) ∧
  (∀ t, t ∈ tasks → task_preds t ≠ [] →
     ∃ p rp, p ∈ task_preds t ∧ ranks !! p = Some rp ∧
       ranks !! task_id t = Some (rp + 1) ∧
       ∀ q, q ∈ task_preds t → ∃ rq, ranks !! q = Some rq ∧ rq ≤ rp) ∧
  (∃ v rv, v ≠ omega_of tasks ∧ ranks !! v = Some rv ∧
     ranks !! omega_of tasks = Some (rv + 1) ∧
     ∀ u ru, u ≠ omega_of tasks → ranks !! u = Some ru → ru ≤ rv).
Proof.
  intros Hnodup Hrun.
  pose proof (assign_ranks_rank_bounded _ _ _ Hnodup Hrun) as [Hroot Hpred].
  pose proof (assign_ranks_dom _ _ _ Hrun) as Hdom.
  apply assign_ranks_fixpoint in Hrun as [Hok Hfix].
  pose proof Hok as (_ & Hnn & Hzero).
  assert (Hkey : ∀ t, t ∈ tasks → task_id t ∈ dom ranks).
  { intros t Ht. rewrite Hdom.
    apply elem_of_union_l, elem_of_union_r, elem_of_list_to_set. by apply task_id_elem. }
  split; [done|]. split; [|split; [|split]].
  - intros H0. rewrite lookup_rank_of by (rewrite Hdom; set_solver). by rewrite Hzero.
  - intros t Ht Hnil. rewrite (lookup_rank_of _ _ (Hkey t Ht)). f_equal.
    specialize (Hroot t Ht Hnil). specialize (Hnn (task_id t)).
    destruct (fixpoint_stable tasks ranks Hfix t Ht) as [_ Hst].
    specialize (Hst Hnil). case_decide; [lia|]. destruct Hst; [done|lia].
  - intros t Ht Hne.
    destruct (fixpoint_stable tasks ranks Hfix t Ht) as [Hst _].
    assert (Hex : ∃ p, p ∈ task_preds t ∧ rank_of ranks (task_id t) ≤ rank_of ranks p + 1).
    { destruct (Hpred t Ht Hne) as [H0|?]; [|done].
      destruct (task_preds t) as [|p ps] eqn:Hps; [done|].
      exists p. split; [set_solver|]. specialize (Hnn p). lia. }
    destruct Hex as (p & Hp & Hle). exists p, (rank_of ranks p).
    split; [done|].
    split; [apply lookup_rank_of; by apply (fixpoint_pred tasks ranks Hfix t p Ht Hp)|].
    pose proof (Hst p Hp) as Hge. split.
    + rewrite (lookup_rank_of _ _ (Hkey t Ht)). f_equal. lia.
    + intros q Hq. exists (rank_of ranks q).
      split; [apply lookup_rank_of; by apply (fixpoint_pred tasks ranks Hfix t q Ht Hq)|].
      specialize (Hst q Hq). lia.
  - destruct (relax_pass_fixpoint _ _ _ _ Hfix) as (_ & _ & Hom & (v & Hv & Hne & Heq) & Hle).
    exists v, (rank_of ranks v). split; [done|].
    split; [by apply lookup_rank_of|]. split.
    + rewrite (lookup_rank_of _ _ Hom). by rewrite Heq.
    + intros u ru Hu Hru. pose proof (rank_of_lookup _ _ _ Hru) as <-.
      assert (rank_of ranks u + 1 ≤ rank_of ranks (omega_of tasks)); [|lia].
      apply Hle; [by eapply elem_of_dom_2 | done].
Qed.

Lemma assign_ranks_longest_path_witness :
  NoDup (task_ids example_tasks) ∧
  assign_ranks 2 example_tasks = Some (Ok example_ranks) ∧
  dom example_ranks = {[0]} ∪ list_to_set (task_ids example_tasks) ∪ {[omega_of example_tasks]} ∧
  (0 ∉ task_ids example_tasks → example_ranks !! 0 = Some 0) ∧
  (∀ t, t ∈ example_tasks → task_preds t = [] →
     example_ranks !! task_id t = Some (if decide (task_id t = 0) then 0 else 1)) ∧
  (∀ t, t ∈ example_tasks → task_preds t ≠ [] →
     ∃ p rp, p ∈ task_preds t ∧ example_ranks !! p = Some rp ∧
       example_ranks !! task_id t = Some (rp + 1) ∧
       ∀ q, q ∈ task_preds t → ∃ rq, example_ranks !! q = Some rq ∧ rq ≤ rp) ∧
  (∃ v rv, v ≠ omega_of example_tasks ∧ example_ranks !! v = Some rv ∧
     example_ranks !! omega_of example_tasks = Some (rv + 1) ∧
     ∀ u ru, u ≠ omega_of example_tasks → example_ranks !! u = Some ru → ru ≤ rv).
Proof.
  assert (Hn : NoDup (task_ids example_tasks)).
  { apply (bool_decide_unpack _). vm_compute. exact I. }
  assert (Hr : assign_ranks 2 example_tasks = Some (Ok example_ranks)).
  { vm_compute. reflexivity. }
  split; [exact Hn|]. split; [exact Hr|].
  exact (assign_ranks_longest_path example_tasks 2 example_ranks Hn Hr).
Defined.

(** ** RankAssigner: no return on a cyclic TaskSet *)

Lemma relax_pass_total (tasks : list task) (ranks : gmap Z Z) :
  resolved tasks → ranks_ok tasks ranks →
  ∃ ranks' c, relax_pass tasks (omega_of tasks) ranks = Ok (ranks', c).
Proof.
  intros Hres [Hdom _].
  assert (Hkey : ∀ i, i ∈ task_ids tasks → i ∈ dom ranks).
  { intros i Hi. rewrite Hdom. set_solver. }
  destruct (foldM_total relax_task (λ st, dom st.1 = dom ranks) tasks (ranks, false))
    as ([r1 c1] & Hfold & Hd1); [done| |].
  { intros t [r c] Ht Hd. simpl in Hd.
    destruct (relax_task_total r c t) as (r' & c' & Hstep).
    - rewrite Hd. by apply Hkey, task_id_elem.
    - intros p Hp. rewrite Hd. apply Hkey. by eapply resolved_pred.
    - exists (r', c'). split; [done|]. simpl. rewrite <- Hd. by eapply relax_task_dom. }
  simpl in Hd1. unfold relax_pass. rewrite Hfold. simpl.
  pose proof (omega_of_pos tasks) as Hpos.
  destruct (omega_rank_total (omega_of tasks) r1 0) as [cur ->];
    [rewrite Hd1, Hdom; set_solver | lia |]. simpl.
  assert (Hom : omega_of tasks ∈ dom r1) by (rewrite Hd1, Hdom; set_solver).
  apply lookup_rank_of, dict_get_Ok in Hom. rewrite Hom. simpl.
  case_bool_decide; eauto.
Qed.

Lemma relax_loop_no_raise (fuel : nat) (tasks : list task) (ranks : gmap Z Z) (x : exn) :
  resolved tasks → ranks_ok tasks ranks →
  relax_loop fuel tasks (omega_of tasks) ranks ≠ Some (Raise x).
Proof.
  intros Hres. revert ranks. induction fuel as [|fuel IH]; intros ranks Hok; simpl; [done|].
  destruct (relax_pass_total tasks ranks Hres Hok) as (r' & c & Hpass). rewrite Hpass.
  destruct c; [|done]. apply IH. by eapply relax_pass_ranks_ok.
Qed.

(** X6. On a TaskSet without a task of id [0] whose scheduling graph has a
    cycle, [assign_ranks] never returns a rank map, whatever the number of
    passes it is given; when moreover every predecessor id is a task id it
    raises nothing either: the [while changed] loop runs forever.  (This is
    the situation that the cycle check of the validator guards against.) *)
Theorem assign_ranks_diverges_on_cycle (tasks : list task) (v : Z) :
  0 ∉ task_ids tasks → tc (edge tasks) v v →
  (∀ fuel ranks, assign_ranks fuel tasks ≠ Some (Ok ranks)) ∧
  (resolved tasks → ∀ fuel, assign_ranks fuel tasks = None).
Proof.
  intros H0 Hcycle.
  assert (Hnot : ∀ fuel ranks, assign_ranks fuel tasks ≠ Some (Ok ranks)).
  { intros fuel ranks Hrun. by apply (acyclic_of_ranks tasks fuel ranks H0 Hrun v). }
  split; [exact Hnot|]. intros Hres fuel.
  destruct (assign_ranks fuel tasks) as [[ranks|x]|] eqn:Hrun; [|exfalso|done].
  - by apply Hnot in Hrun.
  - unfold assign_ranks in Hrun. rewrite rank_omega_eq in Hrun.
    by apply (relax_loop_no_raise _ _ _ _ Hres (init_ranks_ok tasks)) in Hrun.
Qed.

Lemma assign_ranks_diverges_on_cycle_witness :
  (0 ∉ task_ids (cyclic_pair 3 4)) ∧ tc (edge (cyclic_pair 3 4)) 1 1 ∧
  (∀ fuel ranks, assign_ranks fuel (cyclic_pair 3 4) ≠ Some (Ok ranks)) ∧
  (resolved (cyclic_pair 3 4) → ∀ fuel, assign_ranks fuel (cyclic_pair 3 4) = None).
Proof.
  assert (H0 : 0 ∉ task_ids (cyclic_pair 3 4)).
  { apply (bool_decide_unpack _). vm_compute. exact I. }
  assert (Hc : tc (edge (cyclic_pair 3 4)) 1 1).
  { apply (tc_l _ 1 2 1).
    - apply (edge_pred _ 1 2 4 [1]); apply (bool_decide_unpack _); vm_compute; exact I.
    - apply tc_once.
      apply (edge_pred _ 2 1 3 [2]); apply (bool_decide_unpack _); vm_compute; exact I. }
  split; [exact H0|]. split; [exact Hc|].
  exact (assign_ranks_diverges_on_cycle (cyclic_pair 3 4) 1 H0 Hc).
Defined.

(** ** ScheduleComputer: the dates satisfy the recurrences *)

Lemma earliest_eq_agree (tasks : list task) (e e' : gmap Z Z) (t : task) :
  (∀ k x, e !! k = Some x → e' !! k = Some x) →
  earliest_eq tasks e t → earliest_eq tasks e' t.
Proof.
  intros Hsub. unfold earliest_eq. destruct (task_preds t) as [|p0 ps]; [apply Hsub|].
  intros (p & ep & Hp & Hep & Het & Hall). exists p, ep.
  split; [done|]. split; [by apply Hsub|]. split; [by apply Hsub|].
  intros q Hq. destruct (Hall q Hq) as (eq & Heq & Hle). exists eq. split; [by apply Hsub|done].
Qed.

Lemma latest_eq_agree (tasks : list task) (omega : Z) (l l' : gmap Z Z) (t : task) :
  (∀ k x, l !! k = Some x → l' !! k = Some x) →
  latest_eq tasks omega l t → latest_eq tasks omega l' t.
Proof.
  intros Hsub. unfold latest_eq. destruct (successors (task_id t) tasks) as [|s0 ss].
  - intros (lo & Hlo & Hlt). exists lo. split; by apply Hsub.
  - intros (s & ls & Hs & Hls & Hlt & Hall). exists s, ls.
    split; [done|]. split; [by apply Hsub|]. split; [by apply Hsub|].
    intros s' Hs'. destruct (Hall s' Hs') as (ls' & Hls' & Hle).
    exists ls'. split; [by apply Hsub|done].
Qed.

Lemma makespan_eq_agree (tasks : list task) (e e' : gmap Z Z) (m : Z) :
  (∀ k x, e !! k = Some x → e' !! k = Some x) →
  makespan_eq tasks e m → makespan_eq tasks e' m.
Proof.
  intros Hsub [?|(t & et & Ht & Het & Hm & Hall)]; [by left|]. right.
  exists t, et. split; [done|]. split; [by apply Hsub|]. split; [done|].
  intros t' Ht'. destruct (Hall t' Ht') as (et' & Het' & Hle).
  exists et'. split; [by apply Hsub|done].
Qed.

(** What one step of the forward loop writes. *)
Lemma forward_task_spec (tasks : list task) (e e' : gmap Z Z) (t : task) :
  task_id t ≠ 0 →
  forward_task tasks e t = Ok e' →
  ∃ x, e' = <[task_id t := x]> e ∧
    match task_preds t with
    | [] => e !! 0 = Some x
    | _ :: _ =>
        ∃ p ep, p ∈ task_preds t ∧ e !! p = Some ep ∧ x = ep + get_duration p tasks ∧
          ∀ q, q ∈ task_preds t →
            ∃ eq, e !! q = Some eq ∧ eq + get_duration q tasks ≤ x
    end.
Proof.
  destruct t as [[t_id dur] preds]. unfold forward_task, task_id, task_preds. simpl.
  intros Hne H. destruct preds as [|p0 preds].
  - rewrite bool_decide_eq_true_2 in H by done.
    apply bind_Ok in H as (e0 & He0 & [= <-]). apply dict_get_Ok in He0. eauto.
  - apply bind_Ok in H as (ds & Hds & H). apply bind_Ok in H as (m & Hm & [= <-]).
    exists m. split; [done|]. apply mapR_Ok in Hds. apply py_max_Ok in Hm as [Hin Hle].
    apply list_elem_of_lookup in Hin as [i Hi].
    destruct (Forall2_lookup_r _ _ _ _ _ Hds Hi) as (p & Hp & Hpm).
    apply bind_Ok in Hpm as (ep & Hep & [= <-]). apply dict_get_Ok in Hep.
    exists p, ep. split; [by eapply list_elem_of_lookup_2|]. split; [done|].
    split; [done|].
    intros q [j Hj]%list_elem_of_lookup.
    destruct (Forall2_lookup_l _ _ _ _ _ Hds Hj) as (d & Hd & Hqd).
    apply bind_Ok in Hqd as (eq & Heq & [= <-]). apply dict_get_Ok in Heq.
    exists eq. split; [done|]. apply Hle. by eapply list_elem_of_lookup_2.
Qed.

(** What one step of the backward loop writes. *)
Lemma backward_task_spec (tasks : list task) (omega : Z) (l l' : gmap Z Z) (t : task) :
  task_id t ≠ omega →
  backward_task tasks omega l t = Ok l' →
  ∃ x, l' = <[task_id t := x - task_dur t]> l ∧
    match successors (task_id t) tasks with
    | [] => l !! omega = Some x
    | _ :: _ =>
        ∃ s, s ∈ successors (task_id t) tasks ∧ l !! s = Some x ∧
          ∀ s', s' ∈ successors (task_id t) tasks → ∃ ls', l !! s' = Some ls' ∧ x ≤ ls'
    end.
Proof.
  destruct t as [[t_id dur] preds]. unfold backward_task, task_id, task_dur. simpl.
  intros Hne H. destruct (successors t_id tasks) as [|s0 succs] eqn:Hsuccs.
  - rewrite bool_decide_eq_true_2 in H by done.
    apply bind_Ok in H as (lo & Hlo & [= <-]). apply dict_get_Ok in Hlo. eauto.
  - apply bind_Ok in H as (ls & Hls & H). apply bind_Ok in H as (m & Hm & [= <-]).
    exists m. split; [done|].
    apply (mapR_Ok (dict_get l) (s0 :: succs)) in Hls. apply py_min_Ok in Hm as [Hin Hle].
    apply list_elem_of_lookup in Hin as [i Hi].
    destruct (Forall2_lookup_r _ _ _ _ _ Hls Hi) as (s & Hs & Hsm).
    apply dict_get_Ok in Hsm. exists s.
    split; [by eapply list_elem_of_lookup_2|]. split; [done|].
    intros s' [j Hj]%list_elem_of_lookup.
    destruct (Forall2_lookup_l _ _ _ _ _ Hls Hj) as (x & Hx & Hsx).
    apply dict_get_Ok in Hsx. exists x. split; [done|].
    apply Hle. by eapply list_elem_of_lookup_2.
Qed.

Lemma split_ids_NoDup (l done rest : list task) (t : task) :
  NoDup (task_ids l) → l = done ++ t :: rest → task_id t ∉ task_ids done.
Proof.
  intros Hnd -> Hin. unfold task_ids in *. rewrite fmap_app, fmap_cons in Hnd.
  apply NoDup_app in Hnd as (_ & Hdisj & _). apply (Hdisj _ Hin). set_solver.
Qed.

(** The forward loop, over any order of the records with distinct ids. *)
Lemma forward_pass_eq (tasks order : list task) (e1 : gmap Z Z) :
  NoDup (task_ids order) → 0 ∉ task_ids order →
  foldM (forward_task tasks) {[0 := 0]} order = Ok e1 →
  e1 !! 0 = Some 0 ∧
  (∀ k, is_Some (e1 !! k) ↔ k = 0 ∨ k ∈ task_ids order) ∧
  ∀ t, t ∈ order → earliest_eq tasks e1 t.
Proof.
  intros Hnd H0 Hrun.
  apply (foldM_ind_split _ (λ done e,
           e !! 0 = Some 0 ∧
           (∀ k, is_Some (e !! k) ↔ k = 0 ∨ k ∈ task_ids done) ∧
           ∀ t, t ∈ done → earliest_eq tasks e t)) in Hrun; [done| |].
  - split; [apply lookup_singleton_eq|]. split.
    + intros k. rewrite lookup_singleton_is_Some. unfold task_ids. simpl. set_solver.
    + intros t Ht. by apply not_elem_of_nil in Ht.
  - intros done t rest e e' Hsplit (He0 & Hkeys & Heq) Hstep.
    pose proof (split_ids_NoDup _ _ _ _ Hnd Hsplit) as Hfresh.
    assert (Hid : task_id t ≠ 0).
    { intros Heq0. apply H0. rewrite <- Heq0, Hsplit. unfold task_ids.
      rewrite fmap_app, fmap_cons. set_solver. }
    destruct (forward_task_spec tasks e e' t Hid Hstep) as (x & -> & Hx).
    assert (Hnew : e !! task_id t = None).
    { destruct (e !! task_id t) eqn:Hl; [|done].
      destruct (proj1 (Hkeys (task_id t))) as [?|?]; [eauto|done|done]. }
    assert (Hsub : ∀ k y, e !! k = Some y → <[task_id t := x]> e !! k = Some y).
    { intros k y Hk. rewrite lookup_insert_ne; [done|]. intros <-. congruence. }
    split; [by apply Hsub|]. split.
    + intros k. rewrite lookup_insert_is_Some', Hkeys. unfold task_ids.
      rewrite fmap_app, fmap_cons. set_solver.
    + intros t' [Ht'|Ht']%elem_of_app; [by eapply earliest_eq_agree; [|apply Heq]|].
      apply list_elem_of_singleton in Ht' as ->. unfold earliest_eq.
      destruct (task_preds t) as [|p0 ps].
      * rewrite lookup_insert_eq. congruence.
      * destruct Hx as (p & ep & Hp & Hep & -> & Hall). exists p, ep.
        split; [done|]. split; [by apply Hsub|]. split; [by rewrite lookup_insert_eq|].
        intros q Hq. destruct (Hall q Hq) as (eq & Heq' & Hle).
        exists eq. split; [by apply Hsub|done].
Qed.

(** The backward loop, over any order of the records with distinct ids. *)
Lemma backward_pass_eq (tasks order : list task) (omega eo : Z) (l1 : gmap Z Z) :
  NoDup (task_ids order) → omega ∉ task_ids order →
  foldM (backward_task tasks omega) {[omega := eo]} order = Ok l1 →
  l1 !! omega = Some eo ∧
  (∀ k, is_Some (l1 !! k) ↔ k = omega ∨ k ∈ task_ids order) ∧
  ∀ t, t ∈ order → latest_eq tasks omega l1 t.
Proof.
  intros Hnd Hom Hrun.
  apply (foldM_ind_split _ (λ done l,
           l !! omega = Some eo ∧
           (∀ k, is_Some (l !! k) ↔ k = omega ∨ k ∈ task_ids done) ∧
           ∀ t, t ∈ done → latest_eq tasks omega l t)) in Hrun; [done| |].
  - split; [apply lookup_singleton_eq|]. split.
    + intros k. rewrite lookup_singleton_is_Some. unfold task_ids. simpl. set_solver.
    + intros t Ht. by apply not_elem_of_nil in Ht.
  - intros done t rest l l' Hsplit (Hlo & Hkeys & Heq) Hstep.
    pose proof (split_ids_NoDup _ _ _ _ Hnd Hsplit) as Hfresh.
    assert (Hid : task_id t ≠ omega).
    { intros Heq0. apply Hom. rewrite <- Heq0, Hsplit. unfold task_ids.
      rewrite fmap_app, fmap_cons. set_solver. }
    destruct (backward_task_spec tasks omega l l' t Hid Hstep) as (x & -> & Hx).
    assert (Hnew : l !! task_id t = None).
    { destruct (l !! task_id t) eqn:Hl; [|done].
      destruct (proj1 (Hkeys (task_id t))) as [?|?]; [eauto|done|done]. }
    assert (Hsub : ∀ k y, l !! k = Some y →
              <[task_id t := x - task_dur t]> l !! k = Some y).
    { intros k y Hk. rewrite lookup_insert_ne; [done|]. intros <-. congruence. }
    split; [by apply Hsub|]. split.
    + intros k. rewrite lookup_insert_is_Some', Hkeys. unfold task_ids.
      rewrite fmap_app, fmap_cons. set_solver.
    + intros t' [Ht'|Ht']%elem_of_app; [by eapply latest_eq_agree; [|apply Heq]|].
      apply list_elem_of_singleton in Ht' as ->. unfold latest_eq.
      destruct (successors (task_id t) tasks) as [|s0 ss].
      * exists x. split; [by apply Hsub | by rewrite lookup_insert_eq].
      * destruct Hx as (s & Hs & Hls & Hall). exists s, x.
        split; [done|]. split; [by apply Hsub|]. split; [by rewrite lookup_insert_eq|].
        intros s' Hs'. destruct (Hall s' Hs') as (ls' & Hls' & Hle).
        exists ls'. split; [by apply Hsub|done].
Qed.

(** The date of the end vertex. *)
Lemma end_date_eq (tasks : list task) (e1 : gmap Z Z) (eo : Z) :
  (if bool_decide (no_succ tasks ≠ ∅)
   then dates ← mapR (λ t, e ← dict_get e1 t; Ok (e + get_duration t tasks))
                     (elements (no_succ tasks));
        py_max dates
   else Ok 0) = Ok eo →
  makespan_eq tasks e1 eo.
Proof.
  case_bool_decide as Hne.
  - intros H. apply bind_Ok in H as (ds & Hds & Hm). right.
    apply mapR_Ok in Hds. apply py_max_Ok in Hm as [Hin Hle].
    apply list_elem_of_lookup in Hin as [i Hi].
    destruct (Forall2_lookup_r _ _ _ _ _ Hds Hi) as (t & Ht & Htm).
    apply bind_Ok in Htm as (et & Het & [= <-]). apply dict_get_Ok in Het.
    exists t, et. split; [eapply elem_of_elements, list_elem_of_lookup_2; exact Ht|].
    split; [done|]. split; [done|].
    intros t' [j Hj]%elem_of_elements%list_elem_of_lookup.
    destruct (Forall2_lookup_l _ _ _ _ _ Hds Hj) as (d & Hd & Htd).
    apply bind_Ok in Htd as (et' & Het' & [= <-]). apply dict_get_Ok in Het'.
    exists et'. split; [done|]. apply Hle. by eapply list_elem_of_lookup_2.
  - intros [= <-]. left. split; [|done].
    destruct (decide (no_succ tasks = ∅)) as [Heq|Hneq]; [done|]. by destruct Hne.
Qed.

Section dates.
Variables (tasks : list task) (ranks : gmap Z Z) (omega : Z).
Hypothesis Hnodup : NoDup (task_ids tasks).
Hypothesis H0 : 0 ∉ task_ids tasks.
Hypothesis Homega : schedule_omega ranks = Ok omega.
Hypothesis Hnotin : omega ∉ task_ids tasks.
Hypothesis Hpos : omega ≠ 0.

Lemma compute_schedules_eq (e l : gmap Z Z) :
  compute_schedules tasks ranks = Ok (e, l) →
  (∀ k, is_Some (e !! k) ↔ k = 0 ∨ k ∈ task_ids tasks ∨ k = omega) ∧
  (∀ k, is_Some (l !! k) ↔ k ∈ task_ids tasks ∨ k = omega) ∧
  e !! 0 = Some 0 ∧
  (∀ t, t ∈ tasks → earliest_eq tasks e t) ∧
  (∃ m, e !! omega = Some m ∧ l !! omega = Some m ∧ makespan_eq tasks e m) ∧
  (∀ t, t ∈ tasks → latest_eq tasks omega l t).
Proof.
  unfold compute_schedules. rewrite Homega. simpl.
  intros H. apply bind_Ok in H as (sorted & Hsort & H).
  pose proof (sorted_by_rank_perm _ _ _ Hsort) as Hperm.
  apply bind_Ok in H as (e1 & Hfwd & H). apply bind_Ok in H as (eo & Heo & H).
  apply bind_Ok in H as (l1 & Hbwd & [= <- <-]).
  assert (Hids : ∀ k, k ∈ task_ids sorted ↔ k ∈ task_ids tasks).
  { intros k. unfold task_ids. by rewrite Hperm. }
  assert (Hnd : NoDup (task_ids sorted)).
  { unfold task_ids. by rewrite Hperm. }
  destruct (forward_pass_eq tasks sorted e1 Hnd) as (He0 & Hkeys & Heq);
    [by rewrite Hids | done |].
  destruct (backward_pass_eq tasks (reverse sorted) omega eo l1) as (Hlo & Hlkeys & Hleq);
    [| |done|].
  { unfold task_ids. by rewrite reverse_Permutation. }
  { rewrite <- (Hids omega) in Hnotin. unfold task_ids in *. by rewrite reverse_Permutation. }
  assert (Hfresh : e1 !! omega = None).
  { destruct (e1 !! omega) eqn:Hl; [|done].
    destruct (proj1 (Hkeys omega)) as [?|?%Hids]; [eauto|done|done]. }
  assert (Hsub : ∀ k y, e1 !! k = Some y → <[omega := eo]> e1 !! k = Some y).
  { intros k y Hk. rewrite lookup_insert_ne; [done|]. intros <-. congruence. }
  split; [|split; [|split; [|split; [|split]]]].
  - intros k. rewrite lookup_insert_is_Some', Hkeys, Hids. naive_solver.
  - intros k. rewrite Hlkeys, <- (Hids k). unfold task_ids.
    rewrite reverse_Permutation. tauto.
  - by apply Hsub.
  - intros t Ht. eapply earliest_eq_agree; [exact Hsub|]. apply Heq. by rewrite Hperm.
  - exists eo. split; [by rewrite lookup_insert_eq|]. split; [done|].
    eapply makespan_eq_agree; [exact Hsub|]. by apply end_date_eq.
  - intros t Ht. apply Hleq. by rewrite reverse_Permutation, Hperm.
Qed.
End dates.

(** X7. The earliest dates are those of the critical path method.  For
    pairwise distinct task ids, none of them [0], every pair of maps that
    [compute_schedules] returns on the ranks of [assign_ranks] gives date 0
    to the start vertex and to every task without predecessor, gives a task
    with predecessors the largest of [earliest[p] + duration(p)] over its
    predecessors [p], and gives the end vertex 0 when no task is terminal and
    otherwise the largest of [earliest[t] + duration(t)] over the terminal
    tasks; the keys of the earliest map are [0], the task ids and the end
    vertex. *)
Theorem compute_schedules_earliest (tasks : list task) (fuel : nat) (ranks e l : gmap Z Z) :
  NoDup (task_ids tasks) → 0 ∉ task_ids tasks →
  assign_ranks fuel tasks = Some (Ok ranks) →
  compute_schedules tasks ranks = Ok (e, l) →
  dom e = {[0]} ∪ list_to_set (task_ids tasks) ∪ {[omega_of tasks]} ∧
  e !! 0 = Some 0 ∧
  (∀ t, t ∈ tasks → earliest_eq tasks e t) ∧
  ∃ m, e !! omega_of tasks = Some m ∧ makespan_eq tasks e m.
Proof.
  intros Hnodup H0 Hr Hs.
  destruct (compute_schedules_eq tasks ranks (omega_of tasks) Hnodup H0) with (e := e) (l := l)
    as (Hke & _ & He0 & Heq & (m & Hm & _ & Hmk) & _).
  - by eapply assign_ranks_max_key.
  - intros Hin%omega_of_gt. lia.
  - pose proof (omega_of_pos tasks). lia.
  - done.
  - split; [|eauto].
    apply set_eq. intros k. rewrite elem_of_dom, Hke. set_solver.
Qed.

Lemma compute_schedules_earliest_witness :
  NoDup (task_ids example_tasks) ∧ (0 ∉ task_ids example_tasks) ∧
  assign_ranks 2 example_tasks = Some (Ok example_ranks) ∧
  compute_schedules example_tasks example_ranks = Ok (example_earliest, example_latest) ∧
  dom example_earliest
  = {[0]} ∪ list_to_set (task_ids example_tasks) ∪ {[omega_of example_tasks]} ∧
  example_earliest !! 0 = Some 0 ∧
  (∀ t, t ∈ example_tasks → earliest_eq example_tasks example_earliest t) ∧
  ∃ m, example_earliest !! omega_of example_tasks = Some m ∧
    makespan_eq example_tasks example_earliest m.
Proof.
  assert (Hn : NoDup (task_ids example_tasks)).
  { apply (bool_decide_unpack _). vm_compute. exact I. }
  assert (H0 : 0 ∉ task_ids example_tasks).
  { apply (bool_decide_unpack _). vm_compute. exact I. }
  assert (Hr : assign_ranks 2 example_tasks = Some (Ok example_ranks)).
  { vm_compute. reflexivity. }
  assert (Hs : compute_schedules example_tasks example_ranks
               = Ok (example_earliest, example_latest)).
  { vm_compute. reflexivity. }
  split; [exact Hn|]. split; [exact H0|]. split; [exact Hr|]. split; [exact Hs|].
  exact (compute_schedules_earliest example_tasks 2 example_ranks _ _ Hn H0 Hr Hs).
Defined.

(** X8. The latest dates are those of the critical path method.  Under the
    same assumptions, the latest date of the end vertex is its earliest
    date, a task that no task names as a predecessor gets
    [latest[omega] - duration], and any other task gets the smallest latest
    date of its successors minus its duration; the keys of the latest map are
    the task ids and the end vertex only. *)
Theorem compute_schedules_latest (tasks : list task) (fuel : nat) (ranks e l : gmap Z Z) :
  NoDup (task_ids tasks) → 0 ∉ task_ids tasks →
  assign_ranks fuel tasks = Some (Ok ranks) →
  compute_schedules tasks ranks = Ok (e, l) →
  dom l = list_to_set (task_ids tasks) ∪ {[omega_of tasks]} ∧
  (∃ m, e !! omega_of tasks = Some m ∧ l !! omega_of tasks = Some m) ∧
  ∀ t, t ∈ tasks → latest_eq tasks (omega_of tasks) l t.
Proof.
  intros Hnodup H0 Hr Hs.
  destruct (compute_schedules_eq tasks ranks (omega_of tasks) Hnodup H0) with (e := e) (l := l)
    as (_ & Hkl & _ & _ & (m & Hm & Hlm & _) & Hleq).
  - by eapply assign_ranks_max_key.
  - intros Hin%omega_of_gt. lia.
  - pose proof (omega_of_pos tasks). lia.
  - done.
  - split; [|eauto].
    apply set_eq. intros k. rewrite elem_of_dom, Hkl. set_solver.
Qed.

Lemma compute_schedules_latest_witness :
  NoDup (task_ids example_tasks) ∧ (0 ∉ task_ids example_tasks) ∧
  assign_ranks 2 example_tasks = Some (Ok example_ranks) ∧
  compute_schedules example_tasks example_ranks = Ok (example_earliest, example_latest) ∧
  dom example_latest = list_to_set (task_ids example_tasks) ∪ {[omega_of example_tasks]} ∧
  (∃ m, example_earliest !! omega_of example_tasks = Some m ∧
     example_latest !! omega_of example_tasks = Some m) ∧
  ∀ t, t ∈ example_tasks → latest_eq example_tasks (omega_of example_tasks) example_latest t.
Proof.
  assert (Hn : NoDup (task_ids example_tasks)).
  { apply (bool_decide_unpack _). vm_compute. exact I. }
  assert (H0 : 0 ∉ task_ids example_tasks).
  { apply (bool_decide_unpack _). vm_compute. exact I. }
  assert (Hr : assign_ranks 2 example_tasks = Some (Ok example_ranks)).
  { vm_compute. reflexivity. }
  assert (Hs : compute_schedules example_tasks example_ranks
               = Ok (example_earliest, example_latest)).
  { vm_compute. reflexivity. }
  split; [exact Hn|]. split; [exact H0|]. split; [exact Hr|]. split; [exact Hs|].
  exact (compute_schedules_latest example_tasks 2 example_ranks _ _ Hn H0 Hr Hs).
Defined.

(** ** ScheduleComputer: bounds on the dates when no duration is negative *)

Lemma get_duration_nonneg (tasks : list task) (p : Z) :
  has_negative_arcs tasks = false → 0 ≤ get_duration p tasks.
Proof.
  intros H. pose proof (proj1 (has_negative_arcs_false tasks) H) as Hpos. clear H.
  induction tasks as [|[[tid dur] preds] tasks IH]; simpl; [lia|].
  case_bool_decide.
  - apply (Hpos (tid, dur, preds)). left.
  - apply IH. intros t Ht. apply Hpos. by right.
Qed.

Lemma forward_task_nonneg (tasks : list task) (e e' : gmap Z Z) (t : task) :
  (∀ p, 0 ≤ get_duration p tasks) →
  forward_task tasks e t = Ok e' →
  (∀ k v, e !! k = Some v → 0 ≤ v) → ∀ k v, e' !! k = Some v → 0 ≤ v.
Proof.
  intros Hd. destruct t as [[t_id dur] preds]. unfold forward_task.
  intros H He k v. destruct preds as [|p0 preds].
  - case_bool_decide.
    + apply bind_Ok in H as (e0 & He0%dict_get_Ok & [= <-]).
      intros [[-> <-]|[_ Hk]]%lookup_insert_Some; eauto.
    + injection H as <-. apply He.
  - apply bind_Ok in H as (ds & Hds%mapR_Ok & H).
    apply bind_Ok in H as (m & [Hin _]%py_max_Ok & [= <-]).
    intros [[-> <-]|[_ Hk]]%lookup_insert_Some; [|eauto].
    apply list_elem_of_lookup in Hin as [i Hi].
    destruct (Forall2_lookup_r _ _ _ _ _ Hds Hi) as (p & Hp & Hpm).
    apply bind_Ok in Hpm as (ep & Hep%dict_get_Ok & [= <-]).
    pose proof (He _ _ Hep). pose proof (Hd p). lia.
Qed.

Lemma backward_task_le (tasks : list task) (omega eo : Z) (l l' : gmap Z Z) (t : task) :
  0 ≤ task_dur t →
  backward_task tasks omega l t = Ok l' →
  (∀ k v, l !! k = Some v → v ≤ eo) → ∀ k v, l' !! k = Some v → v ≤ eo.
Proof.
  destruct t as [[t_id dur] preds]. unfold backward_task, task_dur. simpl.
  intros Hdur H Hl k v. destruct (successors t_id tasks) as [|s0 succs] eqn:Hsuccs.
  - case_bool_decide.
    + apply bind_Ok in H as (lo & Hlo%dict_get_Ok & [= <-]).
      intros [[-> <-]|[_ Hk]]%lookup_insert_Some; [|eauto].
      pose proof (Hl _ _ Hlo). lia.
    + injection H as <-. apply Hl.
  - apply bind_Ok in H as (ls & Hls & H).
    apply bind_Ok in H as (m & [Hin _]%py_min_Ok & [= <-]).
    apply (mapR_Ok (dict_get l) (s0 :: succs)) in Hls.
    intros [[-> <-]|[_ Hk]]%lookup_insert_Some; [|eauto].
    apply list_elem_of_lookup in Hin as [i Hi].
    destruct (Forall2_lookup_r _ _ _ _ _ Hls Hi) as (s & Hs & Hsm%dict_get_Ok).
    pose proof (Hl _ _ Hsm). lia.
Qed.

(** X9. With no negative duration, no date is negative and no latest date
    exceeds the date of the end vertex: whenever [has_negative_arcs] answers
    [False] and [compute_schedules] returns, for any rank map, every value
    of the earliest map is at least 0 and every value of the latest map is
    at most [earliest[omega]]. *)
Theorem compute_schedules_dates_bounded (tasks : list task) (ranks e l : gmap Z Z) :
  has_negative_arcs tasks = false →
  compute_schedules tasks ranks = Ok (e, l) →
  ∃ omega m, schedule_omega ranks = Ok omega ∧ e !! omega = Some m ∧
    (∀ k v, e !! k = Some v → 0 ≤ v) ∧
    (∀ k v, l !! k = Some v → v ≤ m).
Proof.
  intros Hneg H. unfold compute_schedules in H.
  apply bind_Ok in H as (omega & Hom & H).
  apply bind_Ok in H as (sorted & Hsort & H).
  pose proof (sorted_by_rank_perm _ _ _ Hsort) as Hperm.
  apply bind_Ok in H as (e1 & Hfwd & H). apply bind_Ok in H as (eo & Heo & H).
  apply bind_Ok in H as (l1 & Hbwd & [= <- <-]).
  pose proof (λ p, get_duration_nonneg tasks p Hneg) as Hd.
  pose proof (proj1 (has_negative_arcs_false tasks) Hneg) as Hpos.
  set (nonneg := λ e0 : gmap Z Z, ∀ k v, e0 !! k = Some v → 0 ≤ v).
  assert (He1 : nonneg e1).
  { apply (foldM_ind _ (λ _ e0, nonneg e0)) in Hfwd; [done| |].
    - intros k v [_ <-]%lookup_singleton_Some. lia.
    - intros done t s1 s2 _ Hs1 Hstep. exact (forward_task_nonneg tasks s1 s2 t Hd Hstep Hs1). }
  assert (Heo0 : 0 ≤ eo).
  { revert Heo. case_bool_decide as Hne; [|intros [= <-]; lia].
    intros Heo. apply bind_Ok in Heo as (ds & Hds%mapR_Ok & [Hin _]%py_max_Ok).
    apply list_elem_of_lookup in Hin as [i Hi].
    destruct (Forall2_lookup_r _ _ _ _ _ Hds Hi) as (t & Ht & Htm).
    apply bind_Ok in Htm as (et & Het%dict_get_Ok & [= <-]).
    pose proof (He1 _ _ Het). pose proof (Hd t). lia. }
  exists omega, eo. split; [done|]. split; [by rewrite lookup_insert_eq|]. split.
  - intros k v [[-> <-]|[_ Hk]]%lookup_insert_Some; [done|by eapply He1].
  - set (below := λ l0 : gmap Z Z, ∀ k v, l0 !! k = Some v → v ≤ eo).
    apply (foldM_ind _ (λ _ l0, below l0)) in Hbwd; [done| |].
    + intros k v [_ <-]%lookup_singleton_Some. lia.
    + intros done t s1 s2 Ht Hs1 Hstep.
      refine (backward_task_le tasks omega eo s1 s2 t _ Hstep Hs1).
      apply Hpos. by rewrite elem_of_reverse, Hperm in Ht.
Qed.

Lemma compute_schedules_dates_bounded_witness :
  has_negative_arcs example_tasks = false ∧
  compute_schedules example_tasks example_ranks = Ok (example_earliest, example_latest) ∧
  ∃ omega m, schedule_omega example_ranks = Ok omega ∧
    example_earliest !! omega = Some m ∧
    (∀ k v, example_earliest !! k = Some v → 0 ≤ v) ∧
    (∀ k v, example_latest !! k = Some v → v ≤ m).
Proof.
  assert (Hn : has_negative_arcs example_tasks = false) by (vm_compute; reflexivity).
  assert (Hs : compute_schedules example_tasks example_ranks
               = Ok (example_earliest, example_latest)) by (vm_compute; reflexivity).
  split; [exact Hn|]. split; [exact Hs|].
  exact (compute_schedules_dates_bounded example_tasks example_ranks _ _ Hn Hs).
Defined.

(** ** ScheduleComputer: the exceptions of [compute_schedules] *)

Lemma bind_Raise {A B : Type} (m : res A) (f : A → res B) (x : exn) :
  (m ≫= f) = Raise x ↔ m = Raise x ∨ ∃ a, m = Ok a ∧ f a = Raise x.
Proof.
  destruct m as [a|y]; simpl; split.
  - intros H. right. eauto.
  - intros [H|(a' & H & H')]; [discriminate H|]. by injection H as <-.
  - intros [= ->]. by left.
  - intros [[= ->]|(a' & H & _)]; [done|discriminate H].
Qed.

Lemma mapR_Raise {A B : Type} (f : A → res B) (l : list A) (x : exn) :
  mapR f l = Raise x → ∃ a, a ∈ l ∧ f a = Raise x.
Proof.
  induction l as [|a l IH]; simpl; [done|].
  intros [H|(y & Hy & H)]%bind_Raise.
  - exists a. split; [left|done].
  - apply bind_Raise in H as [H|(ys & _ & [=])].
    destruct (IH H) as (a' & Ha' & Hf). exists a'. split; [by right|done].
Qed.

Lemma dict_get_Raise (d : gmap Z Z) (k : Z) (x : exn) :
  dict_get d k = Raise x ↔ x = KeyError ∧ d !! k = None.
Proof.
  unfold dict_get. destruct (d !! k) as [v|]; split.
  - intros [=].
  - intros [_ [=]].
  - by intros [= <-].
  - by intros [-> _].
Qed.

Lemma py_max_Raise (l : list Z) (x : exn) : py_max l = Raise x ↔ l = [] ∧ x = ValueError.
Proof.
  destruct l; simpl; split; try done.
  - by intros [= <-].
  - by intros [_ ->].
  - by intros [[=] _].
Qed.

Lemma py_min_Raise (l : list Z) (x : exn) : py_min l = Raise x ↔ l = [] ∧ x = ValueError.
Proof.
  destruct l; simpl; split; try done.
  - by intros [= <-].
  - by intros [_ ->].
  - by intros [[=] _].
Qed.

Lemma schedule_omega_Raise (ranks : gmap Z Z) (x : exn) :
  schedule_omega ranks = Raise x ↔ ranks = ∅ ∧ x = ValueError.
Proof.
  unfold schedule_omega. rewrite py_max_Raise. unfold dict_keys.
  split; intros [H ->]; (split; [|done]).
  - by apply fmap_nil_inv, map_to_list_empty_iff in H.
  - by rewrite H, map_to_list_empty.
Qed.

Lemma sorted_by_rank_Raise (tasks : list task) (ranks : gmap Z Z) (x : exn) :
  sorted_by_rank tasks ranks = Raise x →
  x = KeyError ∧ ∃ t, t ∈ tasks ∧ ranks !! task_id t = None.
Proof.
  unfold sorted_by_rank. intros [H|(keyed & _ & [=])]%bind_Raise.
  apply mapR_Raise in H as (t & Ht & [H|(k & _ & [=])]%bind_Raise).
  apply dict_get_Raise in H as [-> H]. eauto.
Qed.

Lemma sorted_by_rank_missing (tasks : list task) (ranks : gmap Z Z) (t : task) :
  t ∈ tasks → ranks !! task_id t = None → sorted_by_rank tasks ranks = Raise KeyError.
Proof.
  intros Ht Hnone. destruct (sorted_by_rank tasks ranks) as [sorted|x] eqn:Hs.
  - unfold sorted_by_rank in Hs. apply bind_Ok in Hs as (keyed & Hk%mapR_Ok & _).
    apply list_elem_of_lookup in Ht as [i Hi].
    destruct (Forall2_lookup_l _ _ _ _ _ Hk Hi) as (kt & _ & Hkt).
    apply bind_Ok in Hkt as (k & Hget%dict_get_Ok & _). congruence.
  - by apply sorted_by_rank_Raise in Hs as [-> _].
Qed.

Lemma forward_task_Raise (tasks : list task) (e : gmap Z Z) (t : task) (x : exn) :
  forward_task tasks e t = Raise x → x = KeyError.
Proof.
  destruct t as [[t_id dur] preds]. unfold forward_task. destruct preds as [|p0 preds].
  - case_bool_decide; [|done].
    by intros [[-> _]%dict_get_Raise|(e0 & _ & [=])]%bind_Raise.
  - intros [H|(ds & Hds & H)]%bind_Raise.
    + apply mapR_Raise in H as (p & _ & [[-> _]%dict_get_Raise|(ep & _ & [=])]%bind_Raise).
      done.
    + apply bind_Raise in H as [[Hnil _]%py_max_Raise|(m & _ & [=])].
      by apply mapR_nonempty in Hds.
Qed.

Lemma backward_task_Raise (tasks : list task) (omega : Z) (l : gmap Z Z) (t : task) (x : exn) :
  backward_task tasks omega l t = Raise x → x = KeyError.
Proof.
  destruct t as [[t_id dur] preds]. unfold backward_task.
  destruct (successors t_id tasks) as [|s0 succs].
  - case_bool_decide; [|done].
    by intros [[-> _]%dict_get_Raise|(e0 & _ & [=])]%bind_Raise.
  - intros [H|(ds & Hds & H)]%bind_Raise.
    + by apply mapR_Raise in H as (p & _ & [-> _]%dict_get_Raise).
    + apply bind_Raise in H as [[Hnil _]%py_min_Raise|(m & _ & [=])].
      by apply mapR_nonempty in Hds.
Qed.

Lemma compute_schedules_KeyError (tasks : list task) (ranks : gmap Z Z) (x : exn) :
  ranks ≠ ∅ → compute_schedules tasks ranks = Raise x → x = KeyError.
Proof.
  intros Hne. unfold compute_schedules.
  intros [H|(omega & _ & H)]%bind_Raise; [by apply schedule_omega_Raise in H as [? _]|].
  apply bind_Raise in H as [H|(sorted & _ & H)]; [by apply sorted_by_rank_Raise in H as [? _]|].
  apply bind_Raise in H as [H|(e1 & _ & H)].
  { apply foldM_Raise in H as (s1 & t & _ & H). by eapply forward_task_Raise. }
  apply bind_Raise in H as [H|(eo & _ & H)].
  { revert H. case_bool_decide as Hns; [|done].
    intros [H|(ds & Hds & H)]%bind_Raise.
    - by apply mapR_Raise in H as (p & _ & [[-> _]%dict_get_Raise|(ep & _ & [=])]%bind_Raise).
    - apply py_max_Raise in H as [Hnil _]. apply mapR_nonempty in Hds; [done|].
      intros Hel. apply Hns. by apply elements_empty_inv, leibniz_equiv in Hel. }
  apply bind_Raise in H as [H|(l1 & _ & [=])].
  apply foldM_Raise in H as (s1 & t & _ & H). by eapply backward_task_Raise.
Qed.

(** X10. The exceptions of [compute_schedules].  It raises [ValueError]
    exactly when the rank map is empty ([max] of no key); any other
    exception it raises is a [KeyError]; and on a non-empty rank map that
    lacks the id of some task it raises [KeyError]. *)
Theorem compute_schedules_raises (tasks : list task) (ranks : gmap Z Z) :
  (compute_schedules tasks ranks = Raise ValueError ↔ ranks = ∅) ∧
  (∀ x, compute_schedules tasks ranks = Raise x → x = ValueError ∨ x = KeyError) ∧
  (ranks ≠ ∅ → ∀ t, t ∈ tasks → ranks !! task_id t = None →
     compute_schedules tasks ranks = Raise KeyError).
Proof.
  assert (Hempty : ranks = ∅ → compute_schedules tasks ranks = Raise ValueError).
  { intros ->. reflexivity. }
  split; [|split].
  - split; [|done]. intros H. destruct (decide (ranks = ∅)) as [|Hne]; [done|].
    by apply compute_schedules_KeyError in H.
  - intros x H. destruct (decide (ranks = ∅)) as [Heq|Hne].
    + rewrite (Hempty Heq) in H. left. congruence.
    + right. by eapply compute_schedules_KeyError.
  - intros Hne t Ht Hnone. unfold compute_schedules.
    destruct (schedule_omega ranks) as [omega|x] eqn:Hom.
    + simpl. by rewrite (sorted_by_rank_missing tasks ranks t).
    + by apply schedule_omega_Raise in Hom as [? _].
Qed.

(** ** SlackAnalyzer: when [calculate_slacks] returns *)

(** X11. [calculate_slacks] returns a map exactly when the two date maps
    have the same keys: then the slack map has those keys and holds
    [latest[v] - earliest[v]] at each of them; with different key sets it
    raises [KeyError]. *)
Theorem calculate_slacks_same_keys (e l : gmap Z Z) :
  ((∃ slacks, calculate_slacks e l = Ok slacks) ↔ dom e = dom l) ∧
  (∀ slacks, calculate_slacks e l = Ok slacks →
     dom slacks = dom e ∧
     ∀ v ev lv, e !! v = Some ev → l !! v = Some lv → slacks !! v = Some (lv - ev)) ∧
  (dom e ≠ dom l → calculate_slacks e l = Raise KeyError).
Proof.
  split; [|split].
  - split; [by intros [slacks [H _]%calculate_slacks_Ok]|].
    intros Hdom. unfold calculate_slacks.
    destruct (foldM_total
                (λ (slacks : gmap Z Z) node, l0 ← dict_get l node; e0 ← dict_get e node;
                                Ok (<[node := l0 - e0]> slacks))
                (λ _, True) (elements (dom e ∪ dom l)) ∅ I) as (s & Hs & _); [|by exists s].
    intros node s1 Hnode%elem_of_elements _.
    assert (He : node ∈ dom e) by set_solver.
    assert (Hl : node ∈ dom l) by set_solver.
    apply elem_of_dom in He as [ev He]. apply elem_of_dom in Hl as [lv Hl].
    exists (<[node := lv - ev]> s1). split; [|done].
    unfold dict_get. by rewrite Hl, He.
  - intros slacks [Hdom Hval]%calculate_slacks_Ok. split.
    + apply set_eq. intros v. rewrite !elem_of_dom, Hval.
      assert (Hv : v ∈ dom e ↔ v ∈ dom l) by (by rewrite Hdom).
      rewrite !elem_of_dom in Hv.
      destruct (l !! v) as [lv|] eqn:Hl, (e !! v) as [ev|] eqn:He; simpl;
        split; intros Hs; try done; try (by eexists);
        try (by apply Hv in Hs); try (by apply Hv); by destruct Hs.
    + intros v ev lv He Hl. by rewrite Hval, Hl, He.
  - apply calculate_slacks_dom_ne.
Qed.

(** ** SlackAnalyzer: no vertex has a negative slack *)




(** ** The dates respect every arc of the adjacency matrix *)

Lemma never_predecessor_successors (tasks : list task) (x : Z) :
  never_predecessor tasks x → successors x tasks = [].
Proof.
  intros Hnp. destruct (successors x tasks) as [|s ss] eqn:Hs; [done|].
  assert (Hin : s ∈ successors x tasks) by (rewrite Hs; left).
  apply elem_of_successors in Hin as (t & Ht & _ & Hx).
  unfold never_predecessor in Hnp. rewrite Forall_forall in Hnp. by destruct (Hnp t Ht).
Qed.

Lemma dense_no_alpha (tasks : list task) : dense_ids tasks → 0 ∉ task_ids tasks.
Proof.
  intros Hdense [t [Hid Ht]]%list_elem_of_fmap.
  unfold dense_ids in Hdense. rewrite Forall_forall in Hdense.
  specialize (Hdense t Ht). lia.
Qed.

(** X12. The dates respect the adjacency matrix.  For distinct task ids
    [1 .. n], and the rank map of [assign_ranks], every arc [i -> j] of
    weight [d] of the matrix that [build_adjacency_matrix] returns has
    [earliest[i] + d <= earliest[j]] in the earliest map of
    [compute_schedules], and, unless [i] is the start vertex (which has no
    latest date), [latest[i] + d <= latest[j]] in the latest map. *)
Theorem schedule_respects_matrix (tasks : list task) (fuel : nat)
    (ranks e l : gmap Z Z) (matrix : list (list cell)) :
  dense_ids tasks → NoDup (task_ids tasks) →
  build_adjacency_matrix tasks = Ok matrix →
  assign_ranks fuel tasks = Some (Ok ranks) →
  compute_schedules tasks ranks = Ok (e, l) →
  ∀ (i j : nat) (d : Z), matrix_cell matrix i j = Some (W d) →
    (∃ ei ej, e !! Z.of_nat i = Some ei ∧ e !! Z.of_nat j = Some ej ∧ ei + d ≤ ej) ∧
    (i ≠ 0%nat →
     ∃ li lj, l !! Z.of_nat i = Some li ∧ l !! Z.of_nat j = Some lj ∧ li + d ≤ lj).
Proof.
  intros Hdense Hnodup Hb Hr Hs i j d Hcell.
  apply (build_adjacency_matrix_cells_of tasks Hdense Hnodup matrix Hb) in Hcell.
  pose proof (dense_no_alpha tasks Hdense) as H0.
  pose proof (dense_NoDup_omega tasks Hdense Hnodup) as Hom.
  destruct (compute_schedules_eq tasks ranks (omega_of tasks) Hnodup H0) with (e := e) (l := l)
    as (_ & _ & He0 & Heq & (m & Hm & Hlm & Hmk) & Hleq).
  { by eapply assign_ranks_max_key. }
  { intros Hin%omega_of_gt. lia. }
  { pose proof (omega_of_pos tasks). lia. }
  { done. }
  revert Hcell. generalize (Z.of_nat i) (Z.of_nat j) (Nat2Z.inj i 0). intros a b Hi0 Harc.
  destruct Harc as [t_id dur Ht|p dp predsp t_id dur preds Ht Hp Hpt|t_id dur preds Ht Hnp].
  - split; [|intros Hne; by destruct Hne; apply Hi0].
    specialize (Heq _ Ht). unfold earliest_eq in Heq. simpl in Heq.
    exists 0, 0. split; [done|]. split; [done|lia].
  - split.
    + specialize (Heq _ Ht). unfold earliest_eq, task_preds, task_id in Heq. simpl in Heq.
      destruct preds as [|p0 ps]; [by apply not_elem_of_nil in Hp|].
      destruct Heq as (p' & ep' & _ & _ & Het & Hall).
      destruct (Hall p Hp) as (ep & Hep & Hle).
      pose proof (get_duration_NoDup tasks (p, dp, predsp) Hnodup Hpt) as Hgd.
      unfold task_id, task_dur in Hgd. simpl in Hgd. rewrite Hgd in Hle.
      exists ep, (ep' + get_duration p' tasks). by split; [|split].
    + intros _. specialize (Hleq _ Hpt). unfold latest_eq, task_id, task_dur in Hleq.
      simpl in Hleq.
      assert (Hin : t_id ∈ successors p tasks).
      { apply elem_of_successors. by exists (t_id, dur, preds). }
      destruct (successors p tasks) as [|s0 ss]; [by apply not_elem_of_nil in Hin|].
      destruct Hleq as (s & ls & _ & _ & Hlp & Hall).
      destruct (Hall t_id Hin) as (lt & Hlt & Hle).
      exists (ls - dp), lt. split; [done|]. split; [done|lia].
  - rewrite Hom.
    assert (Hns : t_id ∈ no_succ tasks).
    { apply elem_of_no_succ. split; [|done].
      apply list_elem_of_fmap. by exists (t_id, dur, preds). }
    split.
    + destruct Hmk as [[Hemp _]|(t' & et' & _ & _ & _ & Hall)]; [set_solver|].
      destruct (Hall t_id Hns) as (et & Het & Hle).
      pose proof (get_duration_NoDup tasks (t_id, dur, preds) Hnodup Ht) as Hgd.
      unfold task_id, task_dur in Hgd. simpl in Hgd. rewrite Hgd in Hle.
      exists et, m. by split; [|split].
    + intros _. specialize (Hleq _ Ht). unfold latest_eq, task_id, task_dur in Hleq.
      simpl in Hleq. rewrite (never_predecessor_successors _ _ Hnp) in Hleq.
      destruct Hleq as (lo & Hlo & Hlt). exists (lo - dur), lo.
      split; [done|]. split; [done|lia].
Qed.

Lemma schedule_respects_matrix_witness :
  dense_ids example_tasks ∧ NoDup (task_ids example_tasks) ∧
  (∃ matrix, build_adjacency_matrix example_tasks = Ok matrix ∧
   ∀ (i j : nat) (d : Z), matrix_cell matrix i j = Some (W d) →
    (∃ ei ej, example_earliest !! Z.of_nat i = Some ei ∧
       example_earliest !! Z.of_nat j = Some ej ∧ ei + d ≤ ej) ∧
    (i ≠ 0%nat →
     ∃ li lj, example_latest !! Z.of_nat i = Some li ∧
       example_latest !! Z.of_nat j = Some lj ∧ li + d ≤ lj)).
Proof.
  assert (Hd : dense_ids example_tasks).
  { apply (bool_decide_unpack _). vm_compute. exact I. }
  assert (Hn : NoDup (task_ids example_tasks)).
  { apply (bool_decide_unpack _). vm_compute. exact I. }
  assert (Hr : assign_ranks 2 example_tasks = Some (Ok example_ranks)).
  { vm_compute. reflexivity. }
  assert (Hs : compute_schedules example_tasks example_ranks
               = Ok (example_earliest, example_latest)).
  { vm_compute. reflexivity. }
  split; [exact Hd|]. split; [exact Hn|].
  destruct (build_adjacency_matrix example_tasks) as [matrix|x] eqn:Hb;
    [|by vm_compute in Hb].
  exists matrix. split; [reflexivity|].
  exact (schedule_respects_matrix example_tasks 2 example_ranks _ _ matrix Hd Hn Hb Hr Hs).
Defined.
